(** * blossom-drive-client: Drive, EncryptedDrive and Upload

    A shallow embedding of [src/Drive.ts], [src/EncryptedDrive.ts],
    [src/Upload.ts] and [src/helpers.ts].

    Conventions of the embedding.
    - A class instance is a record of its fields; a method is a function from
      the instance (and its arguments) to the new instance and an [Outcome]:
      the value returned or the value thrown.  A [throw] keeps every field
      assignment made before it, as in JavaScript.
    - [emit] appends a note to the instance's log; listeners are observers and
      run no code of their own against the instance.
    - [await] of a settled promise is the sequential continuation: a rejected
      promise is a [Throw].
    - The modules imported by the four files but not part of them (the file
      tree, the platform [URL], the crypto helpers, the blossom client, [mime],
      [nanoid]) are the fields of the interfaces [FileTree], [Collaborators]
      and, for the retrieval of files, [Retrieval]. *)

From Stdlib Require Import ZArith QArith Qcanon.
From Stdlib Require DecimalString.
From stdpp Require Import gmap strings list fin_maps.

Local Open Scope string_scope.
Local Open Scope list_scope.
Local Open Scope Z_scope.

(** ** JavaScript values shared by every module *)

(** What a [throw] carries: an instance of [Error] (or of a subclass, named by
    [name]), or any other value. *)
Inductive Thrown : Type :=
  | JsError (name message : string)
  | NonError (value : string).

(** [error instanceof Error] *)
Definition instanceofError (t : Thrown) : bool :=
  match t with
  | JsError _ _ => true
  | NonError _ => false
  end.

Inductive Outcome (A : Type) : Type :=
  | Return (a : A)
  | Throw (t : Thrown).
Arguments Return {A} a.
Arguments Throw {A} t.

Definition bytes : Type := list Byte.byte.

(** A tag is a [string[]]; [t[0]] and [t[1]] are [undefined] past its end. *)
Definition Tag : Type := list string.

(** [t[0] === k] *)
Definition tag_is (k : string) (t : Tag) : bool :=
  match t with
  | h :: _ => String.eqb h k
  | [] => false
  end.

(** [tags.find((t) => t[0] === k)?.[1]] *)
Definition tag_value (k : string) (tags : list Tag) : option string :=
  match List.find (tag_is k) tags with
  | Some t => t !! 1%nat
  | None => None
  end.

(** Truthiness of a [string | undefined]. *)
Definition truthy (s : option string) : bool :=
  match s with
  | Some v => negb (String.eqb v "")
  | None => false
  end.

(** [s.endsWith(suffix)] *)
Definition endsWith (s suffix : string) : bool :=
  let n := String.length s in
  let k := String.length suffix in
  (k <=? n)%nat && String.eqb (String.substring (n - k) k s) suffix.

(** [list.map(f)] where [f] may throw: the first throw ends the map. *)
Fixpoint mapM {A B : Type} (f : A -> Outcome B) (l : list A) : Outcome (list B) :=
  match l with
  | [] => Return []
  | x :: l' =>
      match f x with
      | Throw t => Throw t
      | Return y =>
          match mapM f l' with
          | Throw t => Throw t
          | Return ys => Return (y :: ys)
          end
      end
  end.

(** [for (const x of xs) await step(x)]: a throw ends the loop and keeps
    the state reached. *)
Definition for_each {A S : Type} (step : A -> S -> S * Outcome unit)
  : list A -> S -> S * Outcome unit :=
  fix each (xs : list A) (s : S) {struct xs} : S * Outcome unit :=
    match xs with
    | [] => (s, Return tt)
    | x :: xs' =>
        match step x s with
        | (s, Throw t) => (s, Throw t)
        | (s, Return _) => each xs' s
        end
    end.

Module Nostr.

(** [EventTemplate | SignedEvent]: a signed event carries a [pubkey], a
    template does not. *)
Record Event : Type := {
  kind : Z;
  content : string;
  created_at : Z;
  tags : list Tag;
  pubkey : option string;
}.

Definition Signer : Type := Event -> Outcome Event.
Definition Publisher : Type := Event -> Outcome unit.

End Nostr.

(** ** The interfaces of the modules outside the four files *)

Definition Path : Type := string.

(** [FileMetadata] of [./FileTree/TreeFile.js] as [Upload.upload] builds it. *)
Module FileMetadata.
Record t : Type := {
  sha256 : string;
  size : Z;
  type : string;
}.
End FileMetadata.

(** [./FileTree/TreeFolder.js], [./FileTree/methods.js] and [./nostr.js].
    The tree is mutated in place: an operation gives back the tree it leaves
    behind, also when it throws. *)
Class FileTree : Type := {
  TreeFolder : Type;
  TreeFile : Type;
  (** [new TreeFolder(name)] *)
  newTreeFolder : string -> TreeFolder;
  createTreeFromTags : list Tag -> Outcome TreeFolder;
  updateTreeInTags : list Tag -> TreeFolder -> list Tag;
  tree_getFolder : TreeFolder -> Path -> bool -> TreeFolder * Outcome TreeFolder;
  tree_setFile : TreeFolder -> Path -> FileMetadata.t -> TreeFolder * Outcome TreeFile;
  tree_remove : TreeFolder -> Path -> TreeFolder * Outcome unit;
  tree_move : TreeFolder -> Path -> Path -> TreeFolder * Outcome unit;
  joinPath : string -> string -> string;
}.

(** [File] of the platform, as far as the four files read it. *)
Record File : Type := {
  file_name : string;
  file_type : string;
  webkitRelativePath : string;
  file_bits : bytes;
}.

(** [BlobDescriptor] of blossom-client-sdk; [type] may be missing. *)
Record BlobDescriptor : Type := {
  blob_sha256 : string;
  blob_size : Z;
  blob_type : option string;
}.

(** The platform and the libraries: [URL], [@scure/base], [./crypto.js],
    [TextEncoder]/[TextDecoder] with [JSON], [parseInt]/[String],
    blossom-client-sdk, [mime] and [nanoid]. *)
Class Collaborators : Type := {
  (** [new URL("/", base).toString()]; [None] when [base] is not a URL and the
      constructor throws its [TypeError]. *)
  url_root : string -> option string;
  base64_decode : string -> Outcome bytes;
  base64_encode : bytes -> string;
  decrypt : bytes -> string -> Outcome bytes;
  encrypt : bytes -> string -> Z -> Outcome bytes;
  (** [JSON.parse(decoder.decode(data))] *)
  parse_tags : bytes -> Outcome (list Tag);
  (** [encoder.encode(JSON.stringify(tags))] *)
  stringify_tags : list Tag -> bytes;
  (** [parseInt(s)]; [None] is [NaN]. *)
  parseInt : string -> option Z;
  (** [String(n)] *)
  String_of : Z -> string;
  Token : Type;
  createUploadAuth : Nostr.Signer -> File -> string -> Outcome Token;
  uploadBlob : string -> File -> Token -> Outcome BlobDescriptor;
  (** [mime.getType(name)]; [None] is [null]. *)
  mime_getType : string -> option string;
  (** the [n]-th identifier the random generator hands out *)
  nanoid : nat -> string;
}.

Definition invalid_url : Thrown := JsError "TypeError" "Invalid URL".

(** [new URL("/", s).toString()] as a computation that may throw. *)
Definition new_URL_root `{Collaborators} (s : string) : Outcome string :=
  match url_root s with
  | Some u => Return u
  | None => Throw invalid_url
  end.

(** What [getFile], [getFileURL] and [downloadFile] use beyond the two
    interfaces above: the read side of [./FileTree/methods.js], the fields of
    a [TreeFile], [mime.getExtension], [URL] with a path, the [type] a
    constructed [File] reports, and the two downloads of blossom-client-sdk
    (each with the reading of the response body). *)
Class Retrieval `{FileTree} : Type := {
  tree_getFile : TreeFolder -> Path -> TreeFolder * Outcome TreeFile;
  treefile_name : TreeFile -> string;
  treefile_sha256 : TreeFile -> string;
  (** [file.type]; the empty string when it is missing *)
  treefile_type : TreeFile -> string;
  (** [extname(name)]; [None] is [undefined] or [null]. *)
  extname : string -> option string;
  (** [mime.getExtension(type)]; [None] is [null]. *)
  mime_getExtension : string -> option string;
  (** [new URL(path, base).toString()], [base] possibly [undefined];
      [None] when the constructor throws its [TypeError]. *)
  url_resolve : string -> option string -> option string;
  (** the [type] of [new File(bits, name, { type })] *)
  File_type_of : string -> string;
  (** [(await BlossomClient.downloadBlob(server, sha256)).blob()] *)
  downloadBlob : string -> string -> Outcome bytes;
  (** [BlossomClient.getBlob(server, sha256)] *)
  getBlob : string -> string -> Outcome bytes;
}.

(** [getExtension(type)] of helpers.ts; [None] is [undefined]. *)
Definition getExtension `{Retrieval} (type : option string) : option string :=
  if negb (truthy type) then None
  else
    match mime_getExtension (default "" type) with
    | Some ext => if truthy (Some ext) then Some ("." ++ ext)%string else None
    | None => None
    end.

(** The loop [for (const server of additionalServers)
    if (!servers.includes(server)) servers.push(server)]. *)
Fixpoint merge_servers (servers additionalServers : list string) : list string :=
  match additionalServers with
  | [] => servers
  | server :: rest =>
      merge_servers
        (if existsb (String.eqb server) servers then servers
         else servers ++ [server]) rest
  end.

(** The loop [for (const server of servers) { try { return ... } catch {} }]:
    the first attempt that does not throw, if any. *)
Fixpoint first_success {A : Type} (attempt : string -> Outcome A)
    (servers : list string) : option A :=
  match servers with
  | [] => None
  | server :: rest =>
      match attempt server with
      | Return a => Some a
      | Throw _ => first_success attempt rest
      end
  end.

(** ** Drive.ts *)

Module Drive.

Definition DRIVE_KIND : Z := 30563.

Record DriveMetadata : Type := {
  name : string;
  identifier : string;
  description : string;
  servers : list string;
  pubkey : option string;
  treeTags : list Tag;
}.

Definition getEmptyMetadata : DriveMetadata :=
  {| name := ""; identifier := ""; description := ""; servers := [];
     pubkey := None; treeTags := [] |}.

(** What an instance does to the outside: the notes it emits and the calls
    it makes to its signer and publisher, oldest first. *)
Inductive Effect : Type :=
  | EmitChange
  | EmitUpdate
  | CallSigner (template : Nostr.Event)
  | CallPublisher (signed : Nostr.Event).

Section WithTree.
Context `{FileTree} `{Collaborators}.

Record Drive : Type := {
  tree : TreeFolder;
  event : option Nostr.Event;
  modified : bool;
  _metadata : DriveMetadata;
  signer : Nostr.Signer;
  publisher : Nostr.Publisher;
  log : list Effect;
}.

Definition with_tree (t : TreeFolder) (d : Drive) : Drive :=
  {| tree := t; event := event d; modified := modified d;
     _metadata := _metadata d; signer := signer d;
     publisher := publisher d; log := log d |}.
Definition with_event (e : option Nostr.Event) (d : Drive) : Drive :=
  {| tree := tree d; event := e; modified := modified d;
     _metadata := _metadata d; signer := signer d;
     publisher := publisher d; log := log d |}.
Definition with_modified (b : bool) (d : Drive) : Drive :=
  {| tree := tree d; event := event d; modified := b;
     _metadata := _metadata d; signer := signer d;
     publisher := publisher d; log := log d |}.
Definition with_metadata (m : DriveMetadata) (d : Drive) : Drive :=
  {| tree := tree d; event := event d; modified := modified d;
     _metadata := m; signer := signer d;
     publisher := publisher d; log := log d |}.
(** [this.emit(..)] and the calls to the signer and the publisher *)
Definition emit (x : Effect) (d : Drive) : Drive :=
  {| tree := tree d; event := event d; modified := modified d;
     _metadata := _metadata d; signer := signer d;
     publisher := publisher d; log := log d ++ [x] |}.

(** [constructor(signer, publisher)] *)
Definition new (sg : Nostr.Signer) (pb : Nostr.Publisher) : Drive :=
  {| tree := newTreeFolder ""; event := None; modified := false;
     _metadata := getEmptyMetadata; signer := sg; publisher := pb;
     log := [] |}.

(** The setters of [identifier], [name], [description] and [servers]. *)
Definition set_identifier (v : string) (d : Drive) : Drive :=
  let m := _metadata d in
  emit EmitChange (with_modified true (with_metadata
    {| name := name m; identifier := v; description := description m;
       servers := servers m; pubkey := pubkey m; treeTags := treeTags m |} d)).
Definition set_name (v : string) (d : Drive) : Drive :=
  let m := _metadata d in
  emit EmitChange (with_modified true (with_metadata
    {| name := v; identifier := identifier m; description := description m;
       servers := servers m; pubkey := pubkey m; treeTags := treeTags m |} d)).
Definition set_description (v : string) (d : Drive) : Drive :=
  let m := _metadata d in
  emit EmitChange (with_modified true (with_metadata
    {| name := name m; identifier := identifier m; description := v;
       servers := servers m; pubkey := pubkey m; treeTags := treeTags m |} d)).
Definition set_servers (v : list string) (d : Drive) : Drive :=
  let m := _metadata d in
  emit EmitChange (with_modified true (with_metadata
    {| name := name m; identifier := identifier m; description := description m;
       servers := v; pubkey := pubkey m; treeTags := treeTags m |} d)).

Definition missing_d_tag : Thrown := JsError "Error" "Missing d tag".

(** [(t[0] === "r" || t[0] === "server") && t[1]] *)
Definition is_server_tag (t : Tag) : bool :=
  (tag_is "r" t || tag_is "server" t) && truthy (t !! 1%nat).

(** [t[0] === "x" || t[0] === "folder"] *)
Definition is_tree_tag (t : Tag) : bool :=
  tag_is "x" t || tag_is "folder" t.

(** [t[1]] of a tag that passed [is_server_tag] *)
Definition tag_1 (t : Tag) : string := default "" (t !! 1%nat).

(** [readEvent(event)], reading [this.identifier] of the instance. *)
Definition readEvent (this_identifier : string) (ev : Nostr.Event)
  : Outcome DriveMetadata :=
  let name := default this_identifier (tag_value "name" (Nostr.tags ev)) in
  let description := default "" (tag_value "description" (Nostr.tags ev)) in
  match mapM (fun t => new_URL_root (tag_1 t))
             (List.filter is_server_tag (Nostr.tags ev)) with
  | Throw t => Throw t
  | Return servers =>
      let identifier := tag_value "d" (Nostr.tags ev) in
      if truthy identifier then
        Return {| name := name;
                  identifier := default "" identifier;
                  description := description;
                  servers := servers;
                  pubkey := Nostr.pubkey ev;
                  treeTags := List.filter is_tree_tag (Nostr.tags ev) |}
      else Throw missing_d_tag
  end.

(** [!removeTags.includes(t[0])] *)
Definition kept_tag (t : Tag) : bool :=
  negb (tag_is "name" t || tag_is "description" t || tag_is "d" t
        || tag_is "r" t || tag_is "server" t).

(** [this.event?.tags || []] and [this.event?.content || ""] *)
Definition event_tags (d : Drive) : list Tag :=
  match event d with Some e => Nostr.tags e | None => [] end.
Definition event_content (d : Drive) : string :=
  match event d with Some e => Nostr.content e | None => "" end.

(** The loop [for (const server of this.servers) newTags.unshift(..)]. *)
Fixpoint unshift_servers (srv : list string) (newTags : list Tag)
  : Outcome (list Tag) :=
  match srv with
  | [] => Return newTags
  | s :: srv' =>
      match new_URL_root s with
      | Throw t => Throw t
      | Return u => unshift_servers srv' (["server"; u] :: newTags)
      end
  end.

(** [createEventTemplate()]; [now] is the reading of the clock. *)
Definition createEventTemplate (now : Z) (d : Drive) : Outcome Nostr.Event :=
  let newTags := updateTreeInTags (event_tags d) (tree d) in
  let newTags := List.filter kept_tag newTags in
  match unshift_servers (servers (_metadata d)) newTags with
  | Throw t => Throw t
  | Return newTags =>
      Return {| Nostr.kind := DRIVE_KIND;
                Nostr.content := event_content d;
                Nostr.created_at := now;
                Nostr.tags :=
                  ["name"; name (_metadata d)]
                  :: ["description"; description (_metadata d)]
                  :: ["d"; identifier (_metadata d)] :: newTags;
                Nostr.pubkey := None |}
  end.

(** [resetFromEvent()] *)
Definition resetFromEvent (d : Drive) : Drive * Outcome unit :=
  match event d with
  | None => (d, Return tt)
  | Some ev =>
      match readEvent (identifier (_metadata d)) ev with
      | Throw t => (d, Throw t)
      | Return m =>
          let d := with_metadata m d in
          match createTreeFromTags (treeTags m) with
          | Throw t => (d, Throw t)
          | Return tr =>
              (emit EmitChange (with_modified false (with_tree tr d)),
               Return tt)
          end
      end
  end.

(** [!this.event || event.created_at > this.event.created_at] *)
Definition is_newer (ev : Nostr.Event) (resident : option Nostr.Event) : bool :=
  match resident with
  | None => true
  | Some r => Nostr.created_at r <? Nostr.created_at ev
  end.

(** [update(event)] *)
Definition update (ev : Nostr.Event) (d : Drive) : Drive * Outcome bool :=
  if is_newer ev (event d) then
    match resetFromEvent (with_event (Some ev) d) with
    | (d, Throw t) => (d, Throw t)
    | (d, Return _) => (emit EmitUpdate d, Return true)
    end
  else (d, Return false).

(** [save()]; it resolves to the signed event, or to [undefined] when the
    drive was not modified. *)
Definition save (now : Z) (d : Drive) : Drive * Outcome (option Nostr.Event) :=
  if negb (modified d) then (d, Return None)
  else
    match createEventTemplate now d with
    | Throw t => (d, Throw t)
    | Return template =>
        let d := emit (CallSigner template) d in
        match signer d template with
        | Throw t => (d, Throw t)
        | Return signed =>
            let d := emit (CallPublisher signed) d in
            match publisher d signed with
            | Throw t => (d, Throw t)
            | Return _ =>
                match update signed d with
                | (d, Throw t) => (d, Throw t)
                | (d, Return _) => (d, Return (Some signed))
                end
            end
        end
    end.

(** [reset()] *)
Definition reset (d : Drive) : Drive * Outcome unit :=
  if modified d then
    match resetFromEvent d with
    | (d, Throw t) => (d, Throw t)
    | (d, Return _) => (emit EmitChange (with_modified false d), Return tt)
    end
  else (d, Return tt).

(** [getFolder(path, create)] *)
Definition getFolder (path : Path) (create : bool) (d : Drive)
  : Drive * Outcome TreeFolder :=
  match tree_getFolder (tree d) path create with
  | (tr, Throw t) => (with_tree tr d, Throw t)
  | (tr, Return folder) =>
      let d := with_tree tr d in
      ((if create then with_modified true d else d), Return folder)
  end.

(** [remove(path)] *)
Definition remove (path : Path) (d : Drive) : Drive * Outcome unit :=
  match tree_remove (tree d) path with
  | (tr, Throw t) => (with_tree tr d, Throw t)
  | (tr, Return _) =>
      (emit EmitChange (with_modified true (with_tree tr d)), Return tt)
  end.

(** [move(src, dest)] *)
Definition move (src dest : Path) (d : Drive) : Drive * Outcome unit :=
  match tree_move (tree d) src dest with
  | (tr, Throw t) => (with_tree tr d, Throw t)
  | (tr, Return _) =>
      (emit EmitChange (with_modified true (with_tree tr d)), Return tt)
  end.

(** [setFile(path, metadata)] *)
Definition setFile (path : Path) (metadata : FileMetadata.t) (d : Drive)
  : Drive * Outcome TreeFile :=
  match tree_setFile (tree d) path metadata with
  | (tr, Throw t) => (with_tree tr d, Throw t)
  | (tr, Return file) =>
      (emit EmitChange (with_modified true (with_tree tr d)), Return file)
  end.

End WithTree.

Section WithRetrieval.
Context `{FileTree} `{Collaborators} `{!Retrieval}.

(** [static fromEvent(event, signer, publisher)] *)
Definition fromEvent (ev : Nostr.Event) (sg : Nostr.Signer) (pb : Nostr.Publisher)
  : Outcome Drive :=
  match update ev (new sg pb) with
  | (_, Throw t) => Throw t
  | (drive, Return _) => Return drive
  end.

(** [getFile(path)] *)
Definition getFile (path : Path) (d : Drive) : Drive * Outcome TreeFile :=
  let (tr, r) := tree_getFile (tree d) path in (with_tree tr d, r).

(** [extname(file.name) ?? getExtension(file.type) ?? ""] *)
Definition file_extension (file : TreeFile) : string :=
  match extname (treefile_name file) with
  | Some ext => ext
  | None => default "" (getExtension (Some (treefile_type file)))
  end.

(** [getFileURL(path, additionalServers)] *)
Definition getFileURL (path : Path) (additionalServers : list string) (d : Drive)
  : Drive * Outcome string :=
  match getFile path d with
  | (d, Throw t) => (d, Throw t)
  | (d, Return file) =>
      let servers := merge_servers (servers (_metadata d)) additionalServers in
      match url_resolve ("/" ++ treefile_sha256 file ++ file_extension file)%string
              (head servers) with
      | Some url => (d, Return url)
      | None => (d, Throw invalid_url)
      end
  end.

(** [new File([blob], file.name, { type: file.type })] *)
Definition downloaded (file : TreeFile) (data : bytes) : File :=
  {| file_name := treefile_name file;
     file_type := File_type_of (treefile_type file);
     webkitRelativePath := "";
     file_bits := data |}.

(** [downloadFile(path, additionalServers)]; [None] is [null]. *)
Definition downloadFile (path : Path) (additionalServers : list string) (d : Drive)
  : Drive * Outcome (option File) :=
  match getFile path d with
  | (d, Throw t) => (d, Throw t)
  | (d, Return file) =>
      let servers := merge_servers (servers (_metadata d)) additionalServers in
      (d, Return (option_map (downloaded file)
                    (first_success
                       (fun server => downloadBlob server (treefile_sha256 file))
                       servers)))
  end.

End WithRetrieval.

End Drive.

(** ** EncryptedDrive.ts *)

Module EncryptedDrive.

Definition ENCRYPTED_DRIVE_KIND : Z := 30564.
Definition DEFAULT_SCRYPT_LOGN : Z := 10.

Section WithTree.
Context `{FileTree} `{Collaborators}.

(** An instance of the subclass: the fields of [Drive] in [base], its own
    fields, and its entry in the module's [drivePasswords] weak map
    ([None]: no entry). *)
Record EncryptedDrive : Type := {
  base : Drive.Drive;
  logn : Z;
  locked : bool;
  password : option string;
}.

Definition with_base (b : Drive.Drive) (d : EncryptedDrive) : EncryptedDrive :=
  {| base := b; logn := logn d; locked := locked d; password := password d |}.
Definition with_logn (n : Z) (d : EncryptedDrive) : EncryptedDrive :=
  {| base := base d; logn := n; locked := locked d; password := password d |}.
Definition with_locked (b : bool) (d : EncryptedDrive) : EncryptedDrive :=
  {| base := base d; logn := logn d; locked := b; password := password d |}.
(** [drivePasswords.set(this, p)] and [drivePasswords.delete(this)] *)
Definition with_password (p : option string) (d : EncryptedDrive) : EncryptedDrive :=
  {| base := base d; logn := logn d; locked := locked d; password := p |}.

Definition new (sg : Nostr.Signer) (pb : Nostr.Publisher) : EncryptedDrive :=
  {| base := Drive.new sg pb; logn := DEFAULT_SCRYPT_LOGN; locked := true;
     password := None |}.

Definition no_password_provided : Thrown := JsError "Error" "No password provided".
Definition no_password_set : Thrown := JsError "Error" "No password set".
Definition no_event : Thrown := JsError "Error" "No Event".
Definition already_unlocked : Thrown := JsError "Error" "Already unlocked".
Definition drive_locked : Thrown := JsError "Error" "Drive locked".

(** [readEvent(event)] of the subclass *)
Definition readEvent (ev : Nostr.Event) (d : EncryptedDrive)
  : EncryptedDrive * Outcome Drive.DriveMetadata :=
  if negb (truthy (password d)) then (d, Throw no_password_provided)
  else
    let pw := default "" (password d) in
    match base64_decode (Nostr.content ev) with
    | Throw t => (d, Throw t)
    | Return ciphertext =>
        match decrypt ciphertext pw with
        | Throw t => (d, Throw t)
        | Return data =>
            match parse_tags data with
            | Throw t => (d, Throw t)
            | Return tags =>
                let d := with_locked false d in
                (d, Drive.readEvent
                      (Drive.identifier (Drive._metadata (base d)))
                      {| Nostr.kind := Nostr.kind ev;
                         Nostr.content := "";
                         Nostr.created_at := 0;
                         Nostr.tags := tags;
                         Nostr.pubkey := Nostr.pubkey ev |})
            end
        end
    end.

(** [resetFromEvent()], inherited: its [this.readEvent] is the subclass's. *)
Definition resetFromEvent (d : EncryptedDrive) : EncryptedDrive * Outcome unit :=
  match Drive.event (base d) with
  | None => (d, Return tt)
  | Some ev =>
      match readEvent ev d with
      | (d, Throw t) => (d, Throw t)
      | (d, Return m) =>
          let d := with_base (Drive.with_metadata m (base d)) d in
          match createTreeFromTags (Drive.treeTags m) with
          | Throw t => (d, Throw t)
          | Return tr =>
              (with_base
                 (Drive.emit Drive.EmitChange
                    (Drive.with_modified false (Drive.with_tree tr (base d)))) d,
               Return tt)
          end
      end
  end.

(** [unlock(password)] *)
Definition unlock (pw : string) (d : EncryptedDrive) : EncryptedDrive * Outcome unit :=
  match Drive.event (base d) with
  | None => (d, Throw no_event)
  | Some _ =>
      if negb (locked d) then (d, Throw already_unlocked)
      else
        match resetFromEvent (with_locked false (with_password (Some pw) d)) with
        | (d, Return _) => (d, Return tt)
        | (d, Throw e) => (with_locked true (with_password None d), Throw e)
        end
  end.

(** [lock()] *)
Definition lock (d : EncryptedDrive) : EncryptedDrive :=
  if negb (locked d) then
    let d := with_password None d in
    let d := with_locked false d in
    let d := with_base (Drive.with_metadata Drive.getEmptyMetadata (base d)) d in
    with_base (Drive.with_tree (newTreeFolder "") (base d)) d
  else d.

(** [setPassword(password, logn)] *)
Definition setPassword (pw : string) (n : Z) (d : EncryptedDrive) : EncryptedDrive :=
  if locked d && negb (bool_decide (is_Some (password d))) then
    with_logn n (with_password (Some pw) d)
  else d.

(** [createEventTemplate()] of the subclass *)
Definition createEventTemplate (now : Z) (d : EncryptedDrive) : Outcome Nostr.Event :=
  if negb (truthy (password d)) then Throw no_password_set
  else
    let pw := default "" (password d) in
    match Drive.createEventTemplate now (base d) with
    | Throw t => Throw t
    | Return template =>
        match encrypt (stringify_tags (Nostr.tags template)) pw (logn d) with
        | Throw t => Throw t
        | Return data =>
            Return {| Nostr.kind := ENCRYPTED_DRIVE_KIND;
                      Nostr.content := base64_encode data;
                      Nostr.created_at := Nostr.created_at template;
                      Nostr.tags :=
                        List.filter (tag_is "d") (Nostr.tags template)
                        ++ [["scrypt-logn"; String_of (logn d)]];
                      Nostr.pubkey := None |}
        end
    end.

(** [Number.isFinite(logn) && logn > 0 && logn <= 22 ? logn : DEFAULT] *)
Definition read_logn (tags : list Tag) : Z :=
  match parseInt (default "" (tag_value "scrypt-logn" tags)) with
  | Some n => if (0 <? n) && (n <=? 22) then n else DEFAULT_SCRYPT_LOGN
  | None => DEFAULT_SCRYPT_LOGN
  end.

(** [update(event)] of the subclass; [super.update] runs the inherited
    body against the subclass's [resetFromEvent]. *)
Definition update (ev : Nostr.Event) (d : EncryptedDrive)
  : EncryptedDrive * Outcome bool :=
  if negb (locked d) then
    if Drive.is_newer ev (Drive.event (base d)) then
      match resetFromEvent (with_base (Drive.with_event (Some ev) (base d)) d) with
      | (d, Throw t) => (d, Throw t)
      | (d, Return _) =>
          (with_base (Drive.emit Drive.EmitUpdate (base d)) d, Return true)
      end
    else (d, Return false)
  else if Drive.is_newer ev (Drive.event (base d)) then
    let b := Drive.with_event (Some ev) (base d) in
    let m := Drive._metadata b in
    let m :=
      {| Drive.name := Drive.name m;
         Drive.identifier := default "" (tag_value "d" (Nostr.tags ev));
         Drive.description := Drive.description m;
         Drive.servers := Drive.servers m;
         Drive.pubkey :=
           match Nostr.pubkey ev with
           | Some p => Some p
           | None => Drive.pubkey m
           end;
         Drive.treeTags := Drive.treeTags m |} in
    (with_logn (read_logn (Nostr.tags ev)) (with_base (Drive.with_metadata m b) d),
     Return true)
  else (d, Return false).

(** [save()], inherited: template and update are the subclass's. *)
Definition save (now : Z) (d : EncryptedDrive)
  : EncryptedDrive * Outcome (option Nostr.Event) :=
  if negb (Drive.modified (base d)) then (d, Return None)
  else
    match createEventTemplate now d with
    | Throw t => (d, Throw t)
    | Return template =>
        let d := with_base (Drive.emit (Drive.CallSigner template) (base d)) d in
        match Drive.signer (base d) template with
        | Throw t => (d, Throw t)
        | Return signed =>
            let d := with_base (Drive.emit (Drive.CallPublisher signed) (base d)) d in
            match Drive.publisher (base d) signed with
            | Throw t => (d, Throw t)
            | Return _ =>
                match update signed d with
                | (d, Throw t) => (d, Throw t)
                | (d, Return _) => (d, Return (Some signed))
                end
            end
        end
    end.

(** [setFile(path, metadata)], inherited *)
Definition setFile (path : Path) (metadata : FileMetadata.t) (d : EncryptedDrive)
  : EncryptedDrive * Outcome TreeFile :=
  let (b, r) := Drive.setFile path metadata (base d) in (with_base b d, r).

(** [encryptBlob(blob)]: the bytes of the resulting
    [application/octet-stream] blob. *)
Definition encryptBlob (blob : File) (d : EncryptedDrive) : Outcome bytes :=
  if locked d then Throw drive_locked
  else if negb (truthy (password d)) then Throw no_password_provided
  else encrypt (file_bits blob) (default "" (password d)) (logn d).

End WithTree.

Section WithRetrieval.
Context `{FileTree} `{Collaborators} `{!Retrieval}.

(** [decryptBlob(blob, type)]: the bytes of the resulting blob. *)
Definition decryptBlob (blob : bytes) (d : EncryptedDrive) : Outcome bytes :=
  if locked d then Throw drive_locked
  else if negb (truthy (password d)) then Throw no_password_provided
  else decrypt blob (default "" (password d)).

(** [getFile(path)], inherited *)
Definition getFile (path : Path) (d : EncryptedDrive)
  : EncryptedDrive * Outcome TreeFile :=
  let (b, r) := Drive.getFile path (base d) in (with_base b d, r).

(** One turn of the server loop of [downloadFile]: fetch, then decrypt. *)
Definition fetch_and_decrypt (d : EncryptedDrive) (sha256 : string)
    (server : string) : Outcome bytes :=
  match getBlob server sha256 with
  | Throw t => Throw t
  | Return data => decryptBlob data d
  end.

(** [downloadFile(path, additionalServers)] of the subclass *)
Definition downloadFile (path : Path) (additionalServers : list string)
    (d : EncryptedDrive) : EncryptedDrive * Outcome (option File) :=
  if locked d then (d, Throw drive_locked)
  else if negb (truthy (password d)) then (d, Throw no_password_provided)
  else
    match getFile path d with
    | (d, Throw t) => (d, Throw t)
    | (d, Return file) =>
        let servers :=
          merge_servers (Drive.servers (Drive._metadata (base d)))
            additionalServers in
        (d, Return (option_map (Drive.downloaded file)
                      (first_success
                         (fetch_and_decrypt d (treefile_sha256 file)) servers)))
    end.

End WithRetrieval.

End EncryptedDrive.

(** ** helpers.ts *)

(** [correctFileMimeType(file)]; the [File] it constructs has the name and
    the bits of the original and no relative path. *)
Definition correctFileMimeType (file : File) : File :=
  if String.eqb (file_type file) "audio/x-mpegurl"
     && endsWith (file_name file) ".m3u8"
  then {| file_name := file_name file;
          file_type := "application/vnd.apple.mpegurl";
          webkitRelativePath := "";
          file_bits := file_bits file |}
  else file.

(** [FileSystemEntry] of the platform.  A file entry carries what its
    [file()] callback delivers, a directory entry what the first
    [readEntries()] of a fresh reader delivers. *)
#[local] Set Warnings "-register-all".
Inductive FileSystemEntry : Type :=
  | FileSystemFileEntry (fullPath : string) (isFile : bool)
      (read : Outcome File)
  | FileSystemDirectoryEntry (fullPath : string) (isDirectory : bool)
      (read : Outcome (list FileSystemEntry))
  | OtherEntry (fullPath : string).

(** ** Numbers of JavaScript, as far as [progress] computes them

    Exact rationals stand for the doubles: every value here is a sum of
    ratios of collection sizes.  Division by zero gives [NaN] or
    [Infinity], as in JavaScript. *)
Inductive JsNum : Type :=
  | Num (q : Qc)
  | Infinity
  | NaN.

Definition Qc_of_nat (n : nat) : Qc := Qc_of_Z (Z.of_nat n).

(** [a / b] for two lengths *)
Definition js_ratio (a b : nat) : JsNum :=
  match b, a with
  | O, O => NaN
  | O, S _ => Infinity
  | S _, _ => Num (Qc_of_nat a / Qc_of_nat b)%Qc
  end.

(** [v + t] *)
Definition js_add (v t : JsNum) : JsNum :=
  match v, t with
  | NaN, _ | _, NaN => NaN
  | Infinity, _ | _, Infinity => Infinity
  | Num a, Num b => Num (a + b)%Qc
  end.

(** [x / n] for a non-negative [x] and a length [n] *)
Definition js_div (x : JsNum) (n : nat) : JsNum :=
  match x, n with
  | NaN, _ => NaN
  | Infinity, _ => Infinity
  | Num q, O => if decide (q = 0%Qc) then NaN else Infinity
  | Num q, S _ => Num (q / Qc_of_nat n)%Qc
  end.


(** ** Upload.ts *)

Module Upload.

Section WithTree.
Context `{FileTree} `{Collaborators}.

Inductive UploadResult : Type :=
  | Success (blob : BlobDescriptor)
  | Failure (error : Thrown).

Record UploadFileStatus : Type := {
  complete : bool;
  pending : bool;
  serversComplete : nat;
  results : gmap string UploadResult;
}.

Record UploadEntry : Type := {
  id : string;
  file : File;
  path : string;
}.

(** [Drive | EncryptedDrive] *)
Inductive AnyDrive : Type :=
  | Plain (d : Drive.Drive)
  | Encrypted (d : EncryptedDrive.EncryptedDrive).

Inductive Note : Type :=
  | NoteStart
  | NoteProgress (p : JsNum)
  | NoteComplete.

(** The fields of an [Upload]; [batch_complete] is its [complete],
    [emitted] the notes it has emitted, oldest first, and [drawn] the
    number of identifiers it has drawn from [nanoid]. *)
Record Upload : Type := {
  drive : AnyDrive;
  servers : list string;
  signer : Nostr.Signer;
  basePath : string;
  batch_complete : bool;
  running : bool;
  files : list UploadEntry;
  status : gmap string UploadFileStatus;
  blobs : gmap string (gmap string BlobDescriptor);
  errors : gmap string (gmap string Thrown);
  emitted : list Note;
  drawn : nat;
}.

(** [constructor(drive, basePath, servers, signer)] *)
Definition new (dr : AnyDrive) (bp : string) (srv : list string)
    (sg : Nostr.Signer) : Upload :=
  {| drive := dr; servers := srv; signer := sg; basePath := bp;
     batch_complete := false; running := false; files := [];
     status := ∅; blobs := ∅; errors := ∅; emitted := []; drawn := 0 |}.

Definition with_drive (x : AnyDrive) (u : Upload) : Upload :=
  {| drive := x; servers := servers u; signer := signer u;
     basePath := basePath u; batch_complete := batch_complete u;
     running := running u; files := files u; status := status u;
     blobs := blobs u; errors := errors u; emitted := emitted u;
     drawn := drawn u |}.
Definition with_complete (x : bool) (u : Upload) : Upload :=
  {| drive := drive u; servers := servers u; signer := signer u;
     basePath := basePath u; batch_complete := x;
     running := running u; files := files u; status := status u;
     blobs := blobs u; errors := errors u; emitted := emitted u;
     drawn := drawn u |}.
Definition with_running (x : bool) (u : Upload) : Upload :=
  {| drive := drive u; servers := servers u; signer := signer u;
     basePath := basePath u; batch_complete := batch_complete u;
     running := x; files := files u; status := status u;
     blobs := blobs u; errors := errors u; emitted := emitted u;
     drawn := drawn u |}.
Definition with_status (x : gmap string UploadFileStatus) (u : Upload) : Upload :=
  {| drive := drive u; servers := servers u; signer := signer u;
     basePath := basePath u; batch_complete := batch_complete u;
     running := running u; files := files u; status := x;
     blobs := blobs u; errors := errors u; emitted := emitted u;
     drawn := drawn u |}.
Definition with_blobs (x : gmap string (gmap string BlobDescriptor)) (u : Upload) : Upload :=
  {| drive := drive u; servers := servers u; signer := signer u;
     basePath := basePath u; batch_complete := batch_complete u;
     running := running u; files := files u; status := status u;
     blobs := x; errors := errors u; emitted := emitted u;
     drawn := drawn u |}.
Definition with_errors (x : gmap string (gmap string Thrown)) (u : Upload) : Upload :=
  {| drive := drive u; servers := servers u; signer := signer u;
     basePath := basePath u; batch_complete := batch_complete u;
     running := running u; files := files u; status := status u;
     blobs := blobs u; errors := x; emitted := emitted u;
     drawn := drawn u |}.
(** [this.files.push({ id: nanoid(), file, path })] *)
Definition push_file (f : File) (p : string) (u : Upload) : Upload :=
  {| drive := drive u; servers := servers u; signer := signer u;
     basePath := basePath u; batch_complete := batch_complete u;
     running := running u;
     files := files u ++ [{| id := nanoid (drawn u); file := f; path := p |}];
     status := status u; blobs := blobs u; errors := errors u;
     emitted := emitted u; drawn := S (drawn u) |}.
Definition emit (n : Note) (u : Upload) : Upload :=
  {| drive := drive u; servers := servers u; signer := signer u;
     basePath := basePath u; batch_complete := batch_complete u;
     running := running u; files := files u; status := status u;
     blobs := blobs u; errors := errors u; emitted := emitted u ++ [n];
     drawn := drawn u |}.

(** [m[server] ? Object.keys(m[server]).length : 0] *)
Definition count_keys {A : Type} (m : gmap string (gmap string A))
    (server : string) : nat :=
  match m !! server with
  | Some inner => size inner
  | None => 0%nat
  end.

(** [(blobs + errors) / this.files.length] for one server *)
Definition server_progress (u : Upload) (server : string) : JsNum :=
  js_ratio (count_keys (blobs u) server + count_keys (errors u) server)
           (length (files u)).

(** The record [serverProgress] the getter fills, one key per server. *)
Definition serverProgress (u : Upload) : gmap string JsNum :=
  fold_left (fun sp server => <[server := server_progress u server]> sp)
            (servers u) ∅.

(** [get progress()] *)
Definition progress (u : Upload) : JsNum :=
  js_div (map_fold (fun _ v t => js_add v t) (Num 0%Qc) (serverProgress u))
         (length (servers u)).

(** [path || (file.webkitRelativePath ? file.webkitRelativePath : file.name)] *)
Definition default_path (f : File) (p : option string) : string :=
  if truthy p then default "" p
  else if negb (String.eqb (webkitRelativePath f) "") then webkitRelativePath f
  else file_name f.

(** [addFile(file, path?)] *)
Definition addFile (f : File) (p : option string) (u : Upload) : Upload :=
  let p := default_path f p in
  let f := correctFileMimeType f in
  push_file f p u.

(** [addFileList(fileList)] *)
Definition addFileList (fileList : list File) (u : Upload) : Upload :=
  fold_left (fun u f => addFile f None u) fileList u.

(** [addFileSystemEntry(entry)]: a file that cannot be read is logged
    and skipped, a directory that cannot be listed rejects the call. *)
Fixpoint addFileSystemEntry (entry : FileSystemEntry) (u : Upload)
  : Upload * Outcome unit :=
  match entry with
  | FileSystemFileEntry fullPath isFile read =>
      if isFile then
        match read with
        | Return f => (push_file (correctFileMimeType f) fullPath u, Return tt)
        | Throw _ => (u, Return tt)
        end
      else (u, Return tt)
  | FileSystemDirectoryEntry _ isDirectory read =>
      if isDirectory then
        match read with
        | Throw t => (u, Throw t)
        | Return entries => for_each addFileSystemEntry entries u
        end
      else (u, Return tt)
  | OtherEntry _ => (u, Return tt)
  end.

(** [this.status[id]] as the object the loop holds on to. *)
Definition alter_status (f : UploadFileStatus -> UploadFileStatus)
    (i : string) (u : Upload) : Upload :=
  with_status (alter f i (status u)) u.

Definition initial_status : UploadFileStatus :=
  {| complete := false; pending := true; serversComplete := 0;
     results := ∅ |}.
Definition set_pending (b : bool) (s : UploadFileStatus) : UploadFileStatus :=
  {| complete := complete s; pending := b;
     serversComplete := serversComplete s; results := results s |}.
Definition set_complete (b : bool) (s : UploadFileStatus) : UploadFileStatus :=
  {| complete := b; pending := pending s;
     serversComplete := serversComplete s; results := results s |}.
Definition incr_serversComplete (s : UploadFileStatus) : UploadFileStatus :=
  {| complete := complete s; pending := pending s;
     serversComplete := S (serversComplete s); results := results s |}.
Definition set_result (server : string) (r : UploadResult)
    (s : UploadFileStatus) : UploadFileStatus :=
  {| complete := complete s; pending := pending s;
     serversComplete := serversComplete s;
     results := <[server := r]> (results s) |}.

(** [if (!m[server]) m[server] = {}] *)
Definition ensure {A : Type} (server : string)
    (m : gmap string (gmap string A)) : gmap string (gmap string A) :=
  match m !! server with
  | Some _ => m
  | None => <[server := ∅]> m
  end.

(** [m[server][id] = v] *)
Definition set_at {A : Type} (server i : string) (v : A)
    (m : gmap string (gmap string A)) : gmap string (gmap string A) :=
  <[server := <[i := v]> (default ∅ (m !! server))]> m.

(** [a || b] on strings *)
Definition or_else (a : option string) (b : string) : string :=
  if truthy a then default "" a else b.

(** The metadata handed to [setFile] after a successful upload. *)
Definition uploaded_metadata (up : UploadEntry) (blob : BlobDescriptor)
  : FileMetadata.t :=
  {| FileMetadata.sha256 := blob_sha256 blob;
     FileMetadata.size := blob_size blob;
     FileMetadata.type :=
       or_else (Some (file_type (file up)))
         (or_else (mime_getType (file_name (file up)))
            (or_else (blob_type blob) "")) |}.

(** [this.drive.setFile(path, metadata)] *)
Definition drive_setFile (p : Path) (m : FileMetadata.t) (dr : AnyDrive)
  : AnyDrive * Outcome TreeFile :=
  match dr with
  | Plain d => let (d, r) := Drive.setFile p m d in (Plain d, r)
  | Encrypted d => let (d, r) := EncryptedDrive.setFile p m d in (Encrypted d, r)
  end.

(** [this.drive.save()] *)
Definition drive_save (now : Z) (dr : AnyDrive)
  : AnyDrive * Outcome (option Nostr.Event) :=
  match dr with
  | Plain d => let (d, r) := Drive.save now d in (Plain d, r)
  | Encrypted d => let (d, r) := EncryptedDrive.save now d in (Encrypted d, r)
  end.

(** The [catch (error)] block of the server loop. *)
Definition catch_upload (up : UploadEntry) (server : string) (error : Thrown)
    (u : Upload) : Upload :=
  if instanceofError error then
    alter_status (set_result server (Failure error)) (id up)
      (with_errors (set_at server (id up) error (errors u)) u)
  else u.

(** One turn of [for (const server of this.servers)]. *)
Definition upload_to_server (up : UploadEntry) (_file : File) (token : Token)
    (u : Upload) (server : string) : Upload :=
  let u := with_blobs (ensure server (blobs u)) u in
  let u := with_errors (ensure server (errors u)) u in
  let u :=
    match uploadBlob server _file token with
    | Throw error => catch_upload up server error u
    | Return blob =>
        let u := with_blobs (set_at server (id up) blob (blobs u)) u in
        let u := alter_status (set_result server (Success blob)) (id up) u in
        match drive_setFile (joinPath (basePath u) (path up))
                (uploaded_metadata up blob) (drive u) with
        | (dr, Return _) => with_drive dr u
        | (dr, Throw error) => catch_upload up server error (with_drive dr u)
        end
    end in
  let u := alter_status incr_serversComplete (id up) u in
  emit (NoteProgress (progress u)) u.

(** The file as it goes over the wire: encrypted for an encrypted drive. *)
Definition wire_file (dr : AnyDrive) (f : File) : Outcome File :=
  match dr with
  | Plain _ => Return f
  | Encrypted d =>
      match EncryptedDrive.encryptBlob f d with
      | Throw t => Throw t
      | Return data =>
          Return {| file_name := "encrypted.bin";
                    file_type := "application/octet-stream";
                    webkitRelativePath := "";
                    file_bits := data |}
      end
  end.

Definition status_undefined : Thrown :=
  JsError "TypeError" "Cannot set properties of undefined".

(** One turn of the second [for (const upload of this.files)]. *)
Definition upload_file (u : Upload) (up : UploadEntry) : Upload * Outcome unit :=
  match status u !! id up with
  | None => (u, Throw status_undefined)
  | Some _ =>
      let u := alter_status (set_pending false) (id up) u in
      let u := emit (NoteProgress (progress u)) u in
      match wire_file (drive u) (file up) with
      | Throw t => (u, Throw t)
      | Return _file =>
          match createUploadAuth (signer u) _file
                  ("Upload " ++ file_name _file)%string with
          | Throw t => (u, Throw t)
          | Return token =>
              let u := fold_left (upload_to_server up _file token) (servers u) u in
              let u := alter_status (set_complete true) (id up) u in
              (emit (NoteProgress (progress u)) u, Return tt)
          end
      end
  end.

Definition upload_files (ups : list UploadEntry) (u : Upload)
  : Upload * Outcome unit :=
  for_each (fun up u => upload_file u up) ups u.

(** The first [for (const upload of this.files)]. *)
Definition init_status (u : Upload) : Upload :=
  with_status
    (fold_left (fun st up => <[id up := initial_status]> st) (files u) (status u)) u.

(** [upload()]; [now] is the clock reading of the final [save()]. *)
Definition upload (now : Z) (u : Upload) : Upload * Outcome unit :=
  if running u || batch_complete u then (u, Return tt)
  else
    let u := emit NoteStart (with_running true u) in
    let u := init_status u in
    match upload_files (files u) u with
    | (u, Throw t) => (u, Throw t)
    | (u, Return _) =>
        match drive_save now (drive u) with
        | (dr, Throw t) => (with_drive dr u, Throw t)
        | (dr, Return _) =>
            (emit NoteComplete (with_complete true (with_drive dr u)), Return tt)
        end
    end.

End WithTree.

End Upload.

(** ** A small platform for the examples

    One instance of each interface, simple enough to run: the tree is the
    list of its own tags, the cipher prefixes the password, the network
    has one server that is down and one that rejects with a bare string. *)

Module Sample.

Definition has_path (p : Path) (t : Tag) : bool :=
  String.eqb (default "" (t !! 1%nat)) p.

Definition missing_path : Thrown := JsError "Error" "Missing".

Definition remove_path (tr : list Tag) (p : Path) : list Tag * Outcome unit :=
  if existsb (has_path p) tr
  then (List.filter (fun t => negb (has_path p t)) tr, Return tt)
  else (tr, Throw missing_path).

Definition move_path (tr : list Tag) (src dest : Path) : list Tag * Outcome unit :=
  match List.find (has_path src) tr with
  | Some (h :: _ :: rest) =>
      ((List.filter (fun t => negb (has_path src t)) tr ++ [h :: dest :: rest])%list,
       Return tt)
  | _ => (tr, Throw missing_path)
  end.

#[local] Instance tree : FileTree := {|
  TreeFolder := list Tag;
  TreeFile := Tag;
  newTreeFolder := fun _ => [];
  createTreeFromTags := fun tags => Return tags;
  updateTreeInTags := fun tags tr =>
    (List.filter (fun t => negb (Drive.is_tree_tag t)) tags ++ tr)%list;
  tree_getFolder := fun tr p create =>
    if existsb (has_path p) tr then (tr, Return [["folder"; p]])
    else if create then ((tr ++ [["folder"; p]])%list, Return [["folder"; p]])
    else (tr, Throw missing_path);
  tree_setFile := fun tr p m =>
    let t := ["x"; p; FileMetadata.sha256 m; FileMetadata.type m] in
    ((List.filter (fun t => negb (has_path p t)) tr ++ [t])%list, Return t);
  tree_remove := remove_path;
  tree_move := move_path;
  joinPath := fun a b => (a ++ "/" ++ b)%string;
|}.

(** The origin of an [http(s)://host/...] address, with a final slash. *)
Definition origin_root (s : string) : option string :=
  let after (scheme : string) :=
    let rest := String.substring (String.length scheme)
                  (String.length s - String.length scheme) s in
    let host :=
      match String.index 0 "/" rest with
      | Some i => String.substring 0 i rest
      | None => rest
      end in
    if String.eqb host "" then None else Some (scheme ++ host ++ "/")%string in
  if String.prefix "https://" s then after "https://"
  else if String.prefix "http://" s then after "http://"
  else None.

Definition bad_decrypt : Thrown := JsError "Error" "invalid tag".
Definition network_down : Thrown := JsError "Error" "fetch failed".

Fixpoint strip_prefix (p l : bytes) : option bytes :=
  match p, l with
  | [], _ => Some l
  | a :: p', b :: l' => if Byte.eqb a b then strip_prefix p' l' else None
  | _ :: _, [] => None
  end.

Definition seal (plaintext : bytes) (pw : string) : bytes :=
  (String.list_byte_of_string pw ++ String.list_byte_of_string ":" ++ plaintext)%list.

Definition unseal (ciphertext : bytes) (pw : string) : Outcome bytes :=
  match strip_prefix (String.list_byte_of_string (pw ++ ":")%string) ciphertext with
  | Some plaintext => Return plaintext
  | None => Throw bad_decrypt
  end.

Definition newline : Ascii.ascii := Ascii.ascii_of_nat 10.
Definition comma : Ascii.ascii := Ascii.ascii_of_nat 44.

(** One tag per line, its fields separated by commas. *)
Fixpoint split_on (sep : Ascii.ascii) (s : string) : list string :=
  match s with
  | EmptyString => [""]
  | String c s' =>
      match split_on sep s' with
      | w :: ws => if Ascii.eqb c sep then "" :: w :: ws else String c w :: ws
      | [] => [String c ""]
      end
  end.

Definition lines_to_tags (data : bytes) : list Tag :=
  List.map (split_on comma) (split_on newline (String.string_of_list_byte data)).

Definition tags_to_lines (tags : list Tag) : bytes :=
  String.list_byte_of_string (String.concat (String newline "") (List.map (String.concat ",") tags)).

Definition digits (s : string) : option Z :=
  match DecimalString.NilEmpty.uint_of_string s with
  | Some u => Some (Z.of_nat (Nat.of_uint u))
  | None => None
  end.

(** A signer that stamps the key of its owner on the template. *)
Definition alice : Nostr.Signer := fun template =>
  Return {| Nostr.kind := Nostr.kind template;
            Nostr.content := Nostr.content template;
            Nostr.created_at := Nostr.created_at template;
            Nostr.tags := Nostr.tags template;
            Nostr.pubkey := Some "alice" |}.

Definition relay : Nostr.Publisher := fun _ => Return tt.

#[local] Instance platform : Collaborators := {|
  url_root := origin_root;
  base64_decode := fun s => Return (String.list_byte_of_string s);
  base64_encode := String.string_of_list_byte;
  decrypt := unseal;
  encrypt := fun plaintext pw _ => Return (seal plaintext pw);
  parse_tags := fun data => Return (lines_to_tags data);
  stringify_tags := tags_to_lines;
  parseInt := digits;
  String_of := fun n => DecimalString.NilEmpty.string_of_uint (Nat.to_uint (Z.to_nat n));
  Token := string;
  createUploadAuth := fun sg f message =>
    match sg {| Nostr.kind := 24242; Nostr.content := message;
                Nostr.created_at := 0; Nostr.tags := [["t"; "upload"]];
                Nostr.pubkey := None |} with
    | Return signed => Return (Nostr.content signed)
    | Throw t => Throw t
    end;
  uploadBlob := fun server f _ =>
    if String.eqb server "https://down.example.com/" then Throw network_down
    else if String.eqb server "https://odd.example.com/" then Throw (NonError "timeout")
    else Return {| blob_sha256 := ("sha256:" ++ file_name f)%string;
                   blob_size := Z.of_nat (length (file_bits f));
                   blob_type := Some (file_type f) |};
  mime_getType := fun name =>
    if endsWith name ".txt" then Some "text/plain" else None;
  nanoid := fun n => ("id" ++ DecimalString.NilEmpty.string_of_uint (Nat.to_uint n))%string;
|}.

Definition event_of (at_ : Z) (tags_ : list Tag) : Nostr.Event :=
  {| Nostr.kind := Drive.DRIVE_KIND; Nostr.content := "";
     Nostr.created_at := at_; Nostr.tags := tags_;
     Nostr.pubkey := Some "alice" |}.

(** A drive that has adopted a manifest named [docs], stamped 100. *)
Definition docs_event : Nostr.Event :=
  event_of 100 [["d"; "docs"]; ["name"; "Documents"];
                ["server"; "https://cdn.example.com/blobs"]].

Definition docs_drive : Drive.Drive :=
  fst (Drive.update docs_event (Drive.new alice relay)).

(** An encrypted drive, locked, whose resident manifest was sealed with
    the password [hunter2]. *)
Definition sealed_event : Nostr.Event :=
  {| Nostr.kind := EncryptedDrive.ENCRYPTED_DRIVE_KIND;
     Nostr.content := "hunter2:d,vault"; Nostr.created_at := 100;
     Nostr.tags := [["d"; "vault"]; ["scrypt-logn"; "12"]];
     Nostr.pubkey := Some "alice" |}.

Definition vault : EncryptedDrive.EncryptedDrive :=
  fst (EncryptedDrive.update sealed_event (EncryptedDrive.new alice relay)).

(** The vault after [unlock] with the right password. *)
Definition open_vault : EncryptedDrive.EncryptedDrive :=
  fst (EncryptedDrive.unlock "hunter2" vault).

(** The [docs] drive after a local change of its name. *)
Definition renamed_docs : Drive.Drive := Drive.set_name "Papers" docs_drive.

(** Events a relay may deliver: one without any tag, one that names [docs]
    and nothing else, one that lists the same server in two tags, one that
    has no [d] tag, and one that has no [d] tag and a server address that is
    no URL. *)
Definition bare_event : Nostr.Event := event_of 1 [].
Definition unnamed_event : Nostr.Event := event_of 200 [["d"; "docs"]].
Definition mirrored_event : Nostr.Event :=
  event_of 200 [["d"; "docs"]; ["server"; "https://cdn.example.com/"];
                ["r"; "https://cdn.example.com/blobs"]].
Definition anonymous_event : Nostr.Event := event_of 200 [["name"; "Papers"]].

Definition notes : File :=
  {| file_name := "notes.txt"; file_type := ""; webkitRelativePath := "";
     file_bits := [] |}.
Definition playlist : File :=
  {| file_name := "live.m3u8"; file_type := "audio/x-mpegurl";
     webkitRelativePath := "shows/live.m3u8"; file_bits := [] |}.

(** A batch of two files for two servers, the second of which rejects every
    upload with a bare string. *)
Definition batch : Upload.Upload :=
  Upload.addFileList [notes; playlist]
    (Upload.new (Upload.Plain docs_drive) "inbox"
       ["https://cdn.example.com/"; "https://odd.example.com/"] alice).

End Sample.

(** ** The read side of the small platform

    Files are looked up in the list of tags that stands for the tree; one
    server delivers every blob, a second one delivers blobs sealed under
    another password, every other server is down. *)

Module SampleStore.

#[local] Existing Instance Sample.tree.
#[local] Existing Instance Sample.platform.

Definition file_at (tr : list Tag) (p : Path) : list Tag * Outcome Tag :=
  match List.find (Sample.has_path p) tr with
  | Some t => (tr, Return t)
  | None => (tr, Throw Sample.missing_path)
  end.

(** An absolute path on the origin of the base. *)
Definition resolve (path : string) (base : option string) : option string :=
  match base with
  | Some b =>
      match Sample.origin_root b with
      | Some root =>
          Some (root ++ String.substring 1 (String.length path - 1) path)%string
      | None => None
      end
  | None => None
  end.

Definition blob_of (sha256 : string) : bytes :=
  String.list_byte_of_string ("blob " ++ sha256)%string.

Definition fetch (server sha256 : string) : Outcome bytes :=
  if String.eqb server "https://cdn.example.com/" then Return (blob_of sha256)
  else Throw Sample.network_down.

Definition fetch_sealed (server sha256 : string) : Outcome bytes :=
  if String.eqb server "https://cdn.example.com/"
  then Return (Sample.seal (blob_of sha256) "hunter2")
  else if String.eqb server "https://odd.example.com/"
  then Return (Sample.seal (blob_of sha256) "sesame")
  else Throw Sample.network_down.

#[local] Instance store : Retrieval := {|
  tree_getFile := file_at;
  treefile_name := fun t => default "" (t !! 1%nat);
  treefile_sha256 := fun t => default "" (t !! 2%nat);
  treefile_type := fun t => default "" (t !! 3%nat);
  extname := fun name => if endsWith name ".txt" then Some ".txt" else None;
  mime_getExtension := fun type =>
    if String.eqb type "image/png" then Some "png" else None;
  url_resolve := resolve;
  File_type_of := fun type => type;
  downloadBlob := fetch;
  getBlob := fetch_sealed;
|}.

(** The value a computation returned, [fallback] if it threw. *)
Definition returned {A : Type} (fallback : A) (o : Outcome A) : A :=
  match o with
  | Return a => a
  | Throw _ => fallback
  end.

Definition report : FileMetadata.t :=
  {| FileMetadata.sha256 := "b1946ac9"; FileMetadata.size := 6;
     FileMetadata.type := "text/plain" |}.

(** The [docs] drive with one file in it, and the same drive once a server
    that is down has been put in front of its own. *)
Definition stocked_docs : Drive.Drive :=
  fst (Drive.setFile "report.txt" report Sample.docs_drive).
Definition mirrored_docs : Drive.Drive :=
  Drive.set_servers ["https://down.example.com/"; "https://cdn.example.com/"]
    stocked_docs.

(** A drive that was never saved, with a name and no identifier, and one
    whose only server is no URL. *)
Definition draft : Drive.Drive :=
  Drive.set_name "Draft" (Drive.new Sample.alice Sample.relay).
Definition misdirected_docs : Drive.Drive :=
  Drive.set_servers ["not a url"] Sample.docs_drive.

(** What [createEventTemplate] makes of the renamed drive and of the draft
    at 101, and what the signer makes of the latter. *)
Definition renamed_template : Nostr.Event :=
  returned Sample.bare_event (Drive.createEventTemplate 101 Sample.renamed_docs).
Definition draft_template : Nostr.Event :=
  returned Sample.bare_event (Drive.createEventTemplate 101 draft).
Definition draft_signed : Nostr.Event :=
  returned Sample.bare_event (Sample.alice draft_template).

(** A new encrypted drive that was given its password, a name and an
    identifier, and has not been saved yet. *)
Definition new_vault : EncryptedDrive.EncryptedDrive :=
  let d := EncryptedDrive.setPassword "hunter2" 12
             (EncryptedDrive.new Sample.alice Sample.relay) in
  EncryptedDrive.with_base
    (Drive.set_name "Vault" (Drive.set_identifier "vault" (EncryptedDrive.base d))) d.
Definition vault_plain : Nostr.Event :=
  returned Sample.bare_event
    (Drive.createEventTemplate 101 (EncryptedDrive.base new_vault)).
Definition vault_template : Nostr.Event :=
  returned Sample.bare_event (EncryptedDrive.createEventTemplate 101 new_vault).
Definition vault_signed : Nostr.Event :=
  returned Sample.bare_event (Sample.alice vault_template).

(** The open vault with one file in it. *)
Definition stocked_vault : EncryptedDrive.EncryptedDrive :=
  fst (EncryptedDrive.setFile "report.txt" report Sample.open_vault).

(** Later manifests of the vault: one with a cost beyond the range, one
    sealed under another password. *)
Definition costly_event : Nostr.Event :=
  {| Nostr.kind := EncryptedDrive.ENCRYPTED_DRIVE_KIND;
     Nostr.content := "hunter2:d,vault"; Nostr.created_at := 200;
     Nostr.tags := [["d"; "vault"]; ["scrypt-logn"; "40"]];
     Nostr.pubkey := Some "alice" |}.
Definition resealed_event : Nostr.Event :=
  {| Nostr.kind := EncryptedDrive.ENCRYPTED_DRIVE_KIND;
     Nostr.content := "sesame:d,vault"; Nostr.created_at := 200;
     Nostr.tags := [["d"; "vault"]; ["scrypt-logn"; "12"]];
     Nostr.pubkey := Some "alice" |}.

(** Batches: one for the locked vault, one for a single server that takes
    every file, one for two servers that take none. *)
Definition sealed_batch : Upload.Upload :=
  Upload.addFileList [Sample.notes]
    (Upload.new (Upload.Encrypted Sample.vault) "inbox"
       ["https://cdn.example.com/"] Sample.alice).
Definition plain_batch : Upload.Upload :=
  Upload.addFileList [Sample.notes; Sample.playlist]
    (Upload.new (Upload.Plain Sample.docs_drive) "inbox"
       ["https://cdn.example.com/"] Sample.alice).
Definition stranded_batch : Upload.Upload :=
  Upload.addFileList [Sample.notes; Sample.playlist]
    (Upload.new (Upload.Plain Sample.docs_drive) "inbox"
       ["https://down.example.com/"; "https://odd.example.com/"] Sample.alice).

(** The entry under which the batches above hold their first file. *)
Definition notes_entry : Upload.UploadEntry :=
  {| Upload.id := "id0"; Upload.file := Sample.notes; Upload.path := "notes.txt" |}.

End SampleStore.

(** ** A platform on which [setFile] can fail

    The tree refuses a file below a path that is itself a file; there is
    no cipher; the server takes every file but playlists, which it rejects
    with a bare string. *)

Module Brittle.

Definition not_a_folder : Thrown := JsError "Error" "Not a folder".
Definition no_cipher : Thrown := JsError "Error" "Not supported".

(** The tag is a file, and [p] lies below its path. *)
Definition file_above (p : Path) (t : Tag) : bool :=
  tag_is "x" t && String.prefix (default "" (t !! 1%nat) ++ "/")%string p.

#[local] Instance tree : FileTree := {|
  TreeFolder := list Tag;
  TreeFile := Tag;
  newTreeFolder := fun _ => [];
  createTreeFromTags := fun tags => Return tags;
  updateTreeInTags := fun tags tr =>
    (List.filter (fun t => negb (Drive.is_tree_tag t)) tags ++ tr)%list;
  tree_getFolder := fun tr p create =>
    if existsb (Sample.has_path p) tr then (tr, Return [["folder"; p]])
    else if create then ((tr ++ [["folder"; p]])%list, Return [["folder"; p]])
    else (tr, Throw Sample.missing_path);
  tree_setFile := fun tr p m =>
    if existsb (file_above p) tr then (tr, Throw not_a_folder)
    else
      let t := ["x"; p; FileMetadata.sha256 m; FileMetadata.type m] in
      ((List.filter (fun t => negb (Sample.has_path p t)) tr ++ [t])%list, Return t);
  tree_remove := Sample.remove_path;
  tree_move := Sample.move_path;
  joinPath := fun a b => (a ++ "/" ++ b)%string;
|}.

#[local] Instance platform : Collaborators := {|
  url_root := Sample.origin_root;
  base64_decode := fun s => Return (String.list_byte_of_string s);
  base64_encode := String.string_of_list_byte;
  decrypt := fun _ _ => Throw no_cipher;
  encrypt := fun _ _ _ => Throw no_cipher;
  parse_tags := fun data => Return (Sample.lines_to_tags data);
  stringify_tags := Sample.tags_to_lines;
  parseInt := Sample.digits;
  String_of := fun n => DecimalString.NilEmpty.string_of_uint (Nat.to_uint (Z.to_nat n));
  Token := string;
  createUploadAuth := fun sg f message =>
    match sg {| Nostr.kind := 24242; Nostr.content := message;
                Nostr.created_at := 0; Nostr.tags := [["t"; "upload"]];
                Nostr.pubkey := None |} with
    | Return signed => Return (Nostr.content signed)
    | Throw t => Throw t
    end;
  uploadBlob := fun server f _ =>
    if endsWith (file_name f) ".m3u8" then Throw (NonError "timeout")
    else Return {| blob_sha256 := ("sha256:" ++ file_name f)%string;
                   blob_size := Z.of_nat (length (file_bits f));
                   blob_type := Some (file_type f) |};
  mime_getType := fun name =>
    if endsWith name ".txt" then Some "text/plain" else None;
  nanoid := fun n => ("id" ++ DecimalString.NilEmpty.string_of_uint (Nat.to_uint n))%string;
|}.

(** A drive whose manifest holds a file at [inbox], and a batch of two
    files that is to go below [inbox]. *)
Definition inbox_event : Nostr.Event :=
  Sample.event_of 100 [["d"; "docs"]; ["x"; "inbox"; "b1946ac9"; "text/plain"]].

Definition inbox_drive : Drive.Drive :=
  fst (Drive.update inbox_event (Drive.new Sample.alice Sample.relay)).

Definition batch : Upload.Upload :=
  Upload.addFileList [Sample.notes; Sample.playlist]
    (Upload.new (Upload.Plain inbox_drive) "inbox"
       ["https://cdn.example.com/"] Sample.alice).


End Brittle.

(** * Vocabulary of the properties *)

(** The event carries a tag whose first field is [k]. *)
Definition has_tag (k : string) (tags : list Tag) : bool :=
  existsb (tag_is k) tags.

(** Every [r] and [server] tag of the event holds an address that the [URL]
    constructor accepts. *)
Definition server_urls_parse `{Collaborators} (ev : Nostr.Event) : Prop :=
  Forall (fun t => is_Some (url_root (Drive.tag_1 t)))
         (List.filter Drive.is_server_tag (Nostr.tags ev)).

(** The condition under which [update] adopts [e]: there is no resident
    event, or [e] is stamped strictly later than the resident one. *)
Definition supersedes (e : Nostr.Event) (resident : option Nostr.Event) : Prop :=
  resident = None
  \/ exists r, resident = Some r /\ Nostr.created_at r < Nostr.created_at e.

(** A caller feeding events to [update] one after the other, carrying on
    after a rejected or a throwing call. *)
Fixpoint updates `{FileTree} `{Collaborators}
    (es : list Nostr.Event) (d : Drive.Drive) : Drive.Drive :=
  match es with
  | [] => d
  | e :: es' => updates es' (fst (Drive.update e d))
  end.

(** The browser mislabelling that [correctFileMimeType] looks for. *)
Definition mislabelled_playlist (f : File) : Prop :=
  file_type f = "audio/x-mpegurl" /\ endsWith (file_name f) ".m3u8" = true.

(** [recorded] is what the batch may record for the accepted file [f]: the
    same name and bits under the playlist type when [f] is a mislabelled
    playlist, [f] itself otherwise. *)
Definition recorded_as (f recorded : File) : Prop :=
  (mislabelled_playlist f ->
     file_type recorded = "application/vnd.apple.mpegurl"
     /\ file_name recorded = file_name f
     /\ file_bits recorded = file_bits f)
  /\ (~ mislabelled_playlist f -> recorded = f).

(** The files a traversal of the entry reads: those of its readable file
    entries, through its listable directories. *)
Inductive delivers : FileSystemEntry -> File -> Prop :=
  | delivers_file (p : string) (f : File) :
      delivers (FileSystemFileEntry p true (Return f)) f
  | delivers_directory (p : string) (es : list FileSystemEntry)
      (e : FileSystemEntry) (f : File) :
      In e es -> delivers e f ->
      delivers (FileSystemDirectoryEntry p true (Return es)) f.

(** Induction over an entry and the entries below it. *)
Fixpoint FileSystemEntry_nested_ind (P : FileSystemEntry -> Prop)
    (Hfile : forall p b r, P (FileSystemFileEntry p b r))
    (Hdir : forall p b es, Forall P es ->
              P (FileSystemDirectoryEntry p b (Return es)))
    (Hfail : forall p b t, P (FileSystemDirectoryEntry p b (Throw t)))
    (Hother : forall p, P (OtherEntry p))
    (e : FileSystemEntry) {struct e} : P e :=
  match e with
  | FileSystemFileEntry p b r => Hfile p b r
  | FileSystemDirectoryEntry p b (Return es) =>
      Hdir p b es
        ((fix all (l : list FileSystemEntry) : Forall P l :=
            match l with
            | [] => List.Forall_nil P
            | x :: l' =>
                @List.Forall_cons _ P x l'
                  (FileSystemEntry_nested_ind P Hfile Hdir Hfail Hother x)
                  (all l')
            end) es)
  | FileSystemDirectoryEntry p b (Throw t) => Hfail p b t
  | OtherEntry p => Hother p
  end.

(** [m[server]?.[id]] *)
Definition entry_at {A : Type} (m : gmap string (gmap string A))
    (server i : string) : option A :=
  match m !! server with
  | Some inner => inner !! i
  | None => None
  end.

(** Every attempt to upload the file to the server throws a value that is
    not an [Error], however the file is put on the wire. *)
Definition rejects_with_non_error `{FileTree} `{Collaborators}
    (sg : Nostr.Signer) (server : string) (f : File) : Prop :=
  forall dr fl tk,
    Upload.wire_file dr f = Return fl ->
    createUploadAuth sg fl ("Upload " ++ file_name fl)%string = Return tk ->
    exists v, uploadBlob server fl tk = Throw (NonError v).

(** What one call of [addFileSystemEntry] appends: corrected files the entry
    delivers, and all of them when the call resolves. *)
Definition appends_delivered `{FileTree} `{Collaborators}
    (entry : FileSystemEntry) : Prop :=
  forall u, exists es,
    Upload.files (fst (Upload.addFileSystemEntry entry u)) = Upload.files u ++ es
    /\ Forall (fun e => exists f, delivers entry f /\ recorded_as f (Upload.file e)) es
    /\ (snd (Upload.addFileSystemEntry entry u) = Return tt ->
        forall f, delivers entry f ->
                  exists e, In e es /\ recorded_as f (Upload.file e)).

(** The [URL] constructor accepts the roots it gives for these servers and
    leaves them as they are: none is empty, each is its own origin root. *)
Definition servers_resolve_stably `{Collaborators} (servers : list string) : Prop :=
  forall s u, In s servers -> url_root s = Some u ->
              u <> "" /\ url_root u = Some u.

(** The content opens under the password to the tags: it is base64, its
    bytes decrypt, and the plaintext is the JSON of the tags. *)
Definition opens_to `{Collaborators} (content pw : string) (tags : list Tag) : Prop :=
  exists ciphertext data,
    base64_decode content = Return ciphertext
    /\ decrypt ciphertext pw = Return data
    /\ parse_tags data = Return tags.

(** [this.drive.modified] *)
Definition drive_modified `{FileTree} (dr : Upload.AnyDrive) : bool :=
  match dr with
  | Upload.Plain d => Drive.modified d
  | Upload.Encrypted d => Drive.modified (EncryptedDrive.base d)
  end.


(** The list without its repeats: of equal entries the first one stays. *)
Fixpoint first_occurrences (l : list string) : list string :=
  match l with
  | [] => []
  | x :: l' =>
      x :: List.filter (fun y => negb (String.eqb x y)) (first_occurrences l')
  end.

(** The address of the file on the server [base]:
    [new URL("/" + file.sha256 + ext, base).toString()], which throws when
    the constructor does. *)
Definition address_on `{Retrieval} (file : TreeFile) (base : option string)
  : Outcome string :=
  match url_resolve ("/" ++ treefile_sha256 file ++ Drive.file_extension file)%string
          base with
  | Some url => Return url
  | None => Throw invalid_url
  end.

(** * Drive *)

Section DriveProperties.
Context `{FileTree} `{Collaborators}.

Lemma find_none_of_existsb {A : Type} (p : A -> bool) (l : list A) :
  existsb p l = false -> List.find p l = None.
Proof.
  induction l as [|x l IH]; simpl; [reflexivity|].
  destruct (p x); simpl; [discriminate|exact IH].
Qed.

Lemma tag_value_absent (k : string) (tags : list Tag) :
  has_tag k tags = false -> tag_value k tags = None.
Proof.
  intros Hk. unfold tag_value.
  rewrite (find_none_of_existsb _ _ Hk). reflexivity.
Qed.

Lemma mapM_Forall2 {A B : Type} (f : A -> Outcome B) (l : list A) (ys : list B) :
  mapM f l = Return ys -> Forall2 (fun x y => f x = Return y) l ys.
Proof.
  revert ys. induction l as [|x l IH]; simpl; intros ys Hm.
  - injection Hm as <-. constructor.
  - destruct (f x) as [y|] eqn:Hx; [|discriminate].
    destruct (mapM f l) as [ys'|]; [|discriminate].
    injection Hm as <-. constructor; [exact Hx|apply IH; reflexivity].
Qed.

Lemma mapM_total {A B : Type} (f : A -> Outcome B) (l : list A) :
  Forall (fun x => exists y, f x = Return y) l -> exists ys, mapM f l = Return ys.
Proof.
  induction 1 as [|x l [y Hy] _ [ys Hys]]; simpl.
  - eexists; reflexivity.
  - rewrite Hy, Hys. eexists; reflexivity.
Qed.

Lemma servers_read (ev : Nostr.Event) :
  server_urls_parse ev ->
  exists srv, mapM (fun t => new_URL_root (Drive.tag_1 t))
                (List.filter Drive.is_server_tag (Nostr.tags ev)) = Return srv.
Proof.
  intros Hp. apply mapM_total.
  eapply Forall_impl; [exact Hp|].
  intros t [u Hu]. exists u. unfold new_URL_root. rewrite Hu. reflexivity.
Qed.

(** Without a [d] tag [readEvent] throws, whatever else the event holds. *)
Lemma readEvent_without_d (i : string) (ev : Nostr.Event) :
  has_tag "d" (Nostr.tags ev) = false ->
  exists t, Drive.readEvent i ev = Throw t
            /\ (server_urls_parse ev -> t = Drive.missing_d_tag).
Proof.
  intros Hd. unfold Drive.readEvent.
  rewrite (tag_value_absent _ _ Hd). simpl.
  destruct (mapM _ _) as [srv|t] eqn:Hm.
  - exists Drive.missing_d_tag. split; reflexivity.
  - exists t. split; [reflexivity|].
    intros Hp. destruct (servers_read ev Hp) as [srv Hs]. congruence.
Qed.

Lemma is_newer_supersedes (e : Nostr.Event) (resident : option Nostr.Event) :
  Drive.is_newer e resident = true <-> supersedes e resident.
Proof.
  unfold Drive.is_newer, supersedes. destruct resident as [r|].
  - rewrite Z.ltb_lt. split.
    + intros Hlt. right. exists r. split; [reflexivity|exact Hlt].
    + intros [Hn|[r' [Hr Hlt]]]; [discriminate|]. injection Hr as ->. exact Hlt.
  - split; [intros _; left; reflexivity|reflexivity].
Qed.

Lemma resetFromEvent_event (d : Drive.Drive) :
  Drive.event (fst (Drive.resetFromEvent d)) = Drive.event d.
Proof.
  unfold Drive.resetFromEvent.
  destruct (Drive.event d) as [ev|] eqn:He; simpl; [|exact He].
  destruct (Drive.readEvent _ ev) as [m|t]; simpl; [|exact He].
  destruct (createTreeFromTags _); simpl; exact He.
Qed.

(** A call that is not rejected leaves [e] resident, also when it throws. *)
Lemma update_event (e : Nostr.Event) (d : Drive.Drive) :
  Drive.is_newer e (Drive.event d) = true ->
  Drive.event (fst (Drive.update e d)) = Some e.
Proof.
  intros Hn. unfold Drive.update. rewrite Hn.
  pose proof (resetFromEvent_event (Drive.with_event (Some e) d)) as Hr.
  destruct (Drive.resetFromEvent _) as [d1 [[]|t]]; simpl in *; exact Hr.
Qed.

Lemma update_rejected (e : Nostr.Event) (d : Drive.Drive) :
  Drive.is_newer e (Drive.event d) = false ->
  Drive.update e d = (d, Return false).
Proof. intros Hn. unfold Drive.update. rewrite Hn. reflexivity. Qed.

Lemma update_returns_true (e : Nostr.Event) (d : Drive.Drive) :
  snd (Drive.update e d) = Return true -> Drive.is_newer e (Drive.event d) = true.
Proof.
  destruct (Drive.is_newer e (Drive.event d)) eqn:Hn; [reflexivity|].
  rewrite (update_rejected _ _ Hn). simpl. discriminate.
Qed.

(** What a successful [update] leaves behind. *)
Lemma update_adopts (e : Nostr.Event) (d : Drive.Drive)
    (m : Drive.DriveMetadata) (tr : TreeFolder) :
  Drive.is_newer e (Drive.event d) = true ->
  Drive.readEvent (Drive.identifier (Drive._metadata d)) e = Return m ->
  createTreeFromTags (Drive.treeTags m) = Return tr ->
  Drive.update e d =
    (Drive.emit Drive.EmitUpdate (Drive.emit Drive.EmitChange
       (Drive.with_modified false (Drive.with_tree tr
          (Drive.with_metadata m (Drive.with_event (Some e) d))))),
     Return true).
Proof.
  intros Hn Hr Ht. unfold Drive.update, Drive.resetFromEvent. rewrite Hn.
  simpl. rewrite Hr, Ht. reflexivity.
Qed.

Lemma update_timestamp (e : Nostr.Event) (d : Drive.Drive) (r : Nostr.Event) :
  Drive.event d = Some r ->
  exists r', Drive.event (fst (Drive.update e d)) = Some r'
             /\ Nostr.created_at r <= Nostr.created_at r'.
Proof.
  intros Hr. destruct (Drive.is_newer e (Drive.event d)) eqn:Hn.
  - exists e. split; [apply update_event; exact Hn|].
    rewrite Hr in Hn. simpl in Hn. apply Z.ltb_lt in Hn. lia.
  - rewrite (update_rejected _ _ Hn). exists r. simpl. split; [exact Hr|lia].
Qed.

Lemma updates_timestamp (es : list Nostr.Event) (d : Drive.Drive) (r : Nostr.Event) :
  Drive.event d = Some r ->
  exists r', Drive.event (updates es d) = Some r'
             /\ Nostr.created_at r <= Nostr.created_at r'.
Proof.
  revert d r. induction es as [|e es IH]; simpl; intros d r Hr.
  - exists r. split; [exact Hr|lia].
  - destruct (update_timestamp e d r Hr) as [r1 [H1 Hle1]].
    destruct (IH _ _ H1) as [r2 [H2 Hle2]].
    exists r2. split; [exact H2|lia].
Qed.

(** C3 (as amended).  For an event from which metadata and tree can be
    re-derived, [update] adopts it and returns [true] exactly when there is
    no resident event or the event is stamped strictly later than the
    resident one, and otherwise returns [false] and changes nothing.  For
    every event: [update] returns [true] only under that condition; a
    second [update] with the same event returns [false] and leaves the
    whole drive as the first call left it; and over any sequence of
    [update] calls the resident timestamp never decreases. *)
Theorem update_last_writer_wins (d : Drive.Drive) (e : Nostr.Event) :
  (forall m tr,
      Drive.readEvent (Drive.identifier (Drive._metadata d)) e = Return m ->
      createTreeFromTags (Drive.treeTags m) = Return tr ->
      (snd (Drive.update e d) = Return true <-> supersedes e (Drive.event d))
      /\ (supersedes e (Drive.event d) ->
          let d' := fst (Drive.update e d) in
          Drive.event d' = Some e /\ Drive._metadata d' = m
          /\ Drive.tree d' = tr /\ Drive.modified d' = false)
      /\ (~ supersedes e (Drive.event d) -> Drive.update e d = (d, Return false)))
  /\ (snd (Drive.update e d) = Return true -> supersedes e (Drive.event d))
  /\ (let d' := fst (Drive.update e d) in Drive.update e d' = (d', Return false))
  /\ (forall es r, Drive.event d = Some r ->
        exists r', Drive.event (updates es d) = Some r'
                   /\ Nostr.created_at r <= Nostr.created_at r').
Proof.
  split; [|split; [|split]].
  - intros m tr Hm Htr. split; [split|split].
    + intros Ht. apply is_newer_supersedes, update_returns_true, Ht.
    + intros Hs. apply is_newer_supersedes in Hs.
      rewrite (update_adopts e d m tr Hs Hm Htr). reflexivity.
    + intros Hs. apply is_newer_supersedes in Hs.
      rewrite (update_adopts e d m tr Hs Hm Htr). simpl. auto.
    + intros Hn. apply update_rejected.
      destruct (Drive.is_newer e (Drive.event d)) eqn:Hb; [|reflexivity].
      exfalso. apply Hn, is_newer_supersedes, Hb.
  - intros Ht. apply is_newer_supersedes, update_returns_true, Ht.
  - apply update_rejected.
    destruct (Drive.is_newer e (Drive.event d)) eqn:Hb.
    + rewrite (update_event _ _ Hb). simpl. apply Z.ltb_irrefl.
    + rewrite (update_rejected _ _ Hb). simpl. exact Hb.
  - intros es r Hr. apply updates_timestamp, Hr.
Qed.




(** C4 (as amended).  An event without a [d] tag makes [readEvent] throw:
    the missing-identifier error when the addresses of its [r] and
    [server] tags all parse.  When [readEvent] returns, an event without
    a [name] tag gets the identifier the drive had before the call as its
    name (the empty string on a fresh drive), and an event without a
    [description] tag gets the empty description. *)
Theorem readEvent_defaults (this_identifier : string) (ev : Nostr.Event) :
  (has_tag "d" (Nostr.tags ev) = false ->
     (exists t, Drive.readEvent this_identifier ev = Throw t)
     /\ (server_urls_parse ev ->
         Drive.readEvent this_identifier ev = Throw Drive.missing_d_tag))
  /\ (forall m, Drive.readEvent this_identifier ev = Return m ->
        (has_tag "name" (Nostr.tags ev) = false -> Drive.name m = this_identifier)
        /\ (has_tag "description" (Nostr.tags ev) = false -> Drive.description m = "")).
Proof.
  split.
  - intros Hd. destruct (readEvent_without_d this_identifier ev Hd) as [t [Ht Hm]].
    split; [exists t; exact Ht|].
    intros Hp. rewrite Ht, (Hm Hp). reflexivity.
  - intros m Hm. unfold Drive.readEvent in Hm.
    destruct (mapM _ _) as [srv|]; [|discriminate].
    destruct (truthy _); [|discriminate].
    injection Hm as <-. simpl. split; intros Hk.
    + rewrite (tag_value_absent _ _ Hk). reflexivity.
    + rewrite (tag_value_absent _ _ Hk). reflexivity.
Qed.

(** C5 (as amended).  The servers list [readEvent] returns has one entry
    for each [r] or [server] tag that holds a non-empty address, in the
    order of the tags: the address resolved to its origin root.  Nothing
    is removed: two tags with the same address give two equal entries. *)
Theorem readEvent_servers (this_identifier : string) (ev : Nostr.Event)
    (m : Drive.DriveMetadata) :
  Drive.readEvent this_identifier ev = Return m ->
  Forall2 (fun t s => url_root (Drive.tag_1 t) = Some s)
          (List.filter Drive.is_server_tag (Nostr.tags ev)) (Drive.servers m)
  /\ length (Drive.servers m)
     = length (List.filter Drive.is_server_tag (Nostr.tags ev)).
Proof.
  intros Hm. unfold Drive.readEvent in Hm.
  destruct (mapM _ _) as [srv|] eqn:Hs; [|discriminate].
  destruct (truthy _); [|discriminate].
  injection Hm as <-. simpl.
  apply mapM_Forall2 in Hs.
  assert (HF : Forall2 (fun t s => url_root (Drive.tag_1 t) = Some s)
                 (List.filter Drive.is_server_tag (Nostr.tags ev)) srv).
  { eapply Forall2_impl; [exact Hs|].
    intros t s. unfold new_URL_root.
    destruct (url_root (Drive.tag_1 t)); [|discriminate].
    intros Hq. injection Hq as ->. reflexivity. }
  split; [exact HF|].
  symmetry. eapply Forall2_length, HF.
Qed.

(** C2 (as amended).  [save()] on a drive that is not modified returns at
    once and changes nothing.  On a modified drive, when template, signer
    and publisher succeed: if the signed event supersedes the resident one
    (none yet, or stamped strictly earlier) and metadata and tree can be
    re-derived from it, the drive ends not modified with the signed event
    resident, so that the resident timestamp is the template's whenever
    the signer keeps it; if the signed event does not supersede the
    resident one, [save()] still returns it but the drive stays modified
    and the resident event stays. *)
Theorem save_folds_in_newer_event (now : Z) (d : Drive.Drive) :
  (Drive.modified d = false -> Drive.save now d = (d, Return None))
  /\ (forall template signed,
        Drive.modified d = true ->
        Drive.createEventTemplate now d = Return template ->
        Drive.signer d template = Return signed ->
        Drive.publisher d signed = Return tt ->
        let d' := fst (Drive.save now d) in
        Nostr.created_at template = now
        /\ (forall m tr,
              supersedes signed (Drive.event d) ->
              Drive.readEvent (Drive.identifier (Drive._metadata d)) signed = Return m ->
              createTreeFromTags (Drive.treeTags m) = Return tr ->
              snd (Drive.save now d) = Return (Some signed)
              /\ Drive.modified d' = false
              /\ Drive.event d' = Some signed
              /\ (Nostr.created_at signed = Nostr.created_at template ->
                  exists r, Drive.event d' = Some r /\ Nostr.created_at r = now))
        /\ (~ supersedes signed (Drive.event d) ->
              snd (Drive.save now d) = Return (Some signed)
              /\ Drive.modified d' = true
              /\ Drive.event d' = Drive.event d)).
Proof.
  split.
  - intros Hm. unfold Drive.save. rewrite Hm. reflexivity.
  - intros template signed Hm Ht Hs Hp. simpl.
    split; [|split].
    + unfold Drive.createEventTemplate in Ht.
      destruct (Drive.unshift_servers _ _); [|discriminate].
      injection Ht as <-. reflexivity.
    + intros m tr Hsup Hr Htr.
      apply is_newer_supersedes in Hsup.
      unfold Drive.save. rewrite Hm, Ht. simpl. rewrite Hs. simpl. rewrite Hp.
      rewrite (update_adopts signed _ m tr) by (simpl; assumption).
      simpl. repeat split.
      intros Hc. exists signed. split; [reflexivity|].
      rewrite Hc. unfold Drive.createEventTemplate in Ht.
      destruct (Drive.unshift_servers _ _); [|discriminate].
      injection Ht as <-. reflexivity.
    + intros Hn.
      assert (Hb : Drive.is_newer signed (Drive.event d) = false).
      { destruct (Drive.is_newer signed (Drive.event d)) eqn:Hb; [|reflexivity].
        exfalso. apply Hn, is_newer_supersedes, Hb. }
      unfold Drive.save. rewrite Hm, Ht. simpl. rewrite Hs. simpl. rewrite Hp.
      rewrite update_rejected by (simpl; exact Hb).
      simpl. repeat split. exact Hm.
Qed.

(** C7 (what the code does).  When the tree operation succeeds, [remove],
    [move] and [setFile] set the modified flag and emit one [change] note,
    and so do the four setters; [getFolder(path, true)] sets the modified
    flag but emits nothing.  None of them calls the signer or the
    publisher. *)
Theorem mutating_accessors (d : Drive.Drive) :
  (forall p d', Drive.remove p d = (d', Return tt) ->
     Drive.modified d' = true /\ Drive.log d' = (Drive.log d ++ [Drive.EmitChange])%list)
  /\ (forall src dest d', Drive.move src dest d = (d', Return tt) ->
     Drive.modified d' = true /\ Drive.log d' = (Drive.log d ++ [Drive.EmitChange])%list)
  /\ (forall p meta d' file, Drive.setFile p meta d = (d', Return file) ->
     Drive.modified d' = true /\ Drive.log d' = (Drive.log d ++ [Drive.EmitChange])%list)
  /\ (forall v d',
        d' = Drive.set_identifier v d \/ d' = Drive.set_name v d
        \/ d' = Drive.set_description v d ->
     Drive.modified d' = true /\ Drive.log d' = (Drive.log d ++ [Drive.EmitChange])%list)
  /\ (forall v,
     Drive.modified (Drive.set_servers v d) = true
     /\ Drive.log (Drive.set_servers v d) = (Drive.log d ++ [Drive.EmitChange])%list)
  /\ (forall p d' folder, Drive.getFolder p true d = (d', Return folder) ->
     Drive.modified d' = true /\ Drive.log d' = Drive.log d).
Proof.
  repeat apply conj.
  - intros p d'. unfold Drive.remove.
    destruct (tree_remove _ _) as [tr [[]|t]]; intros Hq; [|discriminate].
    injection Hq as <-. split; reflexivity.
  - intros src dest d'. unfold Drive.move.
    destruct (tree_move _ _ _) as [tr [[]|t]]; intros Hq; [|discriminate].
    injection Hq as <-. split; reflexivity.
  - intros p meta d' file. unfold Drive.setFile.
    destruct (tree_setFile _ _ _) as [tr [f|t]]; intros Hq; [|discriminate].
    injection Hq as <- _. split; reflexivity.
  - intros v d' [->|[->| ->]]; split; reflexivity.
  - intros v. split; reflexivity.
  - intros p d' folder. unfold Drive.getFolder.
    destruct (tree_getFolder _ _ _) as [tr [f|t]]; intros Hq; [|discriminate].
    injection Hq as <- _. split; reflexivity.
Qed.

End DriveProperties.

(** * EncryptedDrive *)

Section EncryptedDriveProperties.
Context `{FileTree} `{Collaborators}.

(** C1 (what the code does).  [lock()] on an unlocked drive removes the
    password, installs an empty root folder and the empty metadata, and
    assigns [false] to [locked]: the drive is still not locked afterwards.
    On a locked drive [lock()] changes nothing. *)
Theorem lock_assigns_false (d : EncryptedDrive.EncryptedDrive) :
  (EncryptedDrive.locked d = false ->
     let d' := EncryptedDrive.lock d in
     EncryptedDrive.password d' = None
     /\ Drive.tree (EncryptedDrive.base d') = newTreeFolder ""
     /\ Drive._metadata (EncryptedDrive.base d') = Drive.getEmptyMetadata
     /\ EncryptedDrive.locked d' = false)
  /\ (EncryptedDrive.locked d = true -> EncryptedDrive.lock d = d).
Proof.
  unfold EncryptedDrive.lock. split; intros Hl; rewrite Hl; simpl.
  - repeat split.
  - reflexivity.
Qed.

(** C6 (as amended).  On a locked drive whose resident event's content does
    not decrypt under the password, [unlock] throws, removes the password,
    leaves the drive locked and leaves every field of the drive (resident
    event, metadata, tree, modified flag, emitted notes, cost) as it was.
    The error thrown is the one of [decrypt] for a non-empty password; for
    the empty password it is "No password provided", raised before any
    decryption is tried. *)
Theorem unlock_wrong_password (d : EncryptedDrive.EncryptedDrive) (pw : string)
    (ev : Nostr.Event) (ciphertext : bytes) (t : Thrown) :
  EncryptedDrive.locked d = true ->
  Drive.event (EncryptedDrive.base d) = Some ev ->
  base64_decode (Nostr.content ev) = Return ciphertext ->
  decrypt ciphertext pw = Throw t ->
  let d' := fst (EncryptedDrive.unlock pw d) in
  snd (EncryptedDrive.unlock pw d)
    = Throw (if String.eqb pw "" then EncryptedDrive.no_password_provided else t)
  /\ EncryptedDrive.password d' = None
  /\ EncryptedDrive.locked d' = true
  /\ EncryptedDrive.base d' = EncryptedDrive.base d
  /\ EncryptedDrive.logn d' = EncryptedDrive.logn d.
Proof.
  intros Hl He Hb Hd.
  unfold EncryptedDrive.unlock, EncryptedDrive.resetFromEvent,
    EncryptedDrive.readEvent.
  rewrite He, Hl. simpl. rewrite He. simpl.
  destruct (String.eqb pw "") eqn:Hpw; simpl.
  - repeat split.
  - rewrite Hb, Hd. simpl. repeat split.
Qed.

End EncryptedDriveProperties.

(** * Upload: accepting files *)

Section AcceptProperties.
Context `{FileTree} `{Collaborators}.

Lemma correctFileMimeType_recorded (f : File) :
  recorded_as f (correctFileMimeType f).
Proof.
  unfold recorded_as, mislabelled_playlist, correctFileMimeType.
  destruct (String.eqb (file_type f) "audio/x-mpegurl") eqn:Ht; simpl.
  - destruct (endsWith (file_name f) ".m3u8") eqn:Hn; simpl.
    + split; [intros _; repeat split|].
      intros Hno. exfalso. apply Hno. split; [|reflexivity].
      apply String.eqb_eq, Ht.
    + split; [intros [_ Hc]; discriminate|reflexivity].
  - split; [|reflexivity].
    intros [Hc _]. apply String.eqb_eq in Hc. congruence.
Qed.

Lemma addFile_files (f : File) (p : option string) (u : Upload.Upload) :
  Upload.files (Upload.addFile f p u)
  = Upload.files u
    ++ [{| Upload.id := nanoid (Upload.drawn u);
           Upload.file := correctFileMimeType f;
           Upload.path := Upload.default_path f p |}].
Proof. reflexivity. Qed.

Lemma addFileList_files (fileList : list File) (u : Upload.Upload) :
  exists es, Upload.files (Upload.addFileList fileList u) = Upload.files u ++ es
             /\ Forall2 (fun f e => recorded_as f (Upload.file e)) fileList es.
Proof.
  unfold Upload.addFileList. revert u.
  induction fileList as [|f l IH]; simpl; intros u.
  - exists []. split; [symmetry; apply app_nil_r|constructor].
  - destruct (IH (Upload.addFile f None u)) as [es [Hes HF]].
    eexists (_ :: es). split.
    + rewrite Hes, addFile_files, <- app_assoc. reflexivity.
    + constructor; [apply correctFileMimeType_recorded|exact HF].
Qed.

Lemma for_each_appends (p : string) (all : list FileSystemEntry) :
  forall es, Forall appends_delivered es -> (forall e, In e es -> In e all) ->
  forall u, exists new,
    Upload.files (fst (for_each Upload.addFileSystemEntry es u)) = Upload.files u ++ new
    /\ Forall (fun e => exists f,
                 delivers (FileSystemDirectoryEntry p true (Return all)) f
                 /\ recorded_as f (Upload.file e)) new
    /\ (snd (for_each Upload.addFileSystemEntry es u) = Return tt ->
        forall e0 f, In e0 es -> delivers e0 f ->
                     exists e, In e new /\ recorded_as f (Upload.file e)).
Proof.
  induction 1 as [|e es He _ IH]; intros Hin u.
  - exists []. simpl. split; [symmetry; apply app_nil_r|].
    split; [constructor|]. intros _ e0 f [].
  - destruct (He u) as [new1 [Hf1 [Hall1 Hcomp1]]].
    assert (Hlift : Forall (fun e1 => exists f,
                delivers (FileSystemDirectoryEntry p true (Return all)) f
                /\ recorded_as f (Upload.file e1)) new1).
    { eapply Forall_impl; [exact Hall1|].
      intros e1 [f [Hd Hr]]. exists f. split; [|exact Hr].
      eapply delivers_directory; [apply Hin; left; reflexivity|exact Hd]. }
    simpl. destruct (Upload.addFileSystemEntry e u) as [u1 [[]|t]] eqn:Hstep;
      simpl in *.
    + destruct (IH (fun e1 H1 => Hin e1 (or_intror H1)) u1)
        as [new2 [Hf2 [Hall2 Hcomp2]]].
      exists (new1 ++ new2). split; [|split].
      * rewrite Hf2, Hf1, <- app_assoc. reflexivity.
      * apply Forall_app. split; assumption.
      * intros Hret e0 f [<-|Hin0] Hd.
        -- destruct (Hcomp1 eq_refl f Hd) as [e1 [Hi Hr]].
           exists e1. split; [apply in_or_app; left; exact Hi|exact Hr].
        -- destruct (Hcomp2 Hret e0 f Hin0 Hd) as [e1 [Hi Hr]].
           exists e1. split; [apply in_or_app; right; exact Hi|exact Hr].
    + exists new1. split; [exact Hf1|]. split; [exact Hlift|discriminate].
Qed.

Lemma addFileSystemEntry_appends (entry : FileSystemEntry) :
  appends_delivered entry.
Proof.
  induction entry as [p b r|p b es IH|p b t|p] using FileSystemEntry_nested_ind;
    intros u.
  - destruct b, r as [f|t]; simpl.
    + exists [{| Upload.id := nanoid (Upload.drawn u);
                 Upload.file := correctFileMimeType f; Upload.path := p |}].
      split; [reflexivity|]. split.
      * constructor; [|constructor]. exists f.
        split; [constructor|apply correctFileMimeType_recorded].
      * intros _ f' Hd. inversion Hd; subst.
        eexists. split; [left; reflexivity|apply correctFileMimeType_recorded].
    + exists []. split; [symmetry; apply app_nil_r|]. split; [constructor|].
      intros _ f Hd. inversion Hd.
    + exists []. split; [symmetry; apply app_nil_r|]. split; [constructor|].
      intros _ f' Hd. inversion Hd.
    + exists []. split; [symmetry; apply app_nil_r|]. split; [constructor|].
      intros _ f Hd. inversion Hd.
  - destruct b; simpl.
    + destruct (for_each_appends p es es IH (fun e He => He) u)
        as [new [Hf [Hall Hcomp]]].
      exists new. split; [exact Hf|]. split; [exact Hall|].
      intros Hret f Hd. inversion Hd; subst.
      eapply Hcomp; eassumption.
    + exists []. split; [symmetry; apply app_nil_r|]. split; [constructor|].
      intros _ f Hd. inversion Hd.
  - destruct b; simpl; exists [];
      (split; [symmetry; apply app_nil_r|]); (split; [constructor|]);
      intros Hr f Hd; [discriminate|inversion Hd].
  - exists []. simpl. split; [symmetry; apply app_nil_r|]. split; [constructor|].
    intros _ f Hd. inversion Hd.
Qed.

(** C8.  Whatever way a file enters the batch ([addFile], [addFileList]
    or [addFileSystemEntry]), the batch only grows, and what it records for
    an accepted file is: the file under the type
    [application/vnd.apple.mpegurl] (same name, same bits) when its declared
    type is [audio/x-mpegurl] and its name ends with [.m3u8]; the file
    itself, declared type unchanged, in every other case. *)
Theorem accepted_files_are_mime_corrected (u : Upload.Upload) :
  (forall f p, exists e,
      Upload.files (Upload.addFile f p u) = Upload.files u ++ [e]
      /\ recorded_as f (Upload.file e))
  /\ (forall fileList, exists es,
      Upload.files (Upload.addFileList fileList u) = Upload.files u ++ es
      /\ Forall2 (fun f e => recorded_as f (Upload.file e)) fileList es)
  /\ (forall entry, exists es,
      Upload.files (fst (Upload.addFileSystemEntry entry u)) = Upload.files u ++ es
      /\ Forall (fun e => exists f, delivers entry f /\ recorded_as f (Upload.file e)) es
      /\ (snd (Upload.addFileSystemEntry entry u) = Return tt ->
          forall f, delivers entry f ->
                    exists e, In e es /\ recorded_as f (Upload.file e))).
Proof.
  split; [|split].
  - intros f p. eexists. split; [apply addFile_files|].
    apply correctFileMimeType_recorded.
  - intros fileList. apply addFileList_files.
  - intros entry. apply addFileSystemEntry_appends.
Qed.

End AcceptProperties.

(** * Upload: the run *)

Section UploadProperties.
Context `{FileTree} `{Collaborators}.

Lemma entry_at_ensure {A : Type} (s' : string) (m : gmap string (gmap string A))
    (s j : string) :
  entry_at (Upload.ensure s' m) s j = entry_at m s j.
Proof.
  unfold Upload.ensure, entry_at.
  destruct (m !! s') as [x|] eqn:Hm; [reflexivity|].
  destruct (decide (s' = s)) as [->|Hne].
  - rewrite lookup_insert_eq, Hm. apply lookup_empty.
  - rewrite lookup_insert_ne by exact Hne. reflexivity.
Qed.

Lemma entry_at_set_at {A : Type} (s' i : string) (v : A)
    (m : gmap string (gmap string A)) (s j : string) :
  entry_at (Upload.set_at s' i v m) s j
  = if decide (s' = s /\ i = j) then Some v else entry_at m s j.
Proof.
  unfold Upload.set_at, entry_at.
  destruct (decide (s' = s)) as [->|Hne].
  - rewrite lookup_insert_eq.
    destruct (decide (i = j)) as [->|Hij].
    + rewrite lookup_insert_eq. rewrite decide_True by auto. reflexivity.
    + rewrite lookup_insert_ne by exact Hij.
      rewrite decide_False by (intros [_ Hc]; contradiction).
      destruct (m !! s); [reflexivity|apply lookup_empty].
  - rewrite lookup_insert_ne by exact Hne.
    rewrite decide_False by (intros [Hc _]; contradiction). reflexivity.
Qed.

(** ** One server *)

Lemma step_frame up fl tk u s' :
  let u' := Upload.upload_to_server up fl tk u s' in
  Upload.servers u' = Upload.servers u /\ Upload.files u' = Upload.files u
  /\ Upload.signer u' = Upload.signer u.
Proof.
  unfold Upload.upload_to_server, Upload.catch_upload.
  destruct (uploadBlob s' fl tk) as [blob|t]; simpl.
  - destruct (Upload.drive_setFile _ _ _) as [dr [f|t]]; simpl.
    + repeat split.
    + destruct (instanceofError t); repeat split.
  - destruct (instanceofError t); repeat split.
Qed.

(** Only a successful upload writes to [blobs], and only at its own server
    and file. *)
Lemma step_blobs up fl tk u s' s j :
  (s', Upload.id up) <> (s, j) \/ (exists t, uploadBlob s' fl tk = Throw t) ->
  entry_at (Upload.blobs (Upload.upload_to_server up fl tk u s')) s j
  = entry_at (Upload.blobs u) s j.
Proof.
  intros Hc. unfold Upload.upload_to_server, Upload.catch_upload.
  destruct (uploadBlob s' fl tk) as [blob|t]; simpl.
  - assert (Hne : ~ (s' = s /\ Upload.id up = j)).
    { intros [-> <-]. destruct Hc as [Hc|[t Hc]]; [apply Hc; reflexivity|discriminate]. }
    destruct (Upload.drive_setFile _ _ _) as [dr [f|t]]; simpl.
    + rewrite entry_at_set_at, decide_False by exact Hne. apply entry_at_ensure.
    + destruct (instanceofError t); simpl;
        rewrite entry_at_set_at, decide_False by exact Hne; apply entry_at_ensure.
  - destruct (instanceofError t); simpl; apply entry_at_ensure.
Qed.

(** A thrown value that is no [Error] writes nothing to [errors]. *)
Lemma step_errors up fl tk u s' s j :
  (s', Upload.id up) <> (s, j)
  \/ (exists v, uploadBlob s' fl tk = Throw (NonError v)) ->
  entry_at (Upload.errors (Upload.upload_to_server up fl tk u s')) s j
  = entry_at (Upload.errors u) s j.
Proof.
  intros Hc. unfold Upload.upload_to_server, Upload.catch_upload.
  destruct (uploadBlob s' fl tk) as [blob|t] eqn:Hu; simpl.
  - assert (Hne : ~ (s' = s /\ Upload.id up = j)).
    { intros [-> <-]. destruct Hc as [Hc|[t Hc]]; [apply Hc; reflexivity|discriminate]. }
    destruct (Upload.drive_setFile _ _ _) as [dr [f|t]]; simpl.
    + apply entry_at_ensure.
    + destruct (instanceofError t); simpl; [|apply entry_at_ensure].
      rewrite entry_at_set_at, decide_False by exact Hne. apply entry_at_ensure.
  - destruct t as [n m|v]; simpl; [|apply entry_at_ensure].
    assert (Hne : ~ (s' = s /\ Upload.id up = j)).
    { intros [-> <-]. destruct Hc as [Hc|[v Hc]]; [apply Hc; reflexivity|discriminate]. }
    rewrite entry_at_set_at, decide_False by exact Hne. apply entry_at_ensure.
Qed.

Lemma step_status_other up fl tk u s' j :
  j <> Upload.id up ->
  Upload.status (Upload.upload_to_server up fl tk u s') !! j = Upload.status u !! j.
Proof.
  intros Hj. unfold Upload.upload_to_server, Upload.catch_upload, Upload.alter_status.
  destruct (uploadBlob s' fl tk) as [blob|t]; simpl.
  - destruct (Upload.drive_setFile _ _ _) as [dr [f|t]]; simpl.
    + rewrite !lookup_alter_ne by congruence. reflexivity.
    + destruct (instanceofError t); simpl;
        rewrite !lookup_alter_ne by congruence; reflexivity.
  - destruct (instanceofError t); simpl;
      rewrite !lookup_alter_ne by congruence; reflexivity.
Qed.


(** ** All servers of one file *)

Lemma servers_frame up fl tk srv u :
  let u' := fold_left (Upload.upload_to_server up fl tk) srv u in
  Upload.servers u' = Upload.servers u /\ Upload.files u' = Upload.files u
  /\ Upload.signer u' = Upload.signer u.
Proof.
  revert u. induction srv as [|s' srv IH]; intros u; simpl; [repeat split|].
  destruct (IH (Upload.upload_to_server up fl tk u s')) as [H1 [H2 H3]].
  destruct (step_frame up fl tk u s') as [G1 [G2 G3]]. simpl in *.
  repeat split; congruence.
Qed.

Lemma servers_blobs up fl tk srv u s j :
  j <> Upload.id up \/ (exists t, uploadBlob s fl tk = Throw t) ->
  entry_at (Upload.blobs (fold_left (Upload.upload_to_server up fl tk) srv u)) s j
  = entry_at (Upload.blobs u) s j.
Proof.
  intros Hc. revert u. induction srv as [|s' srv IH]; intros u; simpl; [reflexivity|].
  rewrite IH. apply step_blobs.
  destruct Hc as [Hj|Ht]; [left; congruence|].
  destruct (decide (s' = s)) as [->|Hne]; [right; exact Ht|left; congruence].
Qed.

Lemma servers_errors up fl tk srv u s j :
  j <> Upload.id up \/ (exists v, uploadBlob s fl tk = Throw (NonError v)) ->
  entry_at (Upload.errors (fold_left (Upload.upload_to_server up fl tk) srv u)) s j
  = entry_at (Upload.errors u) s j.
Proof.
  intros Hc. revert u. induction srv as [|s' srv IH]; intros u; simpl; [reflexivity|].
  rewrite IH. apply step_errors.
  destruct Hc as [Hj|Ht]; [left; congruence|].
  destruct (decide (s' = s)) as [->|Hne]; [right; exact Ht|left; congruence].
Qed.

Lemma servers_status_other up fl tk srv u j :
  j <> Upload.id up ->
  Upload.status (fold_left (Upload.upload_to_server up fl tk) srv u) !! j
  = Upload.status u !! j.
Proof.
  intros Hj. revert u. induction srv as [|s' srv IH]; intros u; simpl; [reflexivity|].
  rewrite IH. apply step_status_other, Hj.
Qed.


(** ** One file *)

Lemma file_frame u up :
  let u' := fst (Upload.upload_file u up) in
  Upload.servers u' = Upload.servers u /\ Upload.files u' = Upload.files u
  /\ Upload.signer u' = Upload.signer u.
Proof.
  unfold Upload.upload_file.
  destruct (Upload.status u !! Upload.id up); simpl; [|repeat split].
  destruct (Upload.wire_file _ _) as [fl|t]; simpl; [|repeat split].
  destruct (createUploadAuth _ _ _) as [tk|t]; simpl; [|repeat split].
  match goal with
  | |- context [fold_left ?f ?l ?x] =>
      destruct (servers_frame up fl tk l x) as [G1 [G2 G3]]
  end.
  simpl in *. repeat split; assumption.
Qed.

Lemma file_blobs u up s j :
  j <> Upload.id up \/ rejects_with_non_error (Upload.signer u) s (Upload.file up) ->
  entry_at (Upload.blobs (fst (Upload.upload_file u up))) s j
  = entry_at (Upload.blobs u) s j.
Proof.
  intros Hc. unfold Upload.upload_file.
  destruct (Upload.status u !! Upload.id up); simpl; [|reflexivity].
  destruct (Upload.wire_file _ _) as [fl|t] eqn:Hw; simpl; [|reflexivity].
  destruct (createUploadAuth _ _ _) as [tk|t] eqn:Ha; simpl; [|reflexivity].
  rewrite servers_blobs; [reflexivity|].
  destruct Hc as [Hj|Hr]; [left; exact Hj|right].
  destruct (Hr _ _ _ Hw Ha) as [v Hv]. eexists; exact Hv.
Qed.

Lemma file_errors u up s j :
  j <> Upload.id up \/ rejects_with_non_error (Upload.signer u) s (Upload.file up) ->
  entry_at (Upload.errors (fst (Upload.upload_file u up))) s j
  = entry_at (Upload.errors u) s j.
Proof.
  intros Hc. unfold Upload.upload_file.
  destruct (Upload.status u !! Upload.id up); simpl; [|reflexivity].
  destruct (Upload.wire_file _ _) as [fl|t] eqn:Hw; simpl; [|reflexivity].
  destruct (createUploadAuth _ _ _) as [tk|t] eqn:Ha; simpl; [|reflexivity].
  rewrite servers_errors; [reflexivity|].
  destruct Hc as [Hj|Hr]; [left; exact Hj|right].
  exact (Hr _ _ _ Hw Ha).
Qed.

Lemma file_status_other u up j :
  j <> Upload.id up ->
  Upload.status (fst (Upload.upload_file u up)) !! j = Upload.status u !! j.
Proof.
  intros Hj. unfold Upload.upload_file, Upload.alter_status.
  destruct (Upload.status u !! Upload.id up); simpl; [|reflexivity].
  destruct (Upload.wire_file _ _) as [fl|t]; simpl;
    [|rewrite lookup_alter_ne by congruence; reflexivity].
  destruct (createUploadAuth _ _ _) as [tk|t]; simpl;
    [|rewrite lookup_alter_ne by congruence; reflexivity].
  rewrite lookup_alter_ne by congruence.
  rewrite servers_status_other by exact Hj. simpl.
  rewrite lookup_alter_ne by congruence. reflexivity.
Qed.


(** ** All files *)


(** A file leaves alone what is recorded under the identifiers of the others. *)
Lemma files_untouched ups u j :
  ~ In j (List.map Upload.id ups) ->
  let u' := fst (Upload.upload_files ups u) in
  Upload.status u' !! j = Upload.status u !! j
  /\ (forall s, entry_at (Upload.blobs u') s j = entry_at (Upload.blobs u) s j)
  /\ (forall s, entry_at (Upload.errors u') s j = entry_at (Upload.errors u) s j).
Proof.
  unfold Upload.upload_files. revert u.
  induction ups as [|up ups IH]; intros u Hj; simpl; [repeat split|].
  assert (Hne : j <> Upload.id up) by (intros ->; apply Hj; left; reflexivity).
  assert (Hj' : ~ In j (List.map Upload.id ups)) by (intros Hin; apply Hj; right; exact Hin).
  pose proof (file_status_other u up j Hne) as S1.
  pose proof (fun s => file_blobs u up s j (or_introl Hne)) as B1.
  pose proof (fun s => file_errors u up s j (or_introl Hne)) as E1.
  destruct (Upload.upload_file u up) as [u1 [[]|t]]; simpl in *.
  - destruct (IH u1 Hj') as [S2 [B2 E2]].
    split; [congruence|]. split; intros s; [rewrite B2|rewrite E2]; auto.
  - split; [exact S1|]. split; assumption.
Qed.


(** ** The whole run *)

Lemma init_status_other (l : list Upload.UploadEntry)
    (m : gmap string Upload.UploadFileStatus) (j : string) :
  ~ In j (List.map Upload.id l) ->
  fold_left (fun st up => <[Upload.id up := Upload.initial_status]> st) l m !! j
  = m !! j.
Proof.
  revert m. induction l as [|up l IH]; intros m Hj; simpl; [reflexivity|].
  rewrite IH by (intros Hin; apply Hj; right; exact Hin).
  apply lookup_insert_ne. intros Heq. apply Hj. left. exact Heq.
Qed.

Lemma init_status_lookup (l : list Upload.UploadEntry)
    (m : gmap string Upload.UploadFileStatus) (j : string) :
  In j (List.map Upload.id l) ->
  fold_left (fun st up => <[Upload.id up := Upload.initial_status]> st) l m !! j
  = Some Upload.initial_status.
Proof.
  revert m. induction l as [|up l IH]; intros m Hj; simpl; [destruct Hj|].
  destruct (in_dec String.string_dec j (List.map Upload.id l)) as [Hin|Hout].
  - apply IH, Hin.
  - rewrite init_status_other by exact Hout.
    destruct Hj as [<-|Hj]; [apply lookup_insert_eq|contradiction].
Qed.

#[local] Set Warnings "-clear-no-such-hyp".








End UploadProperties.

(** * The properties at work on the sample platform *)

Section Examples.
#[local] Existing Instance Sample.tree.
#[local] Existing Instance Sample.platform.

(** C1: an unlocked vault is still not locked after [lock()]. *)
Lemma lock_assigns_false_witness :
  EncryptedDrive.locked Sample.open_vault = false
  /\ EncryptedDrive.locked (EncryptedDrive.lock Sample.open_vault) = false.
Proof.
  split; [reflexivity|].
  apply (proj1 (lock_assigns_false Sample.open_vault)). reflexivity.
Defined.

(** C2, against the claim: a [save()] within the second of the resident
    event's stamp succeeds with signer and publisher, and leaves the drive
    modified. *)
Lemma save_within_same_second_stays_modified :
  Drive.modified Sample.renamed_docs = true
  /\ (exists signed, snd (Drive.save 100 Sample.renamed_docs) = Return (Some signed))
  /\ Drive.modified (fst (Drive.save 100 Sample.renamed_docs)) <> false.
Proof.
  split; [reflexivity|]. split; [eexists; reflexivity|].
  vm_compute. discriminate.
Qed.

Lemma save_folds_in_newer_event_witness :
  Drive.modified (fst (Drive.save 101 Sample.renamed_docs)) = false
  /\ exists r, Drive.event (fst (Drive.save 101 Sample.renamed_docs)) = Some r
               /\ Nostr.created_at r = 101.
Proof.
  edestruct (proj2 (save_folds_in_newer_event 101 Sample.renamed_docs))
    as [_ [Hnewer _]]; [reflexivity..|].
  edestruct Hnewer as [_ [Hm [_ Hat]]].
  - right. exists Sample.docs_event. split; [reflexivity|]. simpl. lia.
  - reflexivity.
  - reflexivity.
  - split; [exact Hm|]. apply Hat. reflexivity.
Defined.

(** C3, against the claim: a fresh drive has no resident event, yet
    [update] with an event that has no [d] tag does not return [true]. *)
Lemma update_without_identifier_throws :
  Drive.event (Drive.new Sample.alice Sample.relay) = None
  /\ snd (Drive.update Sample.bare_event (Drive.new Sample.alice Sample.relay))
     = Throw Drive.missing_d_tag
  /\ snd (Drive.update Sample.bare_event (Drive.new Sample.alice Sample.relay))
     <> Return true.
Proof. split; [reflexivity|]. split; [reflexivity|discriminate]. Qed.

Lemma update_last_writer_wins_witness :
  snd (Drive.update Sample.docs_event (Drive.new Sample.alice Sample.relay))
  = Return true
  /\ Drive.event Sample.docs_drive = Some Sample.docs_event.
Proof.
  destruct (update_last_writer_wins (Drive.new Sample.alice Sample.relay)
              Sample.docs_event) as [Hreadable _].
  edestruct Hreadable as [Hiff [Hadopt _]]; [reflexivity..|].
  split.
  - apply Hiff. left. reflexivity.
  - apply Hadopt. left. reflexivity.
Defined.

(** C4, against the claim: read on the [docs] drive, an event with a [d]
    tag and no [name] tag gets the name [docs], not the empty string. *)
Lemma readEvent_name_defaults_to_identifier :
  has_tag "name" (Nostr.tags Sample.unnamed_event) = false
  /\ exists m,
      Drive.readEvent (Drive.identifier (Drive._metadata Sample.docs_drive))
        Sample.unnamed_event = Return m
      /\ Drive.name m = "docs" /\ Drive.name m <> "".
Proof.
  split; [reflexivity|]. eexists. split; [reflexivity|].
  split; [reflexivity|discriminate].
Qed.

Lemma readEvent_defaults_witness :
  (exists t, Drive.readEvent "docs" Sample.anonymous_event = Throw t)
  /\ exists m, Drive.readEvent "docs" Sample.unnamed_event = Return m
               /\ Drive.name m = "docs" /\ Drive.description m = "".
Proof.
  split.
  - apply (proj1 (readEvent_defaults "docs" Sample.anonymous_event)). reflexivity.
  - eexists. split; [reflexivity|].
    edestruct (proj2 (readEvent_defaults "docs" Sample.unnamed_event))
      as [Hname Hdescription]; [reflexivity|].
    split; [apply Hname; reflexivity|apply Hdescription; reflexivity].
Defined.

(** C5, against the claim: the same server in a [server] tag and in an [r]
    tag appears twice in the servers list. *)
Lemma readEvent_keeps_duplicate_servers :
  exists m, Drive.readEvent "docs" Sample.mirrored_event = Return m
            /\ Drive.servers m
               = ["https://cdn.example.com/"; "https://cdn.example.com/"]
            /\ ~ NoDup (Drive.servers m).
Proof.
  eexists. split; [reflexivity|]. split; [reflexivity|].
  simpl. intros Hnd. apply NoDup_cons in Hnd as [Hnot _].
  apply Hnot. left.
Qed.

Lemma readEvent_servers_witness :
  exists m, Drive.readEvent "docs" Sample.mirrored_event = Return m
            /\ length (Drive.servers m) = 2%nat.
Proof.
  eexists. split; [reflexivity|].
  edestruct (readEvent_servers "docs" Sample.mirrored_event) as [_ Hlength];
    [reflexivity|].
  rewrite Hlength. reflexivity.
Defined.

(** C6, against the claim: under the empty password the content does not
    decrypt, and the error [unlock] throws is not the one of [decrypt]. *)
Lemma unlock_empty_password_error :
  EncryptedDrive.locked Sample.vault = true
  /\ Drive.event (EncryptedDrive.base Sample.vault) = Some Sample.sealed_event
  /\ (exists ciphertext,
        base64_decode (Nostr.content Sample.sealed_event) = Return ciphertext
        /\ decrypt ciphertext "" = Throw Sample.bad_decrypt)
  /\ snd (EncryptedDrive.unlock "" Sample.vault)
     = Throw EncryptedDrive.no_password_provided
  /\ snd (EncryptedDrive.unlock "" Sample.vault) <> Throw Sample.bad_decrypt.
Proof.
  split; [reflexivity|]. split; [reflexivity|].
  split; [eexists; split; reflexivity|].
  split; [reflexivity|discriminate].
Qed.

Lemma unlock_wrong_password_witness :
  snd (EncryptedDrive.unlock "letmein" Sample.vault) = Throw Sample.bad_decrypt
  /\ EncryptedDrive.locked (fst (EncryptedDrive.unlock "letmein" Sample.vault)) = true
  /\ EncryptedDrive.base (fst (EncryptedDrive.unlock "letmein" Sample.vault))
     = EncryptedDrive.base Sample.vault.
Proof.
  edestruct (unlock_wrong_password Sample.vault "letmein")
    as [Herr [_ [Hlocked [Hbase _]]]]; [reflexivity..|].
  split; [exact Herr|]. split; [exact Hlocked|exact Hbase].
Defined.

(** C7: [getFolder(path, true)] marks the drive modified and emits nothing. *)
Lemma mutating_accessors_witness :
  Drive.modified (fst (Drive.getFolder "/docs" true Sample.docs_drive)) = true
  /\ Drive.log (fst (Drive.getFolder "/docs" true Sample.docs_drive))
     = Drive.log Sample.docs_drive.
Proof.
  destruct (mutating_accessors Sample.docs_drive) as [_ [_ [_ [_ [_ Hfolder]]]]].
  eapply Hfolder. reflexivity.
Defined.

Lemma accepted_files_are_mime_corrected_witness :
  exists e, In e (Upload.files Sample.batch)
            /\ file_type (Upload.file e) = "application/vnd.apple.mpegurl".
Proof.
  destruct (accepted_files_are_mime_corrected
              (Upload.addFile Sample.notes None
                 (Upload.new (Upload.Plain Sample.docs_drive) "inbox"
                    ["https://cdn.example.com/"; "https://odd.example.com/"]
                    Sample.alice)))
    as [Hadd _].
  destruct (Hadd Sample.playlist None) as [e [Hfiles [Hplaylist _]]].
  exists e. split.
  - change (Upload.files Sample.batch) with
      (Upload.files (Upload.addFile Sample.playlist None
         (Upload.addFile Sample.notes None
            (Upload.new (Upload.Plain Sample.docs_drive) "inbox"
               ["https://cdn.example.com/"; "https://odd.example.com/"]
               Sample.alice)))).
    rewrite Hfiles. apply in_or_app. right. left. reflexivity.
  - apply Hplaylist. split; reflexivity.
Defined.




End Examples.

(** * Drive: templates, saving and resetting *)

Section TemplateProperties.
Context `{FileTree} `{Collaborators}.

Lemma unshift_servers_result (srv : list string) (acc result : list Tag) :
  Drive.unshift_servers srv acc = Return result ->
  exists urls,
    Forall2 (fun s u => url_root s = Some u) srv urls
    /\ result = rev (List.map (fun u => ["server"; u]) urls) ++ acc.
Proof.
  revert acc. induction srv as [|s srv IH]; simpl; intros acc Hr.
  - injection Hr as <-. exists []. split; [constructor|reflexivity].
  - unfold new_URL_root in Hr. destruct (url_root s) as [u|] eqn:Hu; [|discriminate].
    destruct (IH _ Hr) as [urls [HF ->]].
    exists (u :: urls). split; [constructor; assumption|].
    simpl. rewrite <- app_assoc. reflexivity.
Qed.

Lemma unshift_servers_malformed (srv : list string) (acc : list Tag) :
  Exists (fun s => url_root s = None) srv ->
  Drive.unshift_servers srv acc = Throw invalid_url.
Proof.
  intros Hex. revert acc. induction Hex as [s srv Hs|s srv _ IH]; intros acc; simpl.
  - unfold new_URL_root. rewrite Hs. reflexivity.
  - unfold new_URL_root. destruct (url_root s); [apply IH|reflexivity].
Qed.

Lemma filter_server_tags (P : Tag -> bool) (urls : list string) :
  (forall u, P ["server"; u] = false) ->
  List.filter P (rev (List.map (fun u => ["server"; u]) urls)) = [].
Proof.
  intros HP. induction urls as [|u urls IH]; simpl; [reflexivity|].
  rewrite List.filter_app. simpl. rewrite HP, app_nil_r. exact IH.
Qed.

Lemma filter_kept_none (P : Tag -> bool) (l : list Tag) :
  (forall t, Drive.kept_tag t = true -> P t = false) ->
  List.filter P (List.filter Drive.kept_tag l) = [].
Proof.
  intros HP. induction l as [|t l IH]; simpl; [reflexivity|].
  destruct (Drive.kept_tag t) eqn:Hk; [|exact IH].
  simpl. rewrite (HP t Hk). exact IH.
Qed.

Lemma kept_tag_excludes (k : string) (t : Tag) :
  In k ["name"; "description"; "d"; "r"; "server"] ->
  Drive.kept_tag t = true -> tag_is k t = false.
Proof.
  unfold Drive.kept_tag. intros Hk Hkept. apply negb_true_iff in Hkept.
  repeat (apply orb_false_iff in Hkept as [Hkept ?]).
  simpl in Hk. destruct Hk as [<-|[<-|[<-|[<-|[<-|[]]]]]]; assumption.
Qed.

(** The shape of every template: header, server tags, carried-over tags. *)
Lemma createEventTemplate_shape (now : Z) (d : Drive.Drive) (template : Nostr.Event) :
  Drive.createEventTemplate now d = Return template ->
  exists urls,
    Forall2 (fun s u => url_root s = Some u)
            (Drive.servers (Drive._metadata d)) urls
    /\ Nostr.tags template
       = ["name"; Drive.name (Drive._metadata d)]
         :: ["description"; Drive.description (Drive._metadata d)]
         :: ["d"; Drive.identifier (Drive._metadata d)]
         :: rev (List.map (fun u => ["server"; u]) urls)
            ++ List.filter Drive.kept_tag
                 (updateTreeInTags (Drive.event_tags d) (Drive.tree d))
    /\ Nostr.kind template = Drive.DRIVE_KIND
    /\ Nostr.created_at template = now
    /\ Nostr.content template = Drive.event_content d
    /\ Nostr.pubkey template = None.
Proof.
  unfold Drive.createEventTemplate. intros Ht.
  destruct (Drive.unshift_servers _ _) as [newTags|] eqn:Hu; [|discriminate].
  destruct (unshift_servers_result _ _ _ Hu) as [urls [HF ->]].
  injection Ht as <-. exists urls. simpl. repeat split. exact HF.
Qed.

Lemma template_filters (now : Z) (d : Drive.Drive)
    (template : Nostr.Event) :
  Drive.createEventTemplate now d = Return template ->
  List.filter (tag_is "name") (Nostr.tags template)
    = [["name"; Drive.name (Drive._metadata d)]]
  /\ List.filter (tag_is "description") (Nostr.tags template)
     = [["description"; Drive.description (Drive._metadata d)]]
  /\ List.filter (tag_is "d") (Nostr.tags template)
     = [["d"; Drive.identifier (Drive._metadata d)]]
  /\ List.filter (tag_is "r") (Nostr.tags template) = []
  /\ exists urls,
       Forall2 (fun s u => url_root s = Some u)
               (Drive.servers (Drive._metadata d)) urls
       /\ List.filter (tag_is "server") (Nostr.tags template)
          = rev (List.map (fun u => ["server"; u]) urls).
Proof.
  intros Ht. destruct (createEventTemplate_shape now d template Ht)
    as [urls [HF [-> _]]].
  assert (Hk : forall k, In k ["name"; "description"; "d"; "r"; "server"] ->
               List.filter (tag_is k)
                 (List.filter Drive.kept_tag
                    (updateTreeInTags (Drive.event_tags d) (Drive.tree d))) = []).
  { intros k Hin. apply filter_kept_none. intros t. apply kept_tag_excludes, Hin. }
  simpl. rewrite !List.filter_app.
  rewrite !filter_server_tags by reflexivity.
  rewrite !Hk by (simpl; tauto).
  repeat split. exists urls. split; [exact HF|].
  rewrite app_nil_r. clear. induction urls as [|u urls IH]; simpl; [reflexivity|].
  rewrite List.filter_app. simpl. f_equal. exact IH.
Qed.

(** X1.  A template carries exactly one [name], one [description] and one
    [d] tag, holding the drive's current values, whatever header tags the
    resident event or the tree encoding brought along; it carries no [r]
    tag; and its [server] tags are the drive's servers, each resolved to
    its origin root, in reverse order. *)
Theorem createEventTemplate_header (now : Z) (d : Drive.Drive)
    (template : Nostr.Event) :
  Drive.createEventTemplate now d = Return template ->
  List.filter (tag_is "name") (Nostr.tags template)
    = [["name"; Drive.name (Drive._metadata d)]]
  /\ List.filter (tag_is "description") (Nostr.tags template)
     = [["description"; Drive.description (Drive._metadata d)]]
  /\ List.filter (tag_is "d") (Nostr.tags template)
     = [["d"; Drive.identifier (Drive._metadata d)]]
  /\ List.filter (tag_is "r") (Nostr.tags template) = []
  /\ exists urls,
       Forall2 (fun s u => url_root s = Some u)
               (Drive.servers (Drive._metadata d)) urls
       /\ List.filter (tag_is "server") (Nostr.tags template)
          = rev (List.map (fun u => ["server"; u]) urls).
Proof. apply template_filters. Qed.

Lemma filter_server_tags_all (urls : list string) :
  Forall (fun u => u <> "") urls ->
  List.filter Drive.is_server_tag (rev (List.map (fun u => ["server"; u]) urls))
  = rev (List.map (fun u => ["server"; u]) urls).
Proof.
  induction 1 as [|u urls Hu _ IH]; simpl; [reflexivity|].
  rewrite List.filter_app. simpl.
  assert (Hs : Drive.is_server_tag ["server"; u] = true).
  { unfold Drive.is_server_tag. simpl.
    destruct (String.eqb u "") eqn:He; [|reflexivity].
    apply String.eqb_eq in He. contradiction. }
  rewrite Hs. f_equal. exact IH.
Qed.

Lemma read_back_servers (urls : list string) :
  Forall (fun u => url_root u = Some u) urls ->
  mapM (fun t => new_URL_root (Drive.tag_1 t))
       (rev (List.map (fun u => ["server"; u]) urls))
  = Return (rev urls).
Proof.
  intros HF. rewrite <- List.map_rev.
  apply Forall_rev in HF. induction HF as [|u l Hu _ IH]; simpl; [reflexivity|].
  unfold new_URL_root at 1. unfold Drive.tag_1 at 1. simpl. rewrite Hu.
  rewrite IH. reflexivity.
Qed.

Lemma tree_tags_are_kept (l : list Tag) :
  List.filter Drive.is_tree_tag (List.filter Drive.kept_tag l)
  = List.filter Drive.is_tree_tag l.
Proof.
  induction l as [|t l IH]; simpl; [reflexivity|].
  destruct (Drive.kept_tag t) eqn:Hk; simpl; [rewrite IH; reflexivity|].
  assert (Ht : Drive.is_tree_tag t = false).
  { unfold Drive.kept_tag in Hk. unfold Drive.is_tree_tag.
    destruct t as [|h t]; [reflexivity|]. simpl in *.
    apply negb_false_iff in Hk.
    destruct (String.eqb h "x") eqn:Hx;
      [apply String.eqb_eq in Hx; subst h; discriminate|].
    destruct (String.eqb h "folder") eqn:Hf;
      [apply String.eqb_eq in Hf; subst h; discriminate|reflexivity]. }
  rewrite Ht. exact IH.
Qed.

Lemma template_reads_back (now : Z) (d : Drive.Drive)
    (template : Nostr.Event) (this_identifier : string) :
  servers_resolve_stably (Drive.servers (Drive._metadata d)) ->
  Drive.identifier (Drive._metadata d) <> "" ->
  Drive.createEventTemplate now d = Return template ->
  exists urls,
    Forall2 (fun s u => url_root s = Some u)
            (Drive.servers (Drive._metadata d)) urls
    /\ Drive.readEvent this_identifier template
       = Return {| Drive.name := Drive.name (Drive._metadata d);
                   Drive.identifier := Drive.identifier (Drive._metadata d);
                   Drive.description := Drive.description (Drive._metadata d);
                   Drive.servers := rev urls;
                   Drive.pubkey := None;
                   Drive.treeTags :=
                     List.filter Drive.is_tree_tag
                       (updateTreeInTags (Drive.event_tags d) (Drive.tree d)) |}.
Proof.
  intros Hstable Hid Ht.
  destruct (createEventTemplate_shape now d template Ht)
    as [urls [HF [Htags [_ [_ [_ Hpub]]]]]].
  exists urls. split; [exact HF|].
  assert (Hne : Forall (fun u => u <> "") urls
                /\ Forall (fun u => url_root u = Some u) urls).
  { clear -HF Hstable. unfold servers_resolve_stably in Hstable.
    induction HF as [|s u srv urls Hu _ IH].
    - split; constructor.
    - destruct (Hstable s u (or_introl eq_refl) Hu) as [Hn Hs].
      destruct IH as [IH1 IH2].
      { intros s' u' Hin. apply Hstable. right. exact Hin. }
      split; constructor; assumption. }
  destruct Hne as [Hnonempty Hfixed].
  unfold Drive.readEvent. rewrite Htags, Hpub.
  cbn [List.filter Drive.is_server_tag Drive.is_tree_tag tag_is String.eqb
       Ascii.eqb Bool.eqb orb andb].
  rewrite !List.filter_app.
  rewrite filter_server_tags_all by exact Hnonempty.
  rewrite (filter_kept_none Drive.is_server_tag).
  2:{ intros t Hk. unfold Drive.is_server_tag.
      rewrite (kept_tag_excludes "r" t), (kept_tag_excludes "server" t);
        simpl; tauto. }
  rewrite app_nil_r, read_back_servers by exact Hfixed.
  rewrite (filter_server_tags Drive.is_tree_tag) by reflexivity.
  rewrite tree_tags_are_kept.
  unfold tag_value. simpl.
  destruct (String.eqb (Drive.identifier (Drive._metadata d)) "") eqn:He.
  { apply String.eqb_eq in He. contradiction. }
  reflexivity.
Qed.

(** X2.  What [createEventTemplate] writes, [readEvent] reads back: on a
    drive with a non-empty identifier the template yields the drive's
    name, description and identifier, the tree tags of the encoded tree,
    no owner key, and the drive's servers resolved to their origin roots
    in reverse order (the [URL] constructor accepting the roots it gave for
    these servers and leaving them as they are). *)
Theorem readEvent_of_template (now : Z) (d : Drive.Drive)
    (template : Nostr.Event) (this_identifier : string) :
  servers_resolve_stably (Drive.servers (Drive._metadata d)) ->
  Drive.identifier (Drive._metadata d) <> "" ->
  Drive.createEventTemplate now d = Return template ->
  exists urls,
    Forall2 (fun s u => url_root s = Some u)
            (Drive.servers (Drive._metadata d)) urls
    /\ Drive.readEvent this_identifier template
       = Return {| Drive.name := Drive.name (Drive._metadata d);
                   Drive.identifier := Drive.identifier (Drive._metadata d);
                   Drive.description := Drive.description (Drive._metadata d);
                   Drive.servers := rev urls;
                   Drive.pubkey := None;
                   Drive.treeTags :=
                     List.filter Drive.is_tree_tag
                       (updateTreeInTags (Drive.event_tags d) (Drive.tree d)) |}.
Proof. apply template_reads_back. Qed.

Lemma template_d_value (now : Z) (d : Drive.Drive) (template : Nostr.Event) :
  Drive.createEventTemplate now d = Return template ->
  tag_value "d" (Nostr.tags template) = Some (Drive.identifier (Drive._metadata d)).
Proof.
  intros Ht. destruct (createEventTemplate_shape now d template Ht)
    as [urls [_ [-> _]]]. reflexivity.
Qed.

Lemma readEvent_falsy_d (i : string) (ev : Nostr.Event) :
  truthy (tag_value "d" (Nostr.tags ev)) = false ->
  exists t, Drive.readEvent i ev = Throw t.
Proof.
  intros Hd. unfold Drive.readEvent. rewrite Hd.
  destruct (mapM _ _); eexists; reflexivity.
Qed.

(** X3.  A [save()] that fails before the event is published changes
    nothing a later [save()] depends on.  A server of the drive that is no
    URL makes it throw before anything is signed, the drive untouched; a
    signer that throws is never followed by a call to the publisher; a
    publisher that throws leaves resident event, metadata, tree and the
    modified flag as they were. *)
Theorem save_failure_keeps_state (now : Z) (d : Drive.Drive) :
  Drive.modified d = true ->
  (Exists (fun s => url_root s = None) (Drive.servers (Drive._metadata d)) ->
     Drive.save now d = (d, Throw invalid_url))
  /\ (forall template t,
        Drive.createEventTemplate now d = Return template ->
        Drive.signer d template = Throw t ->
        Drive.save now d = (Drive.emit (Drive.CallSigner template) d, Throw t))
  /\ (forall template signed t,
        Drive.createEventTemplate now d = Return template ->
        Drive.signer d template = Return signed ->
        Drive.publisher d signed = Throw t ->
        let d' := fst (Drive.save now d) in
        snd (Drive.save now d) = Throw t
        /\ Drive.event d' = Drive.event d
        /\ Drive._metadata d' = Drive._metadata d
        /\ Drive.tree d' = Drive.tree d
        /\ Drive.modified d' = true
        /\ Drive.log d'
           = Drive.log d ++ [Drive.CallSigner template; Drive.CallPublisher signed]).
Proof.
  intros Hm. split; [|split].
  - intros Hex. unfold Drive.save, Drive.createEventTemplate. rewrite Hm. simpl.
    rewrite unshift_servers_malformed by exact Hex. reflexivity.
  - intros template t Ht Hs. unfold Drive.save. rewrite Hm, Ht. simpl.
    rewrite Hs. reflexivity.
  - intros template signed t Ht Hs Hp. unfold Drive.save. rewrite Hm, Ht. simpl.
    rewrite Hs. simpl. rewrite Hp. simpl.
    repeat split; [exact Hm|]. rewrite <- app_assoc. reflexivity.
Qed.

(** X4.  Saving a drive whose identifier is still empty publishes and then
    fails: when signer and publisher succeed, the signer keeps the tags and
    the signed event supersedes the resident one, [save()] throws after the
    publisher was called; the signed event is resident, while metadata and
    tree are not re-derived and the drive stays modified. *)
Theorem save_with_empty_identifier (now : Z) (d : Drive.Drive)
    (template signed : Nostr.Event) :
  Drive.modified d = true ->
  Drive.identifier (Drive._metadata d) = "" ->
  Drive.createEventTemplate now d = Return template ->
  Drive.signer d template = Return signed ->
  Nostr.tags signed = Nostr.tags template ->
  Drive.publisher d signed = Return tt ->
  supersedes signed (Drive.event d) ->
  let d' := fst (Drive.save now d) in
  (exists t, snd (Drive.save now d) = Throw t)
  /\ In (Drive.CallPublisher signed) (Drive.log d')
  /\ Drive.event d' = Some signed
  /\ Drive.modified d' = true
  /\ Drive._metadata d' = Drive._metadata d
  /\ Drive.tree d' = Drive.tree d.
Proof.
  intros Hm Hid Ht Hs Htags Hp Hsup.
  apply is_newer_supersedes in Hsup.
  destruct (readEvent_falsy_d (Drive.identifier (Drive._metadata d)) signed)
    as [t Hr].
  { rewrite Htags, (template_d_value now d template Ht), Hid. reflexivity. }
  unfold Drive.save. rewrite Hm, Ht. simpl. rewrite Hs. simpl. rewrite Hp.
  unfold Drive.update, Drive.resetFromEvent. simpl. rewrite Hsup, Hr. simpl.
  split; [exists t; reflexivity|].
  split; [apply in_or_app; right; left; reflexivity|].
  repeat split. exact Hm.
Qed.

(** X5.  [reset()] on a drive that never had a resident event clears the
    modified flag and emits [change], and keeps the tree and the metadata
    with every local change in them; a [save()] after it does nothing, so
    those changes are no longer pending. *)
Theorem reset_without_event_keeps_changes (now : Z) (d : Drive.Drive) :
  Drive.event d = None ->
  Drive.modified d = true ->
  let d' := fst (Drive.reset d) in
  snd (Drive.reset d) = Return tt
  /\ Drive.tree d' = Drive.tree d
  /\ Drive._metadata d' = Drive._metadata d
  /\ Drive.modified d' = false
  /\ Drive.log d' = Drive.log d ++ [Drive.EmitChange]
  /\ Drive.save now d' = (d', Return None).
Proof.
  intros He Hm. unfold Drive.reset, Drive.resetFromEvent. rewrite Hm, He.
  simpl. repeat split.
Qed.

Lemma readEvent_named (i j : string) (ev : Nostr.Event) :
  is_Some (tag_value "name" (Nostr.tags ev)) ->
  Drive.readEvent i ev = Drive.readEvent j ev.
Proof.
  intros [n Hn]. unfold Drive.readEvent. rewrite Hn. reflexivity.
Qed.

(** X6.  [reset()] undoes local changes: if [update(e)] returned [true] and
    [e] carries a name, then on any modified drive on which [e] is still
    resident, whatever was done to its metadata and tree since, [reset()]
    brings back the metadata and the tree that [update(e)] installed and
    clears the modified flag. *)
Theorem reset_restores_adopted_event (e : Nostr.Event) (d d1 d2 : Drive.Drive) :
  Drive.update e d = (d1, Return true) ->
  is_Some (tag_value "name" (Nostr.tags e)) ->
  Drive.event d2 = Some e ->
  Drive.modified d2 = true ->
  let d3 := fst (Drive.reset d2) in
  snd (Drive.reset d2) = Return tt
  /\ Drive._metadata d3 = Drive._metadata d1
  /\ Drive.tree d3 = Drive.tree d1
  /\ Drive.event d3 = Some e
  /\ Drive.modified d3 = false.
Proof.
  intros Hu Hname He Hm.
  unfold Drive.update, Drive.resetFromEvent in Hu.
  destruct (Drive.is_newer e (Drive.event d)); [|discriminate]. simpl in Hu.
  destruct (Drive.readEvent (Drive.identifier (Drive._metadata d)) e)
    as [m|t] eqn:Hr; [|discriminate].
  destruct (createTreeFromTags (Drive.treeTags m)) as [tr|t] eqn:Htr;
    [|discriminate].
  injection Hu as <-.
  unfold Drive.reset, Drive.resetFromEvent. rewrite Hm, He.
  rewrite (readEvent_named _ (Drive.identifier (Drive._metadata d)) e Hname), Hr.
  rewrite Htr. simpl. repeat split. exact He.
Qed.

End TemplateProperties.

Section FromEventProperties.
Context `{FileTree} `{Collaborators} `{!Retrieval}.

Lemma readEvent_name_default (i : string) (ev : Nostr.Event)
    (m : Drive.DriveMetadata) :
  Drive.readEvent i ev = Return m ->
  has_tag "name" (Nostr.tags ev) = false -> Drive.name m = i.
Proof.
  unfold Drive.readEvent. intros Hr Hn.
  destruct (mapM _ _); [|discriminate].
  destruct (truthy _); [|discriminate].
  injection Hr as <-. simpl. rewrite (tag_value_absent _ _ Hn). reflexivity.
Qed.

(** X7.  [Drive.fromEvent] on an event without a [d] tag throws; when it
    returns, the drive holds the event as resident, is not modified, has
    emitted [change] then [update], and its metadata are what [readEvent]
    makes of the event on a drive with an empty identifier: an event
    without a [name] tag gives the empty name. *)
Theorem fromEvent_reads_on_fresh_drive (e : Nostr.Event) (sg : Nostr.Signer)
    (pb : Nostr.Publisher) :
  (has_tag "d" (Nostr.tags e) = false -> exists t, Drive.fromEvent e sg pb = Throw t)
  /\ (forall drive, Drive.fromEvent e sg pb = Return drive ->
        Drive.event drive = Some e
        /\ Drive.modified drive = false
        /\ Drive.readEvent "" e = Return (Drive._metadata drive)
        /\ (has_tag "name" (Nostr.tags e) = false ->
            Drive.name (Drive._metadata drive) = "")
        /\ Drive.log drive = [Drive.EmitChange; Drive.EmitUpdate]).
Proof.
  unfold Drive.fromEvent, Drive.update, Drive.resetFromEvent. simpl. split.
  - intros Hd. destruct (readEvent_without_d "" e Hd) as [t [Ht _]].
    rewrite Ht. exists t. reflexivity.
  - intros drive. destruct (Drive.readEvent "" e) as [m|t] eqn:Hr; [|discriminate].
    destruct (createTreeFromTags (Drive.treeTags m)) as [tr|t]; [|discriminate].
    simpl. intros Hq. injection Hq as <-. simpl.
    split; [reflexivity|]. split; [reflexivity|]. split; [reflexivity|].
    split; [|reflexivity].
    intros Hn. exact (readEvent_name_default "" e m Hr Hn).
Qed.

End FromEventProperties.


(** * Drive: locating and downloading files *)

Section RetrievalProperties.
Context `{FileTree} `{Collaborators} `{!Retrieval}.

Lemma includes_In (server : string) (servers : list string) :
  existsb (String.eqb server) servers = true <-> In server servers.
Proof.
  rewrite existsb_exists. split.
  - intros [x [Hin Heq]]. apply String.eqb_eq in Heq. subst x. exact Hin.
  - intros Hin. exists server. split; [exact Hin|apply String.eqb_refl].
Qed.

Lemma filter_swap (p q : string -> bool) (l : list string) :
  List.filter p (List.filter q l) = List.filter q (List.filter p l).
Proof.
  induction l as [|x l IH]; simpl; [reflexivity|].
  destruct (q x) eqn:Hq, (p x) eqn:Hp; simpl; rewrite ?Hq, ?Hp, IH; reflexivity.
Qed.

Lemma filter_rejected (p : string -> bool) (a : string) (l : list string) :
  p a = false ->
  List.filter p (List.filter (fun y => negb (String.eqb a y)) l) = List.filter p l.
Proof.
  intros Ha. induction l as [|x l IH]; simpl; [reflexivity|].
  destruct (String.eqb a x) eqn:Hx; simpl.
  - apply String.eqb_eq in Hx. subst x. rewrite Ha. exact IH.
  - rewrite IH. reflexivity.
Qed.

Lemma filter_first_occurrences (p : string -> bool) (l : list string) :
  List.filter p (first_occurrences l) = first_occurrences (List.filter p l).
Proof.
  induction l as [|x l IH]; simpl; [reflexivity|].
  destruct (p x) eqn:Hp; simpl.
  - rewrite filter_swap, IH. reflexivity.
  - rewrite (filter_rejected p x _ Hp). exact IH.
Qed.

Lemma filter_not_listed (servers : list string) (a : string) (l : list string) :
  List.filter (fun s => negb (existsb (String.eqb s) (servers ++ [a]))) l
  = List.filter (fun y => negb (String.eqb a y))
      (List.filter (fun s => negb (existsb (String.eqb s) servers)) l).
Proof.
  induction l as [|x l IH]; simpl; [reflexivity|].
  rewrite existsb_app. simpl. rewrite orb_false_r, (String.eqb_sym x a).
  destruct (existsb (String.eqb x) servers); simpl; [exact IH|].
  destruct (String.eqb a x); simpl; rewrite IH; reflexivity.
Qed.

(** The loop appends the extra servers the list lacks, at their first
    occurrence. *)
Lemma merge_servers_order (servers additionalServers : list string) :
  merge_servers servers additionalServers
  = servers
    ++ first_occurrences
         (List.filter (fun s => negb (existsb (String.eqb s) servers))
            additionalServers).
Proof.
  revert servers. induction additionalServers as [|a rest IH]; intros servers; simpl.
  - symmetry. apply app_nil_r.
  - destruct (existsb (String.eqb a) servers) eqn:Hinc; simpl; [apply IH|].
    rewrite IH, <- app_assoc. simpl. do 2 f_equal.
    rewrite filter_not_listed. symmetry. apply filter_first_occurrences.
Qed.

(** X8.  The server list that [getFileURL] and [downloadFile] walk is the
    drive's own list, unchanged and in front, followed by those extra
    servers that the drive does not list, each once, in the order in which
    they were given: of a server given several times the first mention
    counts. *)
Theorem merge_servers_appends_new (servers additionalServers : list string) :
  let extra :=
    first_occurrences
      (List.filter (fun s => negb (existsb (String.eqb s) servers))
         additionalServers) in
  merge_servers servers additionalServers = servers ++ extra
  /\ NoDup extra
  /\ (forall x, In x extra <-> In x additionalServers /\ ~ In x servers)
  /\ (NoDup servers -> NoDup (merge_servers servers additionalServers)).
Proof.
  assert (Hmain : exists extra,
    merge_servers servers additionalServers = servers ++ extra
    /\ NoDup extra
    /\ (forall x, In x extra <-> In x additionalServers /\ ~ In x servers)).
  { revert servers. induction additionalServers as [|a rest IH]; intros servers; simpl.
    - exists []. split; [symmetry; apply app_nil_r|]. split; [constructor|].
      intros x. simpl. tauto.
    - destruct (existsb (String.eqb a) servers) eqn:Hinc.
      + apply includes_In in Hinc.
        destruct (IH servers) as [extra [Hm [Hnd Hiff]]].
        exists extra. split; [exact Hm|]. split; [exact Hnd|].
        intros x. rewrite Hiff. split; [tauto|].
        intros [[<-|Hx] Hnot]; [contradiction|tauto].
      + assert (Hnot : ~ In a servers).
        { intros Hin. apply includes_In in Hin. congruence. }
        destruct (IH (servers ++ [a])) as [extra [Hm [Hnd Hiff]]].
        exists (a :: extra). split; [rewrite Hm, <- app_assoc; reflexivity|].
        split.
        * apply NoDup_cons. split; [|exact Hnd].
          rewrite list_elem_of_In. intros Hin. apply Hiff in Hin as [_ Hc].
          apply Hc, in_or_app. right. left. reflexivity.
        * intros x. simpl. rewrite Hiff, in_app_iff. simpl.
          destruct (String.string_dec a x) as [->|Hne]; [tauto|].
          split; [tauto|]. intros [[Heq|Hx] Hs]; [contradiction|].
          right. split; [exact Hx|]. intros [Hc|[Hc|[]]]; contradiction. }
  destruct Hmain as [extra [Hm [Hnd Hiff]]].
  assert (Hextra : extra
                   = first_occurrences
                       (List.filter (fun s => negb (existsb (String.eqb s) servers))
                          additionalServers)).
  { apply (app_inv_head servers). rewrite <- Hm. apply merge_servers_order. }
  cbv zeta. rewrite <- Hextra.
  split; [exact Hm|]. split; [exact Hnd|]. split; [exact Hiff|].
  intros Hs. rewrite Hm. apply NoDup_app. split; [exact Hs|]. split; [|exact Hnd].
  intros x Hx Hx'. rewrite list_elem_of_In in Hx, Hx'.
  apply Hiff in Hx' as [_ Hc]. contradiction.
Qed.

Lemma merge_servers_prefix (servers additionalServers : list string) :
  exists extra, merge_servers servers additionalServers = servers ++ extra.
Proof.
  revert servers. induction additionalServers as [|a rest IH]; intros servers; simpl.
  - exists []. symmetry. apply app_nil_r.
  - destruct (existsb (String.eqb a) servers); [apply IH|].
    destruct (IH (servers ++ [a])) as [extra Hm].
    exists (a :: extra). rewrite Hm, <- app_assoc. reflexivity.
Qed.

(** X9.  [getFileURL] builds the address on the first server of the
    drive: when the path leads to a file, the result is the address of
    that file (its hash and extension) resolved against the first server
    the drive lists, whatever extra servers are passed in; a drive without
    servers uses the first extra server, and with no server at all the
    constructor is called without a base.  When the path leads to no
    file, the error of the lookup is thrown.  The call leaves resident
    event, metadata, modified flag and emitted notes alone. *)
Theorem getFileURL_uses_first_server (path : Path) (d : Drive.Drive) :
  (forall d' file,
      Drive.getFile path d = (d', Return file) ->
      (forall s rest extra,
          Drive.servers (Drive._metadata d) = s :: rest ->
          Drive.getFileURL path extra d = (d', address_on file (Some s)))
      /\ (forall a rest,
          Drive.servers (Drive._metadata d) = [] ->
          Drive.getFileURL path (a :: rest) d = (d', address_on file (Some a)))
      /\ (Drive.servers (Drive._metadata d) = [] ->
          Drive.getFileURL path [] d = (d', address_on file None)))
  /\ (forall d' t extra,
      Drive.getFile path d = (d', Throw t) ->
      Drive.getFileURL path extra d = (d', Throw t))
  /\ (forall extra,
      let d' := fst (Drive.getFileURL path extra d) in
      Drive.event d' = Drive.event d /\ Drive._metadata d' = Drive._metadata d
      /\ Drive.modified d' = Drive.modified d /\ Drive.log d' = Drive.log d).
Proof.
  assert (Hurl : forall d' file servers,
            Drive.getFile path d = (d', Return file) ->
            merge_servers (Drive.servers (Drive._metadata d)) servers
              = merge_servers (Drive.servers (Drive._metadata d')) servers
            /\ forall extra,
                 Drive.getFileURL path extra d
                 = (d', address_on file
                          (head (merge_servers (Drive.servers (Drive._metadata d))
                                   extra)))).
  { intros d' file servers Hg. unfold Drive.getFileURL. rewrite Hg.
    unfold Drive.getFile in Hg.
    destruct (tree_getFile (Drive.tree d) path) as [tr r].
    injection Hg as <- _. simpl. split; [reflexivity|].
    intros extra. unfold address_on. destruct (url_resolve _ _); reflexivity. }
  split; [|split].
  - intros d' file Hg. destruct (Hurl d' file [] Hg) as [_ Hu].
    split; [|split].
    + intros s rest extra Hs. rewrite Hu, Hs.
      destruct (merge_servers_prefix (s :: rest) extra) as [e ->]. reflexivity.
    + intros a rest Hs. rewrite Hu, Hs. simpl.
      destruct (merge_servers_prefix [a] rest) as [e ->]. reflexivity.
    + intros Hs. rewrite Hu, Hs. reflexivity.
  - intros d' t extra Hg. unfold Drive.getFileURL. rewrite Hg. reflexivity.
  - intros extra. unfold Drive.getFileURL, Drive.getFile.
    destruct (tree_getFile (Drive.tree d) path) as [tr [file|t]]; simpl;
      [|repeat split].
    destruct (url_resolve _ _); simpl; repeat split.
Qed.

Lemma first_success_some {A : Type} (attempt : string -> Outcome A)
    (servers : list string) (a : A) :
  first_success attempt servers = Some a <->
  exists before server after,
    servers = before ++ server :: after
    /\ Forall (fun s => exists t, attempt s = Throw t) before
    /\ attempt server = Return a.
Proof.
  induction servers as [|s servers IH]; simpl.
  - split; [discriminate|]. intros [before [server [after [Heq _]]]].
    destruct before; discriminate.
  - destruct (attempt s) as [a'|t] eqn:Hs.
    + split.
      * intros Hq. injection Hq as ->. exists [], s, servers.
        split; [reflexivity|]. split; [constructor|exact Hs].
      * intros [before [server [after [Heq [Hfail Hok]]]]].
        destruct before as [|b before]; simpl in Heq; injection Heq as -> ->.
        -- congruence.
        -- apply Forall_cons in Hfail as [[t Ht] _]. congruence.
    + rewrite IH. split.
      * intros [before [server [after [-> [Hfail Hok]]]]].
        exists (s :: before), server, after. split; [reflexivity|].
        split; [constructor; [exists t; exact Hs|exact Hfail]|exact Hok].
      * intros [before [server [after [Heq [Hfail Hok]]]]].
        destruct before as [|b before]; simpl in Heq; injection Heq as -> ->.
        -- congruence.
        -- apply Forall_cons in Hfail as [_ Hfail].
           exists before, server, after. split; [reflexivity|]. split; assumption.
Qed.

Lemma first_success_none {A : Type} (attempt : string -> Outcome A)
    (servers : list string) :
  first_success attempt servers = None <->
  Forall (fun s => exists t, attempt s = Throw t) servers.
Proof.
  induction servers as [|s servers IH]; simpl.
  - split; [constructor|reflexivity].
  - destruct (attempt s) as [a|t] eqn:Hs.
    + split; [discriminate|]. intros Hall.
      apply Forall_cons in Hall as [[t Ht] _]. congruence.
    + rewrite IH. split.
      * intros Hall. constructor; [exists t; exact Hs|exact Hall].
      * intros Hall. apply Forall_cons in Hall as [_ Hall]. exact Hall.
Qed.

(** X10.  [downloadFile] throws only when the path does not lead to a
    file.  Otherwise it walks the drive's servers, then the extra ones: it
    resolves to [null] exactly when the download fails on every one of
    them, and otherwise to the bytes of the first server that delivers,
    every server before it having failed, under the name and the type of
    the file in the tree. *)
Theorem downloadFile_first_server_that_delivers (path : Path)
    (additionalServers : list string) (d d' : Drive.Drive) (file : TreeFile) :
  Drive.getFile path d = (d', Return file) ->
  let servers := merge_servers (Drive.servers (Drive._metadata d)) additionalServers in
  let fetch := fun server => downloadBlob server (treefile_sha256 file) in
  fst (Drive.downloadFile path additionalServers d) = d'
  /\ (exists result, snd (Drive.downloadFile path additionalServers d) = Return result)
  /\ (snd (Drive.downloadFile path additionalServers d) = Return None <->
      Forall (fun s => exists t, fetch s = Throw t) servers)
  /\ (forall f, snd (Drive.downloadFile path additionalServers d) = Return (Some f) <->
      exists before server after data,
        servers = before ++ server :: after
        /\ Forall (fun s => exists t, fetch s = Throw t) before
        /\ fetch server = Return data
        /\ f = Drive.downloaded file data).
Proof.
  intros Hg. simpl. unfold Drive.downloadFile. rewrite Hg.
  assert (Hmeta : Drive._metadata d' = Drive._metadata d).
  { unfold Drive.getFile in Hg. destruct (tree_getFile _ _) as [tr r].
    injection Hg as <- _. reflexivity. }
  rewrite Hmeta. simpl.
  split; [reflexivity|]. split; [eexists; reflexivity|]. split.
  - rewrite <- first_success_none.
    destruct (first_success _ _); simpl; split; congruence.
  - intros f. split.
    + destruct (first_success _ _) as [data|] eqn:Hf; simpl; [|discriminate].
      intros Hq. injection Hq as <-. apply first_success_some in Hf
        as [before [server [after [Heq [Hfail Hok]]]]].
      exists before, server, after, data. repeat split; assumption.
    + intros [before [server [after [data [Heq [Hfail [Hok ->]]]]]]].
      assert (Hf : first_success
                (fun server0 => downloadBlob server0 (treefile_sha256 file))
                (merge_servers (Drive.servers (Drive._metadata d)) additionalServers)
              = Some data).
      { apply first_success_some. exists before, server, after.
        repeat split; assumption. }
      rewrite Hf. reflexivity.
Qed.

End RetrievalProperties.


(** * EncryptedDrive: the lock state over the drive's life *)

Section LockLifeProperties.
Context `{FileTree} `{Collaborators}.

(** X11.  After [lock()] on an unlocked drive the password is gone while
    [locked] is [false]; from then on [unlock] throws "Already unlocked"
    for every password, [setPassword] has no effect, and [encryptBlob]
    throws "No password provided": the drive can neither be used nor
    unlocked again. *)
Theorem lock_then_unlock_is_refused (d : EncryptedDrive.EncryptedDrive)
    (ev : Nostr.Event) :
  EncryptedDrive.locked d = false ->
  Drive.event (EncryptedDrive.base d) = Some ev ->
  let d' := EncryptedDrive.lock d in
  (forall pw, EncryptedDrive.unlock pw d' = (d', Throw EncryptedDrive.already_unlocked))
  /\ (forall pw n, EncryptedDrive.setPassword pw n d' = d')
  /\ (forall blob, EncryptedDrive.encryptBlob blob d'
                   = Throw EncryptedDrive.no_password_provided).
Proof.
  intros Hl He. unfold EncryptedDrive.lock. rewrite Hl. simpl.
  split; [|split].
  - intros pw. unfold EncryptedDrive.unlock. simpl. rewrite He. reflexivity.
  - intros pw n. reflexivity.
  - intros blob. reflexivity.
Qed.

Lemma read_logn_range (tags : list Tag) :
  1 <= EncryptedDrive.read_logn tags <= 22.
Proof.
  unfold EncryptedDrive.read_logn, EncryptedDrive.DEFAULT_SCRYPT_LOGN.
  destruct (parseInt _) as [n|]; [|lia].
  destruct ((0 <? n) && (n <=? 22)) eqn:Hn; [|lia].
  apply andb_true_iff in Hn as [Hlo Hhi].
  apply Z.ltb_lt in Hlo. apply Z.leb_le in Hhi. lia.
Qed.

(** X12.  [update] on a locked drive never throws.  An event that
    supersedes the resident one becomes resident, and three things are
    read from it: the identifier (the empty string when the event has no
    [d] tag), the owner key when the event carries one (the key held
    before stays otherwise), and the cost, which is the number that
    [parseInt] makes of the [scrypt-logn] tag when that number lies in
    1..22 and the default of 10 in every other case.  Name, description,
    servers, tree, modified flag, lock and password stay, and nothing is
    emitted.  Any other event is ignored. *)
Theorem locked_update_reads_public_tags (ev : Nostr.Event)
    (d : EncryptedDrive.EncryptedDrive) :
  EncryptedDrive.locked d = true ->
  (supersedes ev (Drive.event (EncryptedDrive.base d)) ->
     let d' := fst (EncryptedDrive.update ev d) in
     let m := Drive._metadata (EncryptedDrive.base d) in
     let m' := Drive._metadata (EncryptedDrive.base d') in
     snd (EncryptedDrive.update ev d) = Return true
     /\ Drive.event (EncryptedDrive.base d') = Some ev
     /\ Drive.identifier m' = default "" (tag_value "d" (Nostr.tags ev))
     /\ (forall key, Nostr.pubkey ev = Some key -> Drive.pubkey m' = Some key)
     /\ (Nostr.pubkey ev = None -> Drive.pubkey m' = Drive.pubkey m)
     /\ (forall n,
          parseInt (default "" (tag_value "scrypt-logn" (Nostr.tags ev))) = Some n ->
          0 < n <= 22 -> EncryptedDrive.logn d' = n)
     /\ (forall n,
          parseInt (default "" (tag_value "scrypt-logn" (Nostr.tags ev))) = Some n ->
          ~ 0 < n <= 22 -> EncryptedDrive.logn d' = EncryptedDrive.DEFAULT_SCRYPT_LOGN)
     /\ (parseInt (default "" (tag_value "scrypt-logn" (Nostr.tags ev))) = None ->
         EncryptedDrive.logn d' = EncryptedDrive.DEFAULT_SCRYPT_LOGN)
     /\ 1 <= EncryptedDrive.logn d' <= 22
     /\ Drive.name m' = Drive.name m
     /\ Drive.description m' = Drive.description m
     /\ Drive.servers m' = Drive.servers m
     /\ Drive.treeTags m' = Drive.treeTags m
     /\ Drive.tree (EncryptedDrive.base d') = Drive.tree (EncryptedDrive.base d)
     /\ Drive.modified (EncryptedDrive.base d') = Drive.modified (EncryptedDrive.base d)
     /\ Drive.log (EncryptedDrive.base d') = Drive.log (EncryptedDrive.base d)
     /\ EncryptedDrive.locked d' = true
     /\ EncryptedDrive.password d' = EncryptedDrive.password d)
  /\ (~ supersedes ev (Drive.event (EncryptedDrive.base d)) ->
      EncryptedDrive.update ev d = (d, Return false)).
Proof.
  intros Hl. unfold EncryptedDrive.update. rewrite Hl. simpl. split.
  - intros Hs. apply is_newer_supersedes in Hs. rewrite Hs. simpl.
    pose proof (read_logn_range (Nostr.tags ev)) as Hrange.
    split; [reflexivity|]. split; [reflexivity|]. split; [reflexivity|].
    split; [intros key ->; reflexivity|].
    split; [intros ->; reflexivity|].
    unfold EncryptedDrive.read_logn in *.
    split; [|split; [|split]].
    + intros n -> Hn.
      replace ((0 <? n) && (n <=? 22)) with true; [reflexivity|].
      symmetry. apply andb_true_iff. split; [apply Z.ltb_lt|apply Z.leb_le]; lia.
    + intros n -> Hn.
      destruct ((0 <? n) && (n <=? 22)) eqn:Hb; [|reflexivity].
      exfalso. apply Hn. apply andb_true_iff in Hb as [Hlo Hhi].
      apply Z.ltb_lt in Hlo. apply Z.leb_le in Hhi. lia.
    + intros ->. reflexivity.
    + repeat split; try reflexivity; try lia. exact Hl.
  - intros Hn.
    destruct (Drive.is_newer ev (Drive.event (EncryptedDrive.base d))) eqn:Hb;
      [|reflexivity].
    exfalso. apply Hn, is_newer_supersedes, Hb.
Qed.

(** X13.  [save()] on a locked drive (one that was given its password with
    [setPassword] and never unlocked) calls signer and publisher and
    returns the signed event, but leaves the drive modified: the locked
    branch of [update] does not clear the flag, so the next [save()]
    publishes again.  The signed event becomes resident when it supersedes
    the resident one; when it does not (a second save within the same
    second), the resident event stays. *)
Theorem save_while_locked_stays_modified (now : Z)
    (d : EncryptedDrive.EncryptedDrive) (template signed : Nostr.Event) :
  EncryptedDrive.locked d = true ->
  Drive.modified (EncryptedDrive.base d) = true ->
  EncryptedDrive.createEventTemplate now d = Return template ->
  Drive.signer (EncryptedDrive.base d) template = Return signed ->
  Drive.publisher (EncryptedDrive.base d) signed = Return tt ->
  let d' := fst (EncryptedDrive.save now d) in
  snd (EncryptedDrive.save now d) = Return (Some signed)
  /\ Drive.modified (EncryptedDrive.base d') = true
  /\ EncryptedDrive.locked d' = true
  /\ Drive.log (EncryptedDrive.base d')
     = Drive.log (EncryptedDrive.base d)
       ++ [Drive.CallSigner template; Drive.CallPublisher signed]
  /\ (supersedes signed (Drive.event (EncryptedDrive.base d)) ->
      Drive.event (EncryptedDrive.base d') = Some signed)
  /\ (~ supersedes signed (Drive.event (EncryptedDrive.base d)) ->
      Drive.event (EncryptedDrive.base d') = Drive.event (EncryptedDrive.base d)).
Proof.
  intros Hl Hm Ht Hs Hp.
  unfold EncryptedDrive.save. rewrite Hm, Ht. simpl. rewrite Hs. simpl. rewrite Hp.
  unfold EncryptedDrive.update. simpl. rewrite Hl. simpl.
  destruct (Drive.is_newer signed (Drive.event (EncryptedDrive.base d))) eqn:Hb;
    simpl.
  - split; [reflexivity|]. split; [exact Hm|]. split; [exact Hl|].
    split; [rewrite <- app_assoc; reflexivity|].
    split; [reflexivity|].
    intros Hn. exfalso. apply Hn, is_newer_supersedes, Hb.
  - split; [reflexivity|]. split; [exact Hm|]. split; [exact Hl|].
    split; [rewrite <- app_assoc; reflexivity|].
    split; [|reflexivity].
    intros Hsup. apply is_newer_supersedes in Hsup. congruence.
Qed.

(** X14.  The template of an encrypted drive shows two tags and no more:
    the [d] tag with the identifier and the [scrypt-logn] tag with the
    cost.  Name, description, servers and tree travel only inside the
    content, which is the base64 of the encryption of the plain template's
    tags under the password and the cost. *)
Theorem encrypted_template_public_tags (now : Z)
    (d : EncryptedDrive.EncryptedDrive) (template : Nostr.Event) :
  EncryptedDrive.createEventTemplate now d = Return template ->
  Nostr.tags template
    = [["d"; Drive.identifier (Drive._metadata (EncryptedDrive.base d))];
       ["scrypt-logn"; String_of (EncryptedDrive.logn d)]]
  /\ Nostr.kind template = EncryptedDrive.ENCRYPTED_DRIVE_KIND
  /\ Nostr.created_at template = now
  /\ exists pw plain data,
       EncryptedDrive.password d = Some pw /\ pw <> ""
       /\ Drive.createEventTemplate now (EncryptedDrive.base d) = Return plain
       /\ encrypt (stringify_tags (Nostr.tags plain)) pw (EncryptedDrive.logn d)
          = Return data
       /\ Nostr.content template = base64_encode data.
Proof.
  unfold EncryptedDrive.createEventTemplate. intros Ht.
  destruct (EncryptedDrive.password d) as [pw|] eqn:Hpw; [|discriminate].
  simpl in Ht. destruct (String.eqb pw "") eqn:Hne; [discriminate|]. simpl in Ht.
  destruct (Drive.createEventTemplate now (EncryptedDrive.base d))
    as [plain|] eqn:Hplain; [|discriminate].
  destruct (encrypt _ _ _) as [data|] eqn:Henc; [|discriminate].
  injection Ht as <-. simpl.
  destruct (template_filters now _ plain Hplain) as [_ [_ [Hd _]]].
  destruct (createEventTemplate_shape now _ plain Hplain) as [_ [_ [_ [_ [Hat _]]]]].
  rewrite Hd. split; [reflexivity|]. split; [reflexivity|]. split; [exact Hat|].
  exists pw, plain, data. repeat split; try assumption.
  intros ->. discriminate.
Qed.

Lemma readEvent_reads_tags (i : string) (e1 e2 : Nostr.Event) :
  Nostr.tags e1 = Nostr.tags e2 -> Nostr.pubkey e1 = Nostr.pubkey e2 ->
  Drive.readEvent i e1 = Drive.readEvent i e2.
Proof. intros Ht Hp. unfold Drive.readEvent. rewrite Ht, Hp. reflexivity. Qed.

(** X15.  An encrypted drive reads back what it writes: with a non-empty
    identifier, once the content of the drive's template opens under the
    drive's password to the tags of the plain template, [readEvent] on
    that template marks the drive unlocked and returns the drive's name,
    description and identifier, the tree tags of the encoded tree and the
    servers resolved to their origin roots in reverse order. *)
Theorem encrypted_template_reads_back (now : Z)
    (d : EncryptedDrive.EncryptedDrive) (pw : string)
    (plain template : Nostr.Event) :
  EncryptedDrive.password d = Some pw ->
  Drive.createEventTemplate now (EncryptedDrive.base d) = Return plain ->
  EncryptedDrive.createEventTemplate now d = Return template ->
  opens_to (Nostr.content template) pw (Nostr.tags plain) ->
  servers_resolve_stably (Drive.servers (Drive._metadata (EncryptedDrive.base d))) ->
  Drive.identifier (Drive._metadata (EncryptedDrive.base d)) <> "" ->
  let b := EncryptedDrive.base d in
  exists urls,
    Forall2 (fun s u => url_root s = Some u) (Drive.servers (Drive._metadata b)) urls
    /\ EncryptedDrive.readEvent template d
       = (EncryptedDrive.with_locked false d,
          Return {| Drive.name := Drive.name (Drive._metadata b);
                    Drive.identifier := Drive.identifier (Drive._metadata b);
                    Drive.description := Drive.description (Drive._metadata b);
                    Drive.servers := rev urls;
                    Drive.pubkey := None;
                    Drive.treeTags :=
                      List.filter Drive.is_tree_tag
                        (updateTreeInTags (Drive.event_tags b) (Drive.tree b)) |}).
Proof.
  intros Hpw Hplain Ht [ciphertext [data [Hb [Hd Hj]]]] Hstable Hid. simpl.
  assert (Hne : String.eqb pw "" = false).
  { unfold EncryptedDrive.createEventTemplate in Ht. rewrite Hpw in Ht.
    simpl in Ht. destruct (String.eqb pw ""); [discriminate|reflexivity]. }
  assert (Hpub : Nostr.pubkey template = None).
  { unfold EncryptedDrive.createEventTemplate in Ht. rewrite Hpw, Hplain in Ht.
    simpl in Ht. rewrite Hne in Ht. simpl in Ht.
    destruct (encrypt _ _ _); [|discriminate]. injection Ht as <-. reflexivity. }
  unfold EncryptedDrive.readEvent. rewrite Hpw. simpl. rewrite Hne. simpl.
  rewrite Hb, Hd, Hj.
  destruct (template_reads_back now _ plain
              (Drive.identifier (Drive._metadata (EncryptedDrive.base d)))
              Hstable Hid Hplain) as [urls [HF Hr]].
  exists urls. split; [exact HF|].
  rewrite <- Hr. f_equal. apply readEvent_reads_tags; [reflexivity|].
  simpl. rewrite Hpub.
  destruct (createEventTemplate_shape now _ plain Hplain)
    as [_ [_ [_ [_ [_ [_ Hp]]]]]]. symmetry. exact Hp.
Qed.

(** X16.  [setPassword] takes effect once: only on a locked drive that has
    no password entry yet.  A second [setPassword], whatever its
    arguments, changes nothing, and neither does one on an unlocked
    drive. *)
Theorem setPassword_first_call_wins (d : EncryptedDrive.EncryptedDrive)
    (pw1 pw2 : string) (n1 n2 : Z) :
  EncryptedDrive.setPassword pw2 n2 (EncryptedDrive.setPassword pw1 n1 d)
  = EncryptedDrive.setPassword pw1 n1 d
  /\ (EncryptedDrive.locked d = false -> EncryptedDrive.setPassword pw1 n1 d = d)
  /\ (EncryptedDrive.locked d = true -> EncryptedDrive.password d = None ->
      EncryptedDrive.password (EncryptedDrive.setPassword pw1 n1 d) = Some pw1
      /\ EncryptedDrive.logn (EncryptedDrive.setPassword pw1 n1 d) = n1).
Proof.
  unfold EncryptedDrive.setPassword. split; [|split].
  - destruct (EncryptedDrive.locked d) eqn:Hl; simpl; [|rewrite Hl; reflexivity].
    destruct (EncryptedDrive.password d) as [p|] eqn:Hp; simpl.
    + rewrite Hl, Hp. reflexivity.
    + rewrite Hl. reflexivity.
  - intros ->. reflexivity.
  - intros -> ->. simpl. split; reflexivity.
Qed.

(** X17.  On an unlocked drive an inbound event that supersedes the
    resident one but does not decrypt under the password held makes
    [update] throw the error of [decrypt] after the event has become
    resident; the drive stays unlocked with its password, and metadata,
    tree, modified flag and emitted notes are what they were. *)
Theorem unlocked_update_undecryptable (ev : Nostr.Event)
    (d : EncryptedDrive.EncryptedDrive) (pw : string) (ciphertext : bytes)
    (t : Thrown) :
  EncryptedDrive.locked d = false ->
  EncryptedDrive.password d = Some pw -> pw <> "" ->
  supersedes ev (Drive.event (EncryptedDrive.base d)) ->
  base64_decode (Nostr.content ev) = Return ciphertext ->
  decrypt ciphertext pw = Throw t ->
  let d' := fst (EncryptedDrive.update ev d) in
  snd (EncryptedDrive.update ev d) = Throw t
  /\ Drive.event (EncryptedDrive.base d') = Some ev
  /\ Drive._metadata (EncryptedDrive.base d') = Drive._metadata (EncryptedDrive.base d)
  /\ Drive.tree (EncryptedDrive.base d') = Drive.tree (EncryptedDrive.base d)
  /\ Drive.modified (EncryptedDrive.base d') = Drive.modified (EncryptedDrive.base d)
  /\ Drive.log (EncryptedDrive.base d') = Drive.log (EncryptedDrive.base d)
  /\ EncryptedDrive.locked d' = false
  /\ EncryptedDrive.password d' = Some pw.
Proof.
  intros Hl Hpw Hne Hsup Hb Hd. apply is_newer_supersedes in Hsup.
  unfold EncryptedDrive.update, EncryptedDrive.resetFromEvent,
    EncryptedDrive.readEvent.
  rewrite Hl. simpl. rewrite Hsup. simpl. rewrite Hpw. simpl.
  destruct (String.eqb pw "") eqn:He; [apply String.eqb_eq in He; contradiction|].
  simpl. rewrite Hb, Hd. simpl. repeat split; assumption.
Qed.

End LockLifeProperties.

Section EncryptedRetrievalProperties.
Context `{FileTree} `{Collaborators} `{!Retrieval}.

(** X18.  [downloadFile] of an encrypted drive refuses a locked drive with
    "Drive locked" before it looks at the path or any server.  Unlocked and
    with a password, it resolves to the decrypted bytes of the first server
    whose blob both arrives and decrypts: a server whose blob does not
    decrypt is passed over like one that is down. *)
Theorem encrypted_download_skips_undecryptable (path : Path)
    (additionalServers : list string) (d d' : EncryptedDrive.EncryptedDrive)
    (pw : string) (file : TreeFile) :
  (EncryptedDrive.locked d = true ->
     EncryptedDrive.downloadFile path additionalServers d
     = (d, Throw EncryptedDrive.drive_locked))
  /\ (EncryptedDrive.locked d = false ->
      EncryptedDrive.password d = Some pw -> pw <> "" ->
      EncryptedDrive.getFile path d = (d', Return file) ->
      let servers :=
        merge_servers (Drive.servers (Drive._metadata (EncryptedDrive.base d)))
          additionalServers in
      let sha := treefile_sha256 file in
      forall f,
        snd (EncryptedDrive.downloadFile path additionalServers d) = Return (Some f)
        <-> exists before server after data plaintext,
              servers = before ++ server :: after
              /\ Forall (fun s =>
                           (exists t, getBlob s sha = Throw t)
                           \/ (exists data' t, getBlob s sha = Return data'
                                               /\ decrypt data' pw = Throw t))
                        before
              /\ getBlob server sha = Return data
              /\ decrypt data pw = Return plaintext
              /\ f = Drive.downloaded file plaintext).
Proof.
  split.
  - intros Hl. unfold EncryptedDrive.downloadFile. rewrite Hl. reflexivity.
  - intros Hl Hpw Hne Hg. simpl. intros f.
    assert (Htruthy : truthy (Some pw) = true).
    { simpl. destruct (String.eqb pw "") eqn:He; [|reflexivity].
      apply String.eqb_eq in He. contradiction. }
    assert (Hsame : EncryptedDrive.locked d' = false
                    /\ EncryptedDrive.password d' = Some pw
                    /\ Drive._metadata (EncryptedDrive.base d')
                       = Drive._metadata (EncryptedDrive.base d)).
    { unfold EncryptedDrive.getFile, Drive.getFile in Hg.
      destruct (tree_getFile _ _) as [tr r]. injection Hg as <- _.
      simpl. repeat split; assumption. }
    destruct Hsame as [Hl' [Hpw' Hmeta]].
    assert (Hattempt : forall s,
      EncryptedDrive.fetch_and_decrypt d' (treefile_sha256 file) s
      = match getBlob s (treefile_sha256 file) with
        | Return data => decrypt data pw
        | Throw t => Throw t
        end).
    { intros s. unfold EncryptedDrive.fetch_and_decrypt, EncryptedDrive.decryptBlob.
      rewrite Hl', Hpw', Htruthy. reflexivity. }
    unfold EncryptedDrive.downloadFile. rewrite Hl, Hpw, Htruthy. simpl.
    rewrite Hg, Hmeta. simpl. split.
    + destruct (first_success _ _) as [plaintext|] eqn:Hf; simpl; [|discriminate].
      intros Hq. injection Hq as <-.
      apply first_success_some in Hf as [before [server [after [Heq [Hfail Hok]]]]].
      rewrite Hattempt in Hok.
      destruct (getBlob server (treefile_sha256 file)) as [data|] eqn:Hgb;
        [|discriminate].
      exists before, server, after, data, plaintext.
      split; [exact Heq|]. split; [|repeat split; assumption].
      eapply Forall_impl; [exact Hfail|].
      intros s [t Ht]. rewrite Hattempt in Ht.
      destruct (getBlob s (treefile_sha256 file)) as [data'|t'] eqn:Hs.
      * right. exists data', t. split; [reflexivity|exact Ht].
      * left. exists t'. reflexivity.
    + intros [before [server [after [data [plaintext
               [Heq [Hfail [Hgb [Hdec ->]]]]]]]]].
      assert (Hf : first_success
                (EncryptedDrive.fetch_and_decrypt d' (treefile_sha256 file))
                (merge_servers
                   (Drive.servers (Drive._metadata (EncryptedDrive.base d)))
                   additionalServers) = Some plaintext).
      { apply first_success_some. exists before, server, after.
        split; [exact Heq|]. split.
        - eapply Forall_impl; [exact Hfail|].
          intros s Hs. rewrite Hattempt.
          destruct Hs as [[t Ht]|[data' [t [Hd' Ht]]]].
          + rewrite Ht. exists t. reflexivity.
          + rewrite Hd', Ht. exists t. reflexivity.
        - rewrite Hattempt, Hgb. exact Hdec. }
      rewrite Hf. reflexivity.
Qed.

End EncryptedRetrievalProperties.


(** * Upload: the batch as a whole *)

Section BatchProperties.
Context `{FileTree} `{Collaborators}.

(** X19.  [correctFileMimeType] is idempotent, and it never touches the
    name or the bits of a file. *)
Theorem correctFileMimeType_idempotent (f : File) :
  correctFileMimeType (correctFileMimeType f) = correctFileMimeType f
  /\ file_name (correctFileMimeType f) = file_name f
  /\ file_bits (correctFileMimeType f) = file_bits f.
Proof.
  unfold correctFileMimeType.
  destruct (String.eqb (file_type f) "audio/x-mpegurl"
            && endsWith (file_name f) ".m3u8") eqn:Hc; simpl.
  - repeat split.
  - rewrite Hc. repeat split.
Qed.

Lemma step_flags up fl tk u s :
  let u' := Upload.upload_to_server up fl tk u s in
  Upload.running u' = Upload.running u
  /\ Upload.batch_complete u' = Upload.batch_complete u
  /\ Upload.basePath u' = Upload.basePath u.
Proof.
  unfold Upload.upload_to_server, Upload.catch_upload.
  destruct (uploadBlob s fl tk) as [blob|t]; simpl.
  - destruct (Upload.drive_setFile _ _ _) as [dr [f|t]]; simpl.
    + repeat split.
    + destruct (instanceofError t); repeat split.
  - destruct (instanceofError t); repeat split.
Qed.

Lemma servers_flags up fl tk srv u :
  let u' := fold_left (Upload.upload_to_server up fl tk) srv u in
  Upload.running u' = Upload.running u
  /\ Upload.batch_complete u' = Upload.batch_complete u
  /\ Upload.basePath u' = Upload.basePath u.
Proof.
  revert u. induction srv as [|s srv IH]; intros u; simpl; [repeat split|].
  destruct (IH (Upload.upload_to_server up fl tk u s)) as [H1 [H2 H3]].
  destruct (step_flags up fl tk u s) as [G1 [G2 G3]]. simpl in *.
  repeat split; congruence.
Qed.

Lemma file_flags u up :
  let u' := fst (Upload.upload_file u up) in
  Upload.running u' = Upload.running u
  /\ Upload.batch_complete u' = Upload.batch_complete u.
Proof.
  unfold Upload.upload_file.
  destruct (Upload.status u !! Upload.id up); simpl; [|repeat split].
  destruct (Upload.wire_file _ _) as [fl|t]; simpl; [|repeat split].
  destruct (createUploadAuth _ _ _) as [tk|t]; simpl; [|repeat split].
  match goal with
  | |- context [fold_left ?f ?l ?x] =>
      destruct (servers_flags up fl tk l x) as [G1 [G2 _]]
  end.
  simpl in *. split; assumption.
Qed.

Lemma files_flags ups u :
  let u' := fst (Upload.upload_files ups u) in
  Upload.running u' = Upload.running u
  /\ Upload.batch_complete u' = Upload.batch_complete u.
Proof.
  unfold Upload.upload_files. revert u.
  induction ups as [|up ups IH]; intros u; simpl; [repeat split|].
  destruct (file_flags u up) as [F1 F2].
  destruct (Upload.upload_file u up) as [u1 [[]|t]]; simpl in *; [|split; assumption].
  destruct (IH u1) as [G1 G2]. split; congruence.
Qed.

(** X20.  [upload()] runs once: once it has been called, a further call
    does nothing and resolves at once, whether the first call resolved or
    threw half way, since a run that throws leaves [running] set. *)
Theorem upload_runs_once (now now' : Z) (u : Upload.Upload) :
  let u' := fst (Upload.upload now u) in
  Upload.upload now' u' = (u', Return tt)
  /\ (Upload.running u = false -> Upload.batch_complete u = false ->
      Upload.running u' = true).
Proof.
  assert (Hcase : Upload.running u || Upload.batch_complete u = true
                  \/ Upload.running (fst (Upload.upload now u)) = true).
  { unfold Upload.upload.
    destruct (Upload.running u || Upload.batch_complete u) eqn:Hgate;
      [left; reflexivity|right].
    set (u1 := Upload.init_status _).
    destruct (files_flags (Upload.files u1) u1) as [Hr _].
    destruct (Upload.upload_files (Upload.files u1) u1) as [u2 [[]|t]];
      simpl in *; [|exact Hr].
    destruct (Upload.drive_save now (Upload.drive u2)) as [dr [r|t]];
      simpl; exact Hr. }
  simpl. split.
  - destruct Hcase as [Hgate|Hrun].
    + unfold Upload.upload at 2. rewrite Hgate. simpl.
      unfold Upload.upload. rewrite Hgate. reflexivity.
    + unfold Upload.upload at 1. rewrite Hrun. reflexivity.
  - intros Hr Hc. destruct Hcase as [Hgate|Hrun]; [|exact Hrun].
    rewrite Hr, Hc in Hgate. discriminate.
Qed.

(** X21.  A batch for an encrypted drive that is locked cannot upload: with
    at least one file, [upload()] throws "Drive locked" at the first file,
    before any authorization or network call; no blob and no error is
    recorded, the drive is untouched, and the batch is left running and
    not complete (so it cannot be started again). *)
Theorem upload_to_locked_drive_throws (now : Z) (u : Upload.Upload)
    (e : EncryptedDrive.EncryptedDrive) (up : Upload.UploadEntry)
    (rest : list Upload.UploadEntry) :
  Upload.running u = false ->
  Upload.batch_complete u = false ->
  Upload.drive u = Upload.Encrypted e ->
  EncryptedDrive.locked e = true ->
  Upload.files u = up :: rest ->
  let u' := fst (Upload.upload now u) in
  snd (Upload.upload now u) = Throw EncryptedDrive.drive_locked
  /\ Upload.blobs u' = Upload.blobs u
  /\ Upload.errors u' = Upload.errors u
  /\ Upload.drive u' = Upload.drive u
  /\ Upload.running u' = true
  /\ Upload.batch_complete u' = false.
Proof.
  intros Hr Hc Hd Hl Hf. unfold Upload.upload. rewrite Hr, Hc. simpl.
  remember (Upload.init_status
              (Upload.emit Upload.NoteStart (Upload.with_running true u)))
    as u1 eqn:Hu1.
  assert (Hst : Upload.status u1 !! Upload.id up = Some Upload.initial_status).
  { rewrite Hu1. apply init_status_lookup. simpl. rewrite Hf. left. reflexivity. }
  assert (Hfacts : Upload.drive u1 = Upload.Encrypted e
                   /\ Upload.blobs u1 = Upload.blobs u
                   /\ Upload.errors u1 = Upload.errors u
                   /\ Upload.running u1 = true
                   /\ Upload.batch_complete u1 = false
                   /\ Upload.files u1 = up :: rest).
  { rewrite Hu1. simpl. repeat split; assumption. }
  destruct Hfacts as [Hd1 [Hb1 [He1 [Hr1 [Hc1 Hf1]]]]].
  rewrite Hf. unfold Upload.upload_files. simpl.
  unfold Upload.upload_file. rewrite Hst. simpl. rewrite Hd1.
  unfold Upload.wire_file, EncryptedDrive.encryptBlob. rewrite Hl. simpl.
  rewrite Hd. repeat split; assumption.
Qed.

(** X22.  One turn of the server loop after a successful upload: the blob
    is recorded under the server and the file, whatever [setFile] does
    next.  If [setFile] returns, the result of the server is the success
    and [errors] is untouched.  If [setFile] throws an [Error], that error
    is recorded under the same server and file and replaces the result:
    the file is then counted for the server both in [blobs] and in
    [errors]. *)
Theorem upload_step_after_success (up : Upload.UploadEntry) (fl : File)
    (tk : Token) (u : Upload.Upload) (s : string) (blob : BlobDescriptor)
    (st : Upload.UploadFileStatus) :
  uploadBlob s fl tk = Return blob ->
  Upload.status u !! Upload.id up = Some st ->
  let u' := Upload.upload_to_server up fl tk u s in
  let outcome :=
    Upload.drive_setFile (joinPath (Upload.basePath u) (Upload.path up))
      (Upload.uploaded_metadata up blob) (Upload.drive u) in
  entry_at (Upload.blobs u') s (Upload.id up) = Some blob
  /\ Upload.drive u' = fst outcome
  /\ exists st',
      Upload.status u' !! Upload.id up = Some st'
      /\ Upload.serversComplete st' = S (Upload.serversComplete st)
      /\ (forall file, snd outcome = Return file ->
            Upload.results st' !! s = Some (Upload.Success blob)
            /\ forall s' j, entry_at (Upload.errors u') s' j
                            = entry_at (Upload.errors u) s' j)
      /\ (forall t, snd outcome = Throw t -> instanceofError t = true ->
            Upload.results st' !! s = Some (Upload.Failure t)
            /\ entry_at (Upload.errors u') s (Upload.id up) = Some t).
Proof.
  intros Hu Hst. simpl.
  unfold Upload.upload_to_server, Upload.catch_upload, Upload.alter_status.
  rewrite Hu. simpl.
  destruct (Upload.drive_setFile _ _ _) as [dr [file|t]]; simpl.
  - split; [rewrite entry_at_set_at, decide_True by auto; reflexivity|].
    split; [reflexivity|].
    rewrite !lookup_alter_eq, Hst. simpl. eexists. split; [reflexivity|].
    simpl. split; [reflexivity|]. split.
    + intros _ _. split; [apply lookup_insert_eq|].
      intros s' j. apply entry_at_ensure.
    + intros t Hq. discriminate.
  - destruct (instanceofError t) eqn:Hi; simpl.
    + split; [rewrite entry_at_set_at, decide_True by auto; reflexivity|].
      split; [reflexivity|].
      rewrite !lookup_alter_eq, Hst. simpl. eexists. split; [reflexivity|].
      simpl. split; [reflexivity|]. split.
      * intros file Hq. discriminate.
      * intros t' Hq _. injection Hq as <-. split; [apply lookup_insert_eq|].
        rewrite entry_at_set_at, decide_True by auto. reflexivity.
    + split; [rewrite entry_at_set_at, decide_True by auto; reflexivity|].
      split; [reflexivity|].
      rewrite !lookup_alter_eq, Hst. simpl. eexists. split; [reflexivity|].
      simpl. split; [reflexivity|]. split.
      * intros file Hq. discriminate.
      * intros t' Hq Hi'. injection Hq as <-. congruence.
Qed.

End BatchProperties.


(** * Upload: progress and completion *)

Section ProgressProperties.
Context `{FileTree} `{Collaborators}.

Lemma Qc_of_nat_S (n : nat) : Qc_of_nat (S n) = (1 + Qc_of_nat n)%Qc.
Proof.
  unfold Qc_of_nat, Qc_of_Z. apply Qc_is_canon. simpl.
  rewrite !Qred_correct. unfold Qeq. simpl. lia.
Qed.

Lemma Qc_of_nat_nonzero (n : nat) : Qc_of_nat (S n) <> 0%Qc.
Proof.
  intros Heq. apply (f_equal this) in Heq. unfold Qc_of_nat, Qc_of_Z in Heq.
  simpl in Heq. discriminate.
Qed.

Lemma js_ratio_same (n : nat) : js_ratio (S n) (S n) = Num 1%Qc.
Proof.
  unfold js_ratio. f_equal. apply Qcmult_inv_r, Qc_of_nat_nonzero.
Qed.

Lemma sum_of_ones (m : gmap string JsNum) :
  (forall k v, m !! k = Some v -> v = Num 1%Qc) ->
  map_fold (fun _ v t => js_add v t) (Num 0%Qc) m = Num (Qc_of_nat (size m)).
Proof.
  apply (map_fold_weak_ind
           (fun r m => (forall k v, m !! k = Some v -> v = Num 1%Qc) ->
                       r = Num (Qc_of_nat (size m)))).
  - intros _. rewrite map_size_empty. f_equal. apply Qc_is_canon. reflexivity.
  - intros i x m0 r Hnone IH Hall.
    rewrite map_size_insert_None by exact Hnone.
    rewrite (Hall i x) by apply lookup_insert_eq.
    rewrite IH.
    + simpl. rewrite Qc_of_nat_S. reflexivity.
    + intros k v Hk. apply (Hall k v).
      rewrite lookup_insert_ne; [exact Hk|]. intros ->. congruence.
Qed.

Lemma serverProgress_lookup (u : Upload.Upload) (srv : list string)
    (m : gmap string JsNum) (s : string) :
  fold_left (fun sp server => <[server := Upload.server_progress u server]> sp)
            srv m !! s
  = if decide (s ∈ srv) then Some (Upload.server_progress u s) else m !! s.
Proof.
  revert m. induction srv as [|a srv IH]; intros m; cbn [fold_left].
  - destruct (decide (s ∈ [])) as [Hc|_]; [|reflexivity].
    apply not_elem_of_nil in Hc. contradiction.
  - rewrite IH.
    destruct (decide (s ∈ srv)) as [Hin|Hout];
      destruct (decide (s ∈ a :: srv)) as [Hin'|Hout'].
    + reflexivity.
    + exfalso. apply Hout', elem_of_cons. right. exact Hin.
    + apply elem_of_cons in Hin' as [->|Hc]; [|contradiction].
      apply lookup_insert_eq.
    + apply lookup_insert_ne. intros ->. apply Hout', elem_of_cons. left.
      reflexivity.
Qed.

Lemma serverProgress_dom (u : Upload.Upload) :
  dom (Upload.serverProgress u) = (list_to_set (Upload.servers u) : gset string).
Proof.
  apply set_eq. intros s. rewrite elem_of_dom, elem_of_list_to_set.
  unfold Upload.serverProgress. rewrite serverProgress_lookup.
  destruct (decide (s ∈ Upload.servers u)) as [Hin|Hout].
  - split; [intros _; exact Hin|intros _; eexists; reflexivity].
  - rewrite lookup_empty. split; [intros [x Hx]; discriminate|contradiction].
Qed.

(** X23.  Overall progress is exactly 1 once, for every server, the blobs
    and errors recorded add up to the number of files, provided the batch
    has a file and a server and lists no server twice. *)
Theorem progress_reaches_one (u : Upload.Upload) :
  Upload.files u <> [] ->
  Upload.servers u <> [] ->
  NoDup (Upload.servers u) ->
  (forall s, In s (Upload.servers u) ->
             (Upload.count_keys (Upload.blobs u) s
              + Upload.count_keys (Upload.errors u) s)%nat
             = length (Upload.files u)) ->
  Upload.progress u = Num 1%Qc.
Proof.
  intros Hfiles Hservers Hnd Hall. unfold Upload.progress.
  rewrite sum_of_ones.
  - rewrite <- (size_dom (D:=gset string)), serverProgress_dom.
    rewrite size_list_to_set by exact Hnd.
    destruct (Upload.servers u) as [|s srv]; [contradiction|].
    simpl. f_equal. apply Qcmult_inv_r, Qc_of_nat_nonzero.
  - intros s v. unfold Upload.serverProgress. rewrite serverProgress_lookup.
    destruct (decide (s ∈ Upload.servers u)) as [Hin|Hout];
      [|rewrite lookup_empty; discriminate].
    intros Hq. injection Hq as <-. unfold Upload.server_progress.
    rewrite (Hall s) by (apply list_elem_of_In; exact Hin).
    destruct (Upload.files u); [contradiction|]. apply js_ratio_same.
Qed.

Lemma step_done up fl tk u s st :
  Upload.status u !! Upload.id up = Some st ->
  exists st',
    Upload.status (Upload.upload_to_server up fl tk u s) !! Upload.id up = Some st'
    /\ Upload.serversComplete st' = S (Upload.serversComplete st)
    /\ Upload.complete st' = Upload.complete st
    /\ Upload.pending st' = Upload.pending st.
Proof.
  intros Hst. unfold Upload.upload_to_server, Upload.catch_upload, Upload.alter_status.
  destruct (uploadBlob s fl tk) as [blob|t]; simpl.
  - destruct (Upload.drive_setFile _ _ _) as [dr [f|t]]; simpl.
    + rewrite !lookup_alter_eq, Hst. simpl. eexists. split; [reflexivity|].
      repeat split.
    + destruct (instanceofError t); simpl;
        rewrite !lookup_alter_eq, Hst; simpl; (eexists; split; [reflexivity|]);
        repeat split.
  - destruct (instanceofError t); simpl;
      rewrite !lookup_alter_eq, Hst; simpl; (eexists; split; [reflexivity|]);
      repeat split.
Qed.

Lemma servers_done up fl tk srv u st :
  Upload.status u !! Upload.id up = Some st ->
  exists st',
    Upload.status (fold_left (Upload.upload_to_server up fl tk) srv u) !! Upload.id up
      = Some st'
    /\ Upload.serversComplete st' = (length srv + Upload.serversComplete st)%nat
    /\ Upload.complete st' = Upload.complete st
    /\ Upload.pending st' = Upload.pending st.
Proof.
  revert u st. induction srv as [|s srv IH]; intros u st Hst; simpl.
  - exists st. repeat split. exact Hst.
  - destruct (step_done up fl tk u s st Hst) as [st1 [H1 [Hn1 [Hc1 Hp1]]]].
    destruct (IH _ _ H1) as [st2 [H2 [Hn2 [Hc2 Hp2]]]].
    exists st2. split; [exact H2|]. split; [lia|]. split; congruence.
Qed.

Lemma file_done u up :
  snd (Upload.upload_file u up) = Return tt ->
  exists st st',
    Upload.status u !! Upload.id up = Some st
    /\ Upload.status (fst (Upload.upload_file u up)) !! Upload.id up = Some st'
    /\ Upload.serversComplete st'
       = (length (Upload.servers u) + Upload.serversComplete st)%nat
    /\ Upload.complete st' = true
    /\ Upload.pending st' = false.
Proof.
  unfold Upload.upload_file, Upload.alter_status.
  destruct (Upload.status u !! Upload.id up) as [st|] eqn:Hst; simpl; [|discriminate].
  destruct (Upload.wire_file _ _) as [fl|t]; simpl; [|discriminate].
  destruct (createUploadAuth _ _ _) as [tk|t]; simpl; [|discriminate].
  intros _. exists st.
  set (u1 := Upload.emit _ _).
  assert (H1 : Upload.status u1 !! Upload.id up = Some (Upload.set_pending false st)).
  { subst u1. simpl. rewrite lookup_alter_eq, Hst. reflexivity. }
  destruct (servers_done up fl tk (Upload.servers u) u1 _ H1)
    as [st2 [H2 [Hn [Hc Hp]]]].
  exists (Upload.set_complete true st2).
  split; [reflexivity|]. split.
  { rewrite lookup_alter_eq. change (Upload.servers u1) with (Upload.servers u).
    rewrite H2. reflexivity. }
  split; [exact Hn|]. split; [reflexivity|exact Hp].
Qed.

Lemma files_done ups u up0 st :
  NoDup (List.map Upload.id ups) ->
  In up0 ups ->
  snd (Upload.upload_files ups u) = Return tt ->
  Upload.status u !! Upload.id up0 = Some st ->
  exists st',
    Upload.status (fst (Upload.upload_files ups u)) !! Upload.id up0 = Some st'
    /\ Upload.serversComplete st'
       = (length (Upload.servers u) + Upload.serversComplete st)%nat
    /\ Upload.complete st' = true
    /\ Upload.pending st' = false.
Proof.
  unfold Upload.upload_files. revert u.
  induction ups as [|up ups IH]; intros u Hnd Hin Hret Hst; [destruct Hin|].
  simpl in Hnd. apply NoDup_cons in Hnd as [Hfresh Hnd].
  rewrite list_elem_of_In in Hfresh. simpl in *.
  destruct Hin as [->|Hin].
  - pose proof (file_done u up0) as S1.
    destruct (Upload.upload_file u up0) as [u1 [[]|t]] eqn:Hf; simpl in *;
      [|discriminate].
    destruct (S1 eq_refl) as [st0 [st1 [Hst0 [Hst1 [Hn [Hc Hp]]]]]].
    assert (st0 = st) by congruence. subst st0.
    destruct (files_untouched ups u1 (Upload.id up0) Hfresh) as [S2 _].
    unfold Upload.upload_files in S2. simpl in S2.
    exists st1. split; [rewrite S2; exact Hst1|]. repeat split; assumption.
  - assert (Hne : Upload.id up0 <> Upload.id up).
    { intros Heq. apply Hfresh. rewrite <- Heq. apply in_map, Hin. }
    pose proof (file_status_other u up (Upload.id up0) Hne) as S1.
    destruct (file_frame u up) as [F1 _].
    destruct (Upload.upload_file u up) as [u1 [[]|t]] eqn:Hf; simpl in *;
      [|discriminate].
    destruct (IH u1 Hnd Hin Hret) as [st' [Hs' [Hn [Hc Hp]]]].
    { rewrite S1. exact Hst. }
    exists st'. split; [exact Hs'|]. rewrite F1 in Hn. repeat split; assumption.
Qed.

(** X24.  When a run of [upload()] over distinct file identifiers
    resolves, the batch is complete and so is every file: its status is
    no longer pending, is marked complete and counts every server of the
    batch, whatever the uploads did. *)
Theorem resolved_upload_completes_every_file (now : Z) (u : Upload.Upload)
    (up : Upload.UploadEntry) :
  Upload.running u = false ->
  Upload.batch_complete u = false ->
  NoDup (List.map Upload.id (Upload.files u)) ->
  In up (Upload.files u) ->
  snd (Upload.upload now u) = Return tt ->
  let u' := fst (Upload.upload now u) in
  Upload.batch_complete u' = true
  /\ Upload.running u' = true
  /\ exists st,
      Upload.status u' !! Upload.id up = Some st
      /\ Upload.pending st = false
      /\ Upload.complete st = true
      /\ Upload.serversComplete st = length (Upload.servers u).
Proof.
  intros Hrun Hdone Hnd Hup Hret.
  unfold Upload.upload in *. rewrite Hrun, Hdone in *. simpl in Hret |- *.
  set (u1 := Upload.init_status _) in *.
  assert (Hst1 : Upload.status u1 !! Upload.id up = Some Upload.initial_status)
    by (apply init_status_lookup, in_map, Hup).
  pose proof (files_done (Upload.files u) u1 up Upload.initial_status Hnd Hup) as Hd.
  destruct (files_flags (Upload.files u) u1) as [Hr _].
  destruct (Upload.upload_files (Upload.files u) u1) as [u2 [[]|t]];
    simpl in *; [|discriminate].
  destruct (Upload.drive_save now (Upload.drive u2)) as [dr [r|t]];
    simpl in *; [|discriminate].
  destruct (Hd eq_refl Hst1) as [st [Hst [Hn [Hc Hp]]]].
  split; [reflexivity|]. split; [exact Hr|].
  exists st. split; [exact Hst|]. split; [exact Hp|]. split; [exact Hc|].
  simpl in Hn. change (Upload.servers u1) with (Upload.servers u) in Hn. lia.
Qed.

Lemma step_drive_throw up fl tk u s t :
  uploadBlob s fl tk = Throw t ->
  Upload.drive (Upload.upload_to_server up fl tk u s) = Upload.drive u.
Proof.
  intros Hu. unfold Upload.upload_to_server, Upload.catch_upload. rewrite Hu.
  destruct (instanceofError t); reflexivity.
Qed.

Lemma servers_drive_throw up fl tk srv u :
  (forall s, In s srv -> exists t, uploadBlob s fl tk = Throw t) ->
  Upload.drive (fold_left (Upload.upload_to_server up fl tk) srv u) = Upload.drive u.
Proof.
  revert u. induction srv as [|s srv IH]; intros u Hall; simpl; [reflexivity|].
  rewrite IH by (intros s' Hs'; apply Hall; right; exact Hs').
  destruct (Hall s (or_introl eq_refl)) as [t Ht].
  apply (step_drive_throw up fl tk u s t Ht).
Qed.

Lemma file_drive_throw u up :
  (forall s fl tk, In s (Upload.servers u) -> exists t, uploadBlob s fl tk = Throw t) ->
  Upload.drive (fst (Upload.upload_file u up)) = Upload.drive u.
Proof.
  intros Hall. unfold Upload.upload_file.
  destruct (Upload.status u !! Upload.id up); simpl; [|reflexivity].
  destruct (Upload.wire_file _ _) as [fl|t]; simpl; [|reflexivity].
  destruct (createUploadAuth _ _ _) as [tk|t]; simpl; [|reflexivity].
  rewrite servers_drive_throw; [reflexivity|].
  intros s Hs. apply Hall. exact Hs.
Qed.

Lemma files_drive_throw ups u :
  (forall s fl tk, In s (Upload.servers u) -> exists t, uploadBlob s fl tk = Throw t) ->
  Upload.drive (fst (Upload.upload_files ups u)) = Upload.drive u.
Proof.
  unfold Upload.upload_files. revert u.
  induction ups as [|up ups IH]; intros u Hall; simpl; [reflexivity|].
  pose proof (file_drive_throw u up Hall) as Hd.
  destruct (file_frame u up) as [F1 _].
  destruct (Upload.upload_file u up) as [u1 [[]|t]]; simpl in *; [|exact Hd].
  rewrite IH; [exact Hd|]. rewrite F1. exact Hall.
Qed.

Lemma drive_save_unmodified (now : Z) (dr : Upload.AnyDrive) :
  drive_modified dr = false -> Upload.drive_save now dr = (dr, Return None).
Proof.
  destruct dr as [d|d]; simpl; intros Hm.
  - unfold Drive.save. rewrite Hm. reflexivity.
  - unfold EncryptedDrive.save. rewrite Hm. reflexivity.
Qed.

(** X25.  A batch whose uploads all fail publishes nothing: if the drive
    was not modified and every upload to every server of the batch throws,
    the drive after [upload()] is the drive before it, with no call to its
    signer or publisher, and a run that resolves still marks the batch
    complete. *)
Theorem failed_batch_publishes_nothing (now : Z) (u : Upload.Upload) :
  drive_modified (Upload.drive u) = false ->
  (forall s fl tk, In s (Upload.servers u) -> exists t, uploadBlob s fl tk = Throw t) ->
  let u' := fst (Upload.upload now u) in
  Upload.drive u' = Upload.drive u
  /\ (Upload.running u = false -> Upload.batch_complete u = false ->
      snd (Upload.upload now u) = Return tt -> Upload.batch_complete u' = true).
Proof.
  intros Hm Hall. simpl. unfold Upload.upload.
  destruct (Upload.running u || Upload.batch_complete u) eqn:Hgate.
  { split; [reflexivity|]. intros Hr Hc. rewrite Hr, Hc in Hgate. discriminate. }
  set (u1 := Upload.init_status _).
  pose proof (files_drive_throw (Upload.files u1) u1 Hall) as Hd.
  change (Upload.drive u1) with (Upload.drive u) in Hd.
  destruct (Upload.upload_files (Upload.files u1) u1) as [u2 [[]|t]];
    simpl in *; [|split; [exact Hd|discriminate]].
  rewrite Hd, (drive_save_unmodified now _ Hm). simpl.
  split; [reflexivity|]. intros _ _ _. reflexivity.
Qed.

End ProgressProperties.


(** * EncryptedDrive: a new drive, from its password to its first unlock *)

Section FirstSaveProperties.
Context `{FileTree} `{Collaborators}.

Lemma readEvent_other_pubkey (i : string) (e e' : Nostr.Event)
    (m : Drive.DriveMetadata) :
  Drive.readEvent i e = Return m ->
  Nostr.tags e' = Nostr.tags e ->
  Drive.readEvent i e'
  = Return {| Drive.name := Drive.name m;
              Drive.identifier := Drive.identifier m;
              Drive.description := Drive.description m;
              Drive.servers := Drive.servers m;
              Drive.pubkey := Nostr.pubkey e';
              Drive.treeTags := Drive.treeTags m |}.
Proof.
  unfold Drive.readEvent. intros Hr Ht. rewrite Ht.
  destruct (mapM _ _); [|discriminate].
  destruct (truthy _); [|discriminate].
  injection Hr as <-. reflexivity.
Qed.

(** X26.  A new encrypted drive can be opened with its own password after
    its first [save()].  Take a locked drive that holds a password, is
    modified and has a non-empty identifier; let [save()] succeed with a
    signer that keeps the content, the signed event superseding the
    resident one.  Then [unlock] with that password succeeds on the saved
    drive: it ends unlocked and not modified, with the name, description
    and identifier it had before the save, its servers resolved and in
    reverse order, and the tree decoded from its own encoding (the content
    of the template opening under the password to the tags of the plain
    template). *)
Theorem first_save_then_unlock (now : Z) (d : EncryptedDrive.EncryptedDrive)
    (pw : string) (plain template signed : Nostr.Event) (tr : TreeFolder) :
  EncryptedDrive.locked d = true ->
  EncryptedDrive.password d = Some pw ->
  Drive.modified (EncryptedDrive.base d) = true ->
  Drive.identifier (Drive._metadata (EncryptedDrive.base d)) <> "" ->
  servers_resolve_stably (Drive.servers (Drive._metadata (EncryptedDrive.base d))) ->
  Drive.createEventTemplate now (EncryptedDrive.base d) = Return plain ->
  EncryptedDrive.createEventTemplate now d = Return template ->
  opens_to (Nostr.content template) pw (Nostr.tags plain) ->
  Drive.signer (EncryptedDrive.base d) template = Return signed ->
  Nostr.content signed = Nostr.content template ->
  Drive.publisher (EncryptedDrive.base d) signed = Return tt ->
  supersedes signed (Drive.event (EncryptedDrive.base d)) ->
  createTreeFromTags
    (List.filter Drive.is_tree_tag
       (updateTreeInTags (Drive.event_tags (EncryptedDrive.base d))
          (Drive.tree (EncryptedDrive.base d)))) = Return tr ->
  let saved := fst (EncryptedDrive.save now d) in
  let opened := fst (EncryptedDrive.unlock pw saved) in
  let m := Drive._metadata (EncryptedDrive.base d) in
  let m' := Drive._metadata (EncryptedDrive.base opened) in
  snd (EncryptedDrive.unlock pw saved) = Return tt
  /\ EncryptedDrive.locked opened = false
  /\ EncryptedDrive.password opened = Some pw
  /\ Drive.modified (EncryptedDrive.base opened) = false
  /\ Drive.event (EncryptedDrive.base opened) = Some signed
  /\ Drive.tree (EncryptedDrive.base opened) = tr
  /\ Drive.name m' = Drive.name m
  /\ Drive.description m' = Drive.description m
  /\ Drive.identifier m' = Drive.identifier m
  /\ Drive.pubkey m' = Nostr.pubkey signed
  /\ exists urls,
       Forall2 (fun s u => url_root s = Some u) (Drive.servers m) urls
       /\ Drive.servers m' = rev urls.
Proof.
  intros Hl Hpw Hm Hid Hstable Hplain Ht [ciphertext [data [Hb [Hd Hj]]]]
    Hs Hcontent Hp Hsup Htr.
  apply is_newer_supersedes in Hsup.
  assert (Hne : String.eqb pw "" = false).
  { unfold EncryptedDrive.createEventTemplate in Ht. rewrite Hpw in Ht.
    simpl in Ht. destruct (String.eqb pw ""); [discriminate|reflexivity]. }
  (* the save *)
  simpl. unfold EncryptedDrive.save. rewrite Hm, Ht. simpl. rewrite Hs. simpl.
  rewrite Hp. unfold EncryptedDrive.update. simpl. rewrite Hl. simpl.
  rewrite Hsup. simpl.
  (* the unlock *)
  unfold EncryptedDrive.unlock. simpl. rewrite Hl. simpl.
  unfold EncryptedDrive.resetFromEvent. simpl.
  unfold EncryptedDrive.readEvent. simpl. rewrite Hne. simpl.
  rewrite Hcontent, Hb, Hd, Hj. simpl.
  destruct (template_reads_back now _ plain
              (default "" (tag_value "d" (Nostr.tags signed)))
              Hstable Hid Hplain) as [urls [HF Hr]].
  erewrite readEvent_other_pubkey; [|exact Hr|reflexivity].
  simpl. rewrite Htr. simpl.
  do 10 (split; [reflexivity|]).
  exists urls. split; [exact HF|reflexivity].
Qed.

End FirstSaveProperties.
(** * The further properties on the small platform *)

Section FurtherExamples.
#[local] Existing Instance Sample.tree.
#[local] Existing Instance Sample.platform.
#[local] Existing Instance SampleStore.store.

(** X1: the template of the renamed [docs] drive has one [name] tag, with
    the new name. *)
Lemma createEventTemplate_header_witness :
  Drive.createEventTemplate 101 Sample.renamed_docs
    = Return SampleStore.renamed_template
  /\ List.filter (tag_is "name") (Nostr.tags SampleStore.renamed_template)
     = [["name"; "Papers"]].
Proof.
  assert (Ht : Drive.createEventTemplate 101 Sample.renamed_docs
               = Return SampleStore.renamed_template) by reflexivity.
  split; [exact Ht|].
  exact (proj1 (createEventTemplate_header 101 Sample.renamed_docs _ Ht)).
Defined.

(** X2: the template of the renamed [docs] drive reads back with the new
    name and the drive's server. *)
Lemma readEvent_of_template_witness :
  servers_resolve_stably (Drive.servers (Drive._metadata Sample.renamed_docs))
  /\ exists m, Drive.readEvent "" SampleStore.renamed_template = Return m
               /\ Drive.name m = "Papers"
               /\ Drive.servers m = ["https://cdn.example.com/"].
Proof.
  assert (Hs : servers_resolve_stably
                 (Drive.servers (Drive._metadata Sample.renamed_docs))).
  { intros s u [<-|[]] Hu. vm_compute in Hu. injection Hu as <-.
    split; [discriminate|reflexivity]. }
  split; [exact Hs|].
  assert (Hid : Drive.identifier (Drive._metadata Sample.renamed_docs) <> "")
    by (vm_compute; discriminate).
  destruct (readEvent_of_template 101 Sample.renamed_docs
              SampleStore.renamed_template "" Hs Hid eq_refl) as [urls [HF Hr]].
  eexists. split; [exact Hr|]. split; [reflexivity|].
  inversion HF as [|s u l l' Hu HF']; subst. inversion HF'; subst.
  vm_compute in Hu. injection Hu as <-. reflexivity.
Defined.

(** X3: a drive whose only server is no URL cannot be saved, and is left
    as it was. *)
Lemma save_failure_keeps_state_witness :
  Drive.modified SampleStore.misdirected_docs = true
  /\ Drive.save 101 SampleStore.misdirected_docs
     = (SampleStore.misdirected_docs, Throw invalid_url).
Proof.
  split; [reflexivity|].
  apply (proj1 (save_failure_keeps_state 101 SampleStore.misdirected_docs eq_refl)).
  constructor. reflexivity.
Defined.

(** X4: saving the draft, which has no identifier, publishes and throws. *)
Lemma save_with_empty_identifier_witness :
  Drive.identifier (Drive._metadata SampleStore.draft) = ""
  /\ Drive.signer SampleStore.draft SampleStore.draft_template
     = Return SampleStore.draft_signed
  /\ Drive.event (fst (Drive.save 101 SampleStore.draft))
     = Some SampleStore.draft_signed
  /\ Drive.modified (fst (Drive.save 101 SampleStore.draft)) = true.
Proof.
  split; [reflexivity|]. split; [reflexivity|].
  pose proof (save_with_empty_identifier 101 SampleStore.draft
                SampleStore.draft_template SampleStore.draft_signed
                eq_refl eq_refl eq_refl eq_refl eq_refl eq_refl
                (or_introl eq_refl)) as P.
  cbv zeta in P. destruct P as [_ [_ [He [Hm _]]]].
  split; [exact He|exact Hm].
Defined.

(** X5: [reset()] on the draft gives up its name as a pending change. *)
Lemma reset_without_event_keeps_changes_witness :
  Drive.event SampleStore.draft = None
  /\ Drive.modified SampleStore.draft = true
  /\ Drive.name (Drive._metadata (fst (Drive.reset SampleStore.draft))) = "Draft"
  /\ Drive.modified (fst (Drive.reset SampleStore.draft)) = false.
Proof.
  split; [reflexivity|]. split; [reflexivity|].
  pose proof (reset_without_event_keeps_changes 101 SampleStore.draft
                eq_refl eq_refl) as P.
  cbv zeta in P. destruct P as [_ [_ [Hm [Hf _]]]].
  split; [exact (f_equal Drive.name Hm)|exact Hf].
Defined.

(** X6: [reset()] gives the renamed [docs] drive its old name back. *)
Lemma reset_restores_adopted_event_witness :
  Drive.update Sample.docs_event (Drive.new Sample.alice Sample.relay)
    = (Sample.docs_drive, Return true)
  /\ Drive.name (Drive._metadata Sample.renamed_docs) = "Papers"
  /\ Drive.name (Drive._metadata (fst (Drive.reset Sample.renamed_docs)))
     = "Documents".
Proof.
  assert (Hu : Drive.update Sample.docs_event (Drive.new Sample.alice Sample.relay)
               = (Sample.docs_drive, Return true)) by reflexivity.
  split; [exact Hu|]. split; [reflexivity|].
  assert (Hn : is_Some (tag_value "name" (Nostr.tags Sample.docs_event)))
    by (eexists; reflexivity).
  pose proof (reset_restores_adopted_event Sample.docs_event _
                Sample.docs_drive Sample.renamed_docs Hu Hn eq_refl eq_refl) as P.
  cbv zeta in P. destruct P as [_ [Hm _]].
  exact (f_equal Drive.name Hm).
Defined.

(** X7: a drive made from an event that names [docs] and nothing else has
    the empty name. *)
Lemma fromEvent_reads_on_fresh_drive_witness :
  exists drive,
    Drive.fromEvent Sample.unnamed_event Sample.alice Sample.relay = Return drive
    /\ Drive.identifier (Drive._metadata drive) = "docs"
    /\ Drive.name (Drive._metadata drive) = "".
Proof.
  exists (fst (Drive.update Sample.unnamed_event
                 (Drive.new Sample.alice Sample.relay))).
  assert (Hd : Drive.fromEvent Sample.unnamed_event Sample.alice Sample.relay
               = Return (fst (Drive.update Sample.unnamed_event
                                (Drive.new Sample.alice Sample.relay))))
    by reflexivity.
  split; [exact Hd|]. split; [reflexivity|].
  destruct (proj2 (fromEvent_reads_on_fresh_drive Sample.unnamed_event
                     Sample.alice Sample.relay) _ Hd) as [_ [_ [_ [Hn _]]]].
  exact (Hn eq_refl).
Defined.

(** X8: of four extra servers, one is listed already and one is given
    twice; the two new ones follow in the order of their first mention. *)
Lemma merge_servers_appends_new_witness :
  merge_servers ["https://a.example.com/"; "https://b.example.com/"]
    ["https://d.example.com/"; "https://b.example.com/";
     "https://c.example.com/"; "https://d.example.com/"]
  = ["https://a.example.com/"; "https://b.example.com/";
     "https://d.example.com/"; "https://c.example.com/"]
  /\ NoDup (merge_servers ["https://a.example.com/"; "https://b.example.com/"]
              ["https://d.example.com/"; "https://b.example.com/";
               "https://c.example.com/"; "https://d.example.com/"]).
Proof.
  pose proof (merge_servers_appends_new
                ["https://a.example.com/"; "https://b.example.com/"]
                ["https://d.example.com/"; "https://b.example.com/";
                 "https://c.example.com/"; "https://d.example.com/"]) as P.
  cbv zeta in P. destruct P as [Hm [_ [_ Hn]]].
  split; [exact Hm|].
  apply Hn. apply (@bool_decide_unpack _ (NoDup_dec _)). vm_compute. exact I.
Defined.

(** X9: on the drive that lists a server that is down before its own,
    the address of the report is on the server that is down, whatever
    extra server is passed. *)
Lemma getFileURL_uses_first_server_witness :
  Drive.servers (Drive._metadata SampleStore.mirrored_docs)
    = ["https://down.example.com/"; "https://cdn.example.com/"]
  /\ snd (Drive.getFileURL "report.txt" ["https://odd.example.com/"]
            SampleStore.mirrored_docs)
     = Return "https://down.example.com/b1946ac9.txt".
Proof.
  split; [reflexivity|].
  assert (Hg : Drive.getFile "report.txt" SampleStore.mirrored_docs
               = (SampleStore.mirrored_docs,
                  Return (["x"; "report.txt"; "b1946ac9"; "text/plain"] : TreeFile)))
    by reflexivity.
  destruct (proj1 (getFileURL_uses_first_server "report.txt"
                     SampleStore.mirrored_docs) _ _ Hg) as [Hs _].
  exact (f_equal snd (Hs _ _ ["https://odd.example.com/"] eq_refl)).
Defined.

(** X10: with a server that is down in front, the report comes from the
    second server. *)
Lemma downloadFile_first_server_that_delivers_witness :
  snd (Drive.downloadFile "report.txt" ["https://odd.example.com/"]
         SampleStore.mirrored_docs)
  = Return (Some {| file_name := "report.txt"; file_type := "text/plain";
                    webkitRelativePath := "";
                    file_bits := SampleStore.blob_of "b1946ac9" |}).
Proof.
  pose proof (downloadFile_first_server_that_delivers "report.txt"
                ["https://odd.example.com/"] SampleStore.mirrored_docs
                SampleStore.mirrored_docs
                ["x"; "report.txt"; "b1946ac9"; "text/plain"] eq_refl) as P.
  cbv zeta in P. destruct P as [_ [_ [_ Hf]]].
  apply Hf.
  exists ["https://down.example.com/"], "https://cdn.example.com/",
         ["https://odd.example.com/"], (SampleStore.blob_of "b1946ac9").
  split; [reflexivity|]. split.
  - constructor; [|constructor]. eexists. reflexivity.
  - split; reflexivity.
Defined.

(** X11: the open vault, once [lock()] was called, refuses its own
    password. *)
Lemma lock_then_unlock_is_refused_witness :
  EncryptedDrive.locked Sample.open_vault = false
  /\ EncryptedDrive.unlock "hunter2" (EncryptedDrive.lock Sample.open_vault)
     = (EncryptedDrive.lock Sample.open_vault,
        Throw EncryptedDrive.already_unlocked).
Proof.
  split; [reflexivity|].
  pose proof (lock_then_unlock_is_refused Sample.open_vault Sample.sealed_event
                eq_refl eq_refl) as P.
  cbv zeta in P. exact (proj1 P "hunter2").
Defined.

(** X12: the locked vault takes a later manifest whose cost is out of
    range, and ends with the default cost. *)
Lemma locked_update_reads_public_tags_witness :
  EncryptedDrive.locked Sample.vault = true
  /\ snd (EncryptedDrive.update SampleStore.costly_event Sample.vault) = Return true
  /\ EncryptedDrive.logn
       (fst (EncryptedDrive.update SampleStore.costly_event Sample.vault)) = 10
  /\ Drive.pubkey (Drive._metadata (EncryptedDrive.base
       (fst (EncryptedDrive.update SampleStore.costly_event Sample.vault))))
     = Some "alice".
Proof.
  split; [reflexivity|].
  assert (Hs : supersedes SampleStore.costly_event
                 (Drive.event (EncryptedDrive.base Sample.vault))).
  { right. exists Sample.sealed_event. split; reflexivity. }
  pose proof (proj1 (locked_update_reads_public_tags SampleStore.costly_event
                       Sample.vault eq_refl) Hs) as P.
  cbv zeta in P. destruct P as [Hr [_ [_ [Hk [_ [_ [Hout _]]]]]]].
  split; [exact Hr|]. split; [|exact (Hk "alice" eq_refl)].
  apply (Hout 40); [reflexivity|lia].
Defined.

(** X13: the new vault, saved before it was ever unlocked, stays
    modified. *)
Lemma save_while_locked_stays_modified_witness :
  EncryptedDrive.createEventTemplate 101 SampleStore.new_vault
    = Return SampleStore.vault_template
  /\ snd (EncryptedDrive.save 101 SampleStore.new_vault)
     = Return (Some SampleStore.vault_signed)
  /\ Drive.modified (EncryptedDrive.base
                       (fst (EncryptedDrive.save 101 SampleStore.new_vault))) = true
  /\ Drive.event (EncryptedDrive.base
                    (fst (EncryptedDrive.save 101 SampleStore.new_vault)))
     = Some SampleStore.vault_signed.
Proof.
  assert (Ht : EncryptedDrive.createEventTemplate 101 SampleStore.new_vault
               = Return SampleStore.vault_template) by (vm_compute; reflexivity).
  assert (Hg : Drive.signer (EncryptedDrive.base SampleStore.new_vault)
                 SampleStore.vault_template = Return SampleStore.vault_signed)
    by (vm_compute; reflexivity).
  split; [exact Ht|].
  pose proof (save_while_locked_stays_modified 101 SampleStore.new_vault
                SampleStore.vault_template SampleStore.vault_signed
                eq_refl eq_refl Ht Hg eq_refl) as P.
  cbv zeta in P. destruct P as [Hr [Hm [_ [_ [He _]]]]].
  split; [exact Hr|]. split; [exact Hm|]. exact (He (or_introl eq_refl)).
Defined.

(** X14: the template of the new vault shows its identifier and its cost,
    and not its name. *)
Lemma encrypted_template_public_tags_witness :
  Drive.name (Drive._metadata (EncryptedDrive.base SampleStore.new_vault)) = "Vault"
  /\ Nostr.tags SampleStore.vault_template
     = [["d"; "vault"]; ["scrypt-logn"; "12"]].
Proof.
  split; [reflexivity|].
  assert (Ht : EncryptedDrive.createEventTemplate 101 SampleStore.new_vault
               = Return SampleStore.vault_template) by (vm_compute; reflexivity).
  pose proof (proj1 (encrypted_template_public_tags 101 SampleStore.new_vault
                       SampleStore.vault_template Ht)) as P.
  vm_compute in P. vm_compute. exact P.
Defined.

(** X15: the template of the new vault reads back with the vault's name. *)
Lemma encrypted_template_reads_back_witness :
  opens_to (Nostr.content SampleStore.vault_template) "hunter2"
    (Nostr.tags SampleStore.vault_plain)
  /\ exists m,
       snd (EncryptedDrive.readEvent SampleStore.vault_template SampleStore.new_vault)
         = Return m
       /\ Drive.name m = "Vault" /\ Drive.identifier m = "vault".
Proof.
  assert (Ho : opens_to (Nostr.content SampleStore.vault_template) "hunter2"
                 (Nostr.tags SampleStore.vault_plain)).
  { exists (String.list_byte_of_string (Nostr.content SampleStore.vault_template)),
           (stringify_tags (Nostr.tags SampleStore.vault_plain)).
    split; [vm_compute; reflexivity|]. split; vm_compute; reflexivity. }
  split; [exact Ho|].
  assert (Hs : servers_resolve_stably
                 (Drive.servers (Drive._metadata
                    (EncryptedDrive.base SampleStore.new_vault))))
    by (intros s u []).
  assert (Hid : Drive.identifier (Drive._metadata
                  (EncryptedDrive.base SampleStore.new_vault)) <> "")
    by (vm_compute; discriminate).
  assert (Hp : Drive.createEventTemplate 101
                 (EncryptedDrive.base SampleStore.new_vault)
               = Return SampleStore.vault_plain) by (vm_compute; reflexivity).
  assert (Ht : EncryptedDrive.createEventTemplate 101 SampleStore.new_vault
               = Return SampleStore.vault_template) by (vm_compute; reflexivity).
  pose proof (encrypted_template_reads_back 101 SampleStore.new_vault "hunter2"
                SampleStore.vault_plain SampleStore.vault_template
                eq_refl Hp Ht Ho Hs Hid) as P.
  cbv zeta in P. destruct P as [urls [_ Hr]].
  eexists. split; [exact (f_equal snd Hr)|]. split; reflexivity.
Defined.

(** X16: the password given first to a new drive stays. *)
Lemma setPassword_first_call_wins_witness :
  EncryptedDrive.password
    (EncryptedDrive.setPassword "sesame" 14
       (EncryptedDrive.setPassword "hunter2" 12
          (EncryptedDrive.new Sample.alice Sample.relay)))
  = Some "hunter2".
Proof.
  pose proof (setPassword_first_call_wins
                (EncryptedDrive.new Sample.alice Sample.relay)
                "hunter2" "sesame" 12 14) as P.
  destruct P as [Hi [_ Hf]].
  rewrite Hi. exact (proj1 (Hf eq_refl eq_refl)).
Defined.

(** X17: the open vault is handed a later manifest sealed under another
    password. *)
Lemma unlocked_update_undecryptable_witness :
  snd (EncryptedDrive.update SampleStore.resealed_event Sample.open_vault)
    = Throw Sample.bad_decrypt
  /\ Drive.event (EncryptedDrive.base
       (fst (EncryptedDrive.update SampleStore.resealed_event Sample.open_vault)))
     = Some SampleStore.resealed_event
  /\ EncryptedDrive.locked
       (fst (EncryptedDrive.update SampleStore.resealed_event Sample.open_vault))
     = false.
Proof.
  assert (Hs : supersedes SampleStore.resealed_event
                 (Drive.event (EncryptedDrive.base Sample.open_vault))).
  { right. exists Sample.sealed_event. split; reflexivity. }
  assert (Hp : "hunter2" <> "") by discriminate.
  pose proof (unlocked_update_undecryptable SampleStore.resealed_event
                Sample.open_vault "hunter2"
                (String.list_byte_of_string (Nostr.content SampleStore.resealed_event))
                Sample.bad_decrypt eq_refl eq_refl Hp Hs eq_refl eq_refl) as P.
  cbv zeta in P. destruct P as [Hr [He [_ [_ [_ [_ [Hl _]]]]]]].
  split; [exact Hr|]. split; [exact He|exact Hl].
Defined.

(** X18: the report of the open vault comes from the second extra server,
    the first one holding a blob sealed under another password. *)
Lemma encrypted_download_skips_undecryptable_witness :
  snd (EncryptedDrive.downloadFile "report.txt"
         ["https://odd.example.com/"; "https://cdn.example.com/"]
         SampleStore.stocked_vault)
  = Return (Some {| file_name := "report.txt"; file_type := "text/plain";
                    webkitRelativePath := "";
                    file_bits := SampleStore.blob_of "b1946ac9" |}).
Proof.
  assert (Hp : "hunter2" <> "") by discriminate.
  pose proof (proj2 (encrypted_download_skips_undecryptable "report.txt"
                       ["https://odd.example.com/"; "https://cdn.example.com/"]
                       SampleStore.stocked_vault SampleStore.stocked_vault
                       "hunter2" ["x"; "report.txt"; "b1946ac9"; "text/plain"])
                eq_refl eq_refl Hp eq_refl) as P.
  cbv zeta in P. apply P.
  exists ["https://odd.example.com/"], "https://cdn.example.com/", [],
         (Sample.seal (SampleStore.blob_of "b1946ac9") "hunter2"),
         (SampleStore.blob_of "b1946ac9").
  split; [reflexivity|]. split.
  - constructor; [|constructor]. right.
    exists (Sample.seal (SampleStore.blob_of "b1946ac9") "sesame"), Sample.bad_decrypt.
    split; reflexivity.
  - split; [reflexivity|]. split; reflexivity.
Defined.

(** X20: a second [upload()] of the batch for one server does nothing. *)
Lemma upload_runs_once_witness :
  Upload.running (fst (Upload.upload 101 SampleStore.plain_batch)) = true
  /\ Upload.upload 102 (fst (Upload.upload 101 SampleStore.plain_batch))
     = (fst (Upload.upload 101 SampleStore.plain_batch), Return tt).
Proof.
  pose proof (upload_runs_once 101 102 SampleStore.plain_batch) as P.
  cbv zeta in P. destruct P as [Ho Hr].
  split; [exact (Hr eq_refl eq_refl)|exact Ho].
Defined.

(** X21: the batch for the locked vault throws at its first file. *)
Lemma upload_to_locked_drive_throws_witness :
  snd (Upload.upload 101 SampleStore.sealed_batch)
    = Throw EncryptedDrive.drive_locked
  /\ Upload.running (fst (Upload.upload 101 SampleStore.sealed_batch)) = true
  /\ Upload.batch_complete (fst (Upload.upload 101 SampleStore.sealed_batch)) = false.
Proof.
  pose proof (upload_to_locked_drive_throws 101 SampleStore.sealed_batch
                Sample.vault SampleStore.notes_entry []
                eq_refl eq_refl eq_refl eq_refl eq_refl) as P.
  cbv zeta in P. destruct P as [Hr [_ [_ [_ [Hg Hc]]]]].
  split; [exact Hr|]. split; [exact Hg|exact Hc].
Defined.

(** X22: the first file of the batch reaches the server, and the blob is
    recorded. *)
Lemma upload_step_after_success_witness :
  exists blob,
    uploadBlob "https://cdn.example.com/" Sample.notes "Upload notes.txt"
      = Return blob
    /\ entry_at
         (Upload.blobs
            (Upload.upload_to_server SampleStore.notes_entry Sample.notes
               "Upload notes.txt" (Upload.init_status SampleStore.plain_batch)
               "https://cdn.example.com/"))
         "https://cdn.example.com/" "id0" = Some blob.
Proof.
  eexists. split; [reflexivity|].
  pose proof (upload_step_after_success SampleStore.notes_entry Sample.notes
                "Upload notes.txt" (Upload.init_status SampleStore.plain_batch)
                "https://cdn.example.com/" _ Upload.initial_status
                eq_refl eq_refl) as P.
  cbv zeta in P. exact (proj1 P).
Defined.

(** X23: the batch for one server has progress 1 after its run. *)
Lemma progress_reaches_one_witness :
  Upload.progress (fst (Upload.upload 101 SampleStore.plain_batch)) = Num 1%Qc.
Proof.
  assert (Hs : Upload.servers (fst (Upload.upload 101 SampleStore.plain_batch))
               = ["https://cdn.example.com/"]) by (vm_compute; reflexivity).
  apply progress_reaches_one.
  - vm_compute. discriminate.
  - rewrite Hs. discriminate.
  - rewrite Hs. apply (@bool_decide_unpack _ (NoDup_dec _)). vm_compute. exact I.
  - rewrite Hs. intros s [<-|[]]. vm_compute. reflexivity.
Defined.

(** X24: after the run of the batch for one server, its first file is
    complete. *)
Lemma resolved_upload_completes_every_file_witness :
  snd (Upload.upload 101 SampleStore.plain_batch) = Return tt
  /\ Upload.batch_complete (fst (Upload.upload 101 SampleStore.plain_batch)) = true
  /\ exists st,
       Upload.status (fst (Upload.upload 101 SampleStore.plain_batch)) !! "id0"
         = Some st
       /\ Upload.complete st = true.
Proof.
  assert (Hr : snd (Upload.upload 101 SampleStore.plain_batch) = Return tt)
    by (vm_compute; reflexivity).
  split; [exact Hr|].
  assert (Hn : NoDup (List.map Upload.id (Upload.files SampleStore.plain_batch))).
  { apply (@bool_decide_unpack _ (NoDup_dec _)). vm_compute. exact I. }
  assert (Hi : In SampleStore.notes_entry (Upload.files SampleStore.plain_batch))
    by (left; reflexivity).
  pose proof (resolved_upload_completes_every_file 101 SampleStore.plain_batch
                SampleStore.notes_entry eq_refl eq_refl Hn Hi Hr) as P.
  cbv zeta in P. destruct P as [Hc [_ [st [Hst [_ [Hd _]]]]]].
  split; [exact Hc|]. exists st. split; [exact Hst|exact Hd].
Defined.

(** X25: the batch for two servers that take nothing leaves the [docs]
    drive alone. *)
Lemma failed_batch_publishes_nothing_witness :
  drive_modified (Upload.drive SampleStore.stranded_batch) = false
  /\ Upload.drive (fst (Upload.upload 101 SampleStore.stranded_batch))
     = Upload.Plain Sample.docs_drive.
Proof.
  split; [reflexivity|].
  assert (Hf : forall s fl tk, In s (Upload.servers SampleStore.stranded_batch) ->
                 exists t, uploadBlob s fl tk = Throw t).
  { intros s fl tk [<-|[<-|[]]]; eexists; reflexivity. }
  pose proof (failed_batch_publishes_nothing 101 SampleStore.stranded_batch
                eq_refl Hf) as P.
  cbv zeta in P. exact (proj1 P).
Defined.

(** X26: the new vault, saved and then unlocked with its password, is
    open, not modified, and has its name. *)
Lemma first_save_then_unlock_witness :
  EncryptedDrive.locked SampleStore.new_vault = true
  /\ snd (EncryptedDrive.unlock "hunter2"
            (fst (EncryptedDrive.save 101 SampleStore.new_vault))) = Return tt
  /\ EncryptedDrive.locked
       (fst (EncryptedDrive.unlock "hunter2"
               (fst (EncryptedDrive.save 101 SampleStore.new_vault)))) = false
  /\ Drive.modified
       (EncryptedDrive.base
          (fst (EncryptedDrive.unlock "hunter2"
                  (fst (EncryptedDrive.save 101 SampleStore.new_vault))))) = false.
Proof.
  split; [reflexivity|].
  assert (Ho : opens_to (Nostr.content SampleStore.vault_template) "hunter2"
                 (Nostr.tags SampleStore.vault_plain)).
  { exists (String.list_byte_of_string (Nostr.content SampleStore.vault_template)),
           (stringify_tags (Nostr.tags SampleStore.vault_plain)).
    split; [vm_compute; reflexivity|]. split; vm_compute; reflexivity. }
  assert (Hs : servers_resolve_stably
                 (Drive.servers (Drive._metadata
                    (EncryptedDrive.base SampleStore.new_vault))))
    by (intros s u []).
  assert (Hid : Drive.identifier (Drive._metadata
                  (EncryptedDrive.base SampleStore.new_vault)) <> "")
    by (vm_compute; discriminate).
  assert (Hp : Drive.createEventTemplate 101
                 (EncryptedDrive.base SampleStore.new_vault)
               = Return SampleStore.vault_plain) by (vm_compute; reflexivity).
  assert (Ht : EncryptedDrive.createEventTemplate 101 SampleStore.new_vault
               = Return SampleStore.vault_template) by (vm_compute; reflexivity).
  assert (Hg : Drive.signer (EncryptedDrive.base SampleStore.new_vault)
                 SampleStore.vault_template = Return SampleStore.vault_signed)
    by (vm_compute; reflexivity).
  assert (Hc : Nostr.content SampleStore.vault_signed
               = Nostr.content SampleStore.vault_template)
    by (vm_compute; reflexivity).
  assert (Hb : Drive.publisher (EncryptedDrive.base SampleStore.new_vault)
                 SampleStore.vault_signed = Return tt) by reflexivity.
  pose proof (first_save_then_unlock 101 SampleStore.new_vault "hunter2"
                SampleStore.vault_plain SampleStore.vault_template
                SampleStore.vault_signed []
                eq_refl eq_refl eq_refl Hid Hs Hp Ht Ho
                Hg Hc Hb (or_introl eq_refl) eq_refl) as P.
  cbv zeta in P. destruct P as [Hr [Hl [_ [Hm _]]]].
  split; [exact Hr|]. split; [exact Hl|exact Hm].
Defined.

End FurtherExamples.

(** * The run on a platform on which [setFile] can fail *)

Section BrittleExamples.
#[local] Existing Instance Brittle.tree.
#[local] Existing Instance Brittle.platform.


End BrittleExamples.
